(** * deployment-tracker: a shallow embedding of the reconciliation pipeline

    The definitions follow the Go packages of the repository:
    - [GoStrings]: the functions of Go's [strings] package the code calls;
    - [Image]: package [image] ([ExtractDigest], [ExtractName]);
    - [Go]: 64-bit integers and error values;
    - [DeploymentRecord]: package [deploymentrecord], the record and the
      client ([NewDeploymentRecord], [NewClient] and its options);
    - [Transport] and [Delivery]: the collaborators of the client and
      [PostOne] with its retry loop;
    - [Cluster]: the Kubernetes objects and calls the controller uses;
    - [Controller]: package [controller] ([PodEvent], the informer
      handlers, [processEvent], [recordContainer] and their helpers);
    - [Worker], [Informers] and [Startup]: the worker loop
      ([runWorker], [processNextItem]), [createInformerFactory], and what
      [New] and [main] set up ([ValidTemplate], the default template, the
      API client).

    Go strings are byte sequences; they are modelled by [string] (a list of
    8-bit [ascii] characters).  Go's [int] and [time.Duration] are 64-bit
    signed integers, modelled by [Z] with the wrap-around written out.
    Calls that leave the process (HTTP, the rate limiter, the cluster) are
    answered by an environment, and everything done is kept in a log. *)

From Stdlib Require Import ZArith Bool List Ascii String Lia.
From stdpp Require Import base gmap strings.
Import ListNotations.

Local Open Scope string_scope.
Local Open Scope Z_scope.
Local Open Scope list_scope.

(** ** Go's [strings] package *)

Module GoStrings.

(** [len(s)] *)
Definition len (s : string) : Z := Z.of_nat (String.length s).

(** [s[lo:hi]], for [0 <= lo <= hi <= len(s)] (Go panics otherwise). *)
Definition slice (s : string) (lo hi : Z) : string :=
  String.substring (Z.to_nat lo) (Z.to_nat (hi - lo)) s.

(** [s[lo:]] *)
Definition sliceFrom (s : string) (lo : Z) : string := slice s lo (len s).

(** [s[:hi]] *)
Definition sliceTo (s : string) (hi : Z) : string := slice s 0 hi.

(** [strings.HasPrefix(s, prefix)] *)
Definition HasPrefix (s prefix : string) : bool := String.prefix prefix s.

(** [strings.Contains(s, substr)] *)
Fixpoint Contains (s substr : string) : bool :=
  HasPrefix s substr ||
  match s with
  | EmptyString => false
  | String _ rest => Contains rest substr
  end.

Fixpoint indexFrom (s substr : string) (i : Z) : Z :=
  if HasPrefix s substr then i
  else match s with
       | EmptyString => -1
       | String _ rest => indexFrom rest substr (i + 1)
       end.

(** [strings.Index(s, substr)]: first occurrence, or -1. *)
Definition Index (s substr : string) : Z := indexFrom s substr 0.

Fixpoint lastIndexFrom (s substr : string) (i : Z) : Z :=
  match s with
  | EmptyString => if HasPrefix s substr then i else -1
  | String _ rest =>
      let later := lastIndexFrom rest substr (i + 1) in
      if later =? -1 then (if HasPrefix s substr then i else -1) else later
  end.

(** [strings.LastIndex(s, substr)]: last occurrence, or -1. *)
Definition LastIndex (s substr : string) : Z := lastIndexFrom s substr 0.

(** The scan of [strings.ReplaceAll(s, old, new)] for a non-empty [old]:
    the leftmost occurrence is replaced and the scan resumes behind it.
    [skip] counts the bytes of a matched occurrence still to be dropped. *)
Fixpoint replaceScan (old new : string) (skip : nat) (s : string) : string :=
  match s with
  | EmptyString => EmptyString
  | String c rest =>
      match skip with
      | S k => replaceScan old new k rest
      | O =>
          if HasPrefix s old
          then new +:+ replaceScan old new (String.length old - 1) rest
          else String c (replaceScan old new 0 rest)
      end
  end.

(** [strings.ReplaceAll(s, old, new)]; the controller only calls it with
    the three non-empty placeholder tokens as [old]. *)
Definition ReplaceAll (s old new : string) : string :=
  replaceScan old new 0 s.

End GoStrings.

(** ** Package [image] *)

Module Image.
Import GoStrings.

(** [c == '@' || c == ' '] *)
Definition isSeparator (c : ascii) : bool :=
  Ascii.eqb c "@"%char || Ascii.eqb c " "%char.

(** The loop [for j, c := range remaining] of [ExtractDigest]: the index of
    the first separator.  Go ranges over runes and [j] is the byte offset
    of the rune; both separators are ASCII, and no byte of a multi-byte
    UTF-8 sequence is below 128, so scanning bytes finds the same
    offset. *)
Fixpoint firstSeparator (remaining : string) (j : Z) : option Z :=
  match remaining with
  | EmptyString => None
  | String c rest =>
      if isSeparator c then Some j else firstSeparator rest (j + 1)
  end.

(** [ExtractDigest] extracts the digest from an ImageID. *)
Definition ExtractDigest (imageID : string) : string :=
  if String.eqb imageID "" then ""
  else
    (* for i := 0; i < len(imageID)-7; i++ *)
    match find (fun i => String.eqb (slice imageID i (i + 7)) "sha256:")
               (map Z.of_nat (seq 0 (Z.to_nat (len imageID - 7)))) with
    | Some i =>
        let remaining := sliceFrom imageID i in
        let end_ := match firstSeparator remaining 0 with
                    | Some j => j
                    | None => len remaining
                    end in
        sliceTo remaining end_
    | None => imageID
    end.

(** [ExtractName] extracts the image name and tag from a container image
    reference. *)
Definition ExtractName (image : string) : string * string :=
  if String.eqb image "" then ("", "")
  else
    let image :=
      let idx := Index image "@" in
      if negb (idx =? -1) then sliceTo image idx else image in
    let lastSlash := LastIndex image "/" in
    let tagStart := LastIndex image ":" in
    if tagStart >? lastSlash
    then (sliceTo image tagStart, sliceFrom image (tagStart + 1))
    else (image, "").

End Image.

(** ** Go integers and errors *)

Module Go.

(** Two's-complement wrap-around of a 64-bit signed integer ([int],
    [int64], [time.Duration]). *)
Definition wrap64 (z : Z) : Z := (z + 2 ^ 63) mod 2 ^ 64 - 2 ^ 63.

Definition add64 (a b : Z) : Z := wrap64 (a + b).
Definition mul64 (a b : Z) : Z := wrap64 (a * b).

(** [time.Millisecond] and [time.Second], in nanoseconds. *)
Definition Millisecond : Z := 1000000.
Definition Second : Z := 1000000000.

(** Error values.  [errorString] is an error without a cause
    ([errors.New], [fmt.Errorf] without [%w], or an error handed over by a
    collaborator); [wrapError msg err] is [fmt.Errorf(msg + ": %w", err)],
    whose [Unwrap] is [err], and [wrapNil msg] is the same call on a [nil]
    error; [statusError code] is
    [fmt.Errorf("unexpected status code: %d", code)]; [ClientError] is
    [&deploymentrecord.ClientError{err}]. *)
Inductive error : Type :=
| errorString (msg : string)
| statusError (code : Z)
| wrapError (msg : string) (err : error)
| wrapNil (msg : string)
| ClientError (err : error).

(** [fmt.Errorf(msg + ": %w", err)] for an [err] that may be [nil]. *)
Definition Errorf_w (msg : string) (err : option error) : error :=
  match err with
  | Some e => wrapError msg e
  | None => wrapNil msg
  end.

(** [errors.As(err, &clientErr)] for [clientErr *ClientError]: true when a
    [ClientError] is on the [Unwrap] chain of [err]. *)
Fixpoint AsClientError (err : error) : bool :=
  match err with
  | ClientError _ => true
  | wrapError _ inner => AsClientError inner
  | _ => false
  end.

(** [Unwrap] *)
Definition Unwrap (err : error) : option error :=
  match err with
  | wrapError _ inner => Some inner
  | ClientError inner => Some inner
  | _ => None
  end.

End Go.

(** ** Package [deploymentrecord] *)

Module DeploymentRecord.
Import GoStrings Go.

(** Status constants for deployment records. *)
Definition StatusDeployed : string := "deployed".
Definition StatusDecommissioned : string := "decommissioned".

(** [DeploymentRecord] represents a deployment event record. *)
Record DeploymentRecord : Type := {
  Name : string;
  Digest : string;
  Version : string;
  LogicalEnvironment : string;
  PhysicalEnvironment : string;
  Cluster : string;
  Status : string;
  DeploymentName : string
}.

(** [NewDeploymentRecord] creates a new DeploymentRecord with the given
    status. *)
Definition NewDeploymentRecord
    (name digest version logicalEnv physicalEnv cluster status
     deploymentName : string) : DeploymentRecord :=
  let status :=
    if negb (String.eqb status StatusDeployed)
       && negb (String.eqb status StatusDecommissioned)
    then StatusDeployed (* default to deployed if invalid *)
    else status in
  {| Name := name;
     Digest := digest;
     Version := version;
     LogicalEnvironment := logicalEnv;
     PhysicalEnvironment := physicalEnv;
     Cluster := cluster;
     Status := status;
     DeploymentName := deploymentName |}.

(** The credentials of a GitHub App installation
    ([ghinstallation.Transport]). *)
Record Transport : Type := {
  appID : Z;
  installationID : Z;
  privateKeyFile : string
}.

(** [rate.NewLimiter(rate.Limit(limit), burst)] *)
Record Limiter : Type := { limit : Z; burst : Z }.

(** [Client] is an API client for posting deployment records.
    [httpTimeout] is [httpClient.Timeout]. *)
Record Client : Type := {
  baseURL : string;
  org : string;
  httpTimeout : Z;
  retries : Z;
  apiToken : string;
  transport : option Transport;
  rateLimiter : Limiter
}.

(** [ClientOption] is a function that configures the Client; [None] is a
    panic ([WithGHApp] panics on invalid values). *)
Definition ClientOption : Type := Client -> option Client.

(** What a call gives back: a value, an error, or a panic. *)
Inductive result (A : Type) : Type :=
| Ok (a : A)
| Err (e : error)
| Panic.
Arguments Ok {A} a.
Arguments Err {A} e.
Arguments Panic {A}.

Definition isLetterDigit (c : ascii) : bool :=
  let n := N_of_ascii c in
  ((97 <=? n) && (n <=? 122) || (65 <=? n) && (n <=? 90)
   || (48 <=? n) && (n <=? 57))%N.

(** The character class [[a-zA-Z0-9_-]]. *)
Definition orgChar (c : ascii) : bool :=
  isLetterDigit c || Ascii.eqb c "_"%char || Ascii.eqb c "-"%char.

Fixpoint allOrgChars (s : string) : bool :=
  match s with
  | EmptyString => true
  | String c rest => orgChar c && allOrgChars rest
  end.

(** [validOrgPattern.MatchString(org)] for
    [validOrgPattern = regexp.MustCompile(`^[a-zA-Z0-9_-]+$`)]: one or more
    characters of the class and nothing else (in Go's syntax [$] matches
    at the end of the text only). *)
Definition validOrgPattern_MatchString (org : string) : bool :=
  negb (String.eqb org "") && allOrgChars org.

(** The check of [NewClient] that a URL is local (allowed to use HTTP). *)
Definition isLocal (baseURL : string) : bool :=
  HasPrefix baseURL "http://localhost"
  || HasPrefix baseURL "http://127.0.0.1"
  || Contains baseURL ".svc.cluster.local".

(** [for _, opt := range opts { opt(c) }] *)
Fixpoint applyOptions (opts : list ClientOption) (c : Client)
  : option Client :=
  match opts with
  | [] => Some c
  | opt :: rest =>
      match opt c with
      | Some c' => applyOptions rest c'
      | None => None
      end
  end.

(** [NewClient] creates a new API client with the given base URL and
    organization. *)
Definition NewClient (baseURL org : string) (opts : list ClientOption)
  : result Client :=
  if HasPrefix baseURL "http://" && negb (isLocal baseURL)
  then Err (errorString ("insecure URL not allowed: " +:+ baseURL
                         +:+ " (use HTTPS for non-local hosts)"))
  else
    let baseURL :=
      if negb (HasPrefix baseURL "https://")
         && negb (HasPrefix baseURL "http://")
      then "https://" +:+ baseURL
      else baseURL in
    if negb (validOrgPattern_MatchString org)
    then Err (errorString ("invalid organization name: " +:+ org
            +:+ " (must be alphanumeric, hyphens, or underscores)"))
    else
      match applyOptions opts
              {| baseURL := baseURL;
                 org := org;
                 httpTimeout := 5 * Second;
                 retries := 3;
                 apiToken := "";
                 transport := None;
                 rateLimiter := {| limit := 20; burst := 50 |} |} with
      | Some c => Ok c
      | None => Panic
      end.

(** [WithTimeout] sets the HTTP client timeout in seconds. *)
Definition WithTimeout (seconds : Z) : ClientOption := fun c =>
  Some {| baseURL := baseURL c; org := org c;
          httpTimeout := mul64 seconds Second;
          retries := retries c; apiToken := apiToken c;
          transport := transport c; rateLimiter := rateLimiter c |}.

(** [WithRetries] sets the number of retries for failed requests. *)
Definition WithRetries (n : Z) : ClientOption := fun c =>
  Some {| baseURL := baseURL c; org := org c;
          httpTimeout := httpTimeout c;
          retries := n; apiToken := apiToken c;
          transport := transport c; rateLimiter := rateLimiter c |}.

(** [WithAPIToken] sets the API token for Bearer authentication. *)
Definition WithAPIToken (token : string) : ClientOption := fun c =>
  Some {| baseURL := baseURL c; org := org c;
          httpTimeout := httpTimeout c;
          retries := retries c; apiToken := token;
          transport := transport c; rateLimiter := rateLimiter c |}.

(** [WithGHApp] configures a GitHub app to use for authentication.
    [loaded] is what [strconv.Atoi] of the two ids and
    [ghinstallation.NewKeyFromFile] produce: [None] when one of them
    fails, on which the option panics. *)
Definition WithGHApp (loaded : option Transport) : ClientOption := fun c =>
  match loaded with
  | Some t =>
      Some {| baseURL := baseURL c; org := org c;
              httpTimeout := httpTimeout c;
              retries := retries c; apiToken := apiToken c;
              transport := Some t; rateLimiter := rateLimiter c |}
  | None => None
  end.

End DeploymentRecord.

(** ** The collaborators of the delivery client

    [PostOne] talks to a rate limiter, a cancellation context, a random
    source, an optional token transport and the HTTP client.  Whatever they
    answer is given by an environment; each answer may depend on everything
    the client did before, which the log of [Event]s (newest first)
    records. *)

Module Transport.
Import Go DeploymentRecord.

(** The request handed to [httpClient.Do]: method POST, header
    [Content-Type: application/json], and the record whose JSON encoding
    is the body. *)
Record Request : Type := {
  url : string;
  authorization : option string;
  body : DeploymentRecord
}.

(** What [httpClient.Do] gives back: an error, or a response with a
    status code. *)
Inductive HttpResult : Type :=
| DoError (msg : string)
| Response (StatusCode : Z).

Inductive Event : Type :=
| EvLimiterWait (err : option string)
    (* rateLimiter.Wait(ctx) returned err *)
| EvBackoff (delay : Z) (cancelled : option string)
    (* select on time.After(delay) and ctx.Done(); Some is ctx.Err() *)
| EvToken (tok : string + string)
    (* transport.Token(ctx): inl is the error, inr the token *)
| EvPost (req : Request) (resp : HttpResult).
    (* httpClient.Do(req) *)

Record Env : Type := {
  limiterWait : list Event -> option string;
  ctxDone : list Event -> option string;
  (* the value drawn by rand.Int64N(50) is [randInt64 log mod 50] *)
  randInt64 : list Event -> Z;
  (* the int64 a float64 of 2^63 or more converts to
     (implementation-dependent) *)
  floatOutOfRange : Z -> Z;
  (* the error of http.NewRequestWithContext for a URL it cannot parse *)
  newRequestErr : string -> option string;
  getToken : list Event -> string + string;
  httpDo : list Event -> Request -> HttpResult
}.

(** The requests sent so far, oldest first. *)
Fixpoint posts (log : list Event) : list (Request * HttpResult) :=
  match log with
  | [] => []
  | EvPost req resp :: older => posts older ++ [(req, resp)]
  | _ :: older => posts older
  end.

(** The backoff delays waited so far, oldest first. *)
Fixpoint delays (log : list Event) : list Z :=
  match log with
  | [] => []
  | EvBackoff d _ :: older => delays older ++ [d]
  | _ :: older => delays older
  end.

End Transport.

Module Delivery.
Import GoStrings Go DeploymentRecord Transport.

(** [time.Duration(math.Pow(2, float64(attempt)))]: a power of two is
    exact in a float64, and its conversion is exact below 2^63. *)
Definition pow2Duration (env : Env) (attempt : Z) : Z :=
  if attempt <? 63 then 2 ^ attempt else wrap64 (floatOutOfRange env attempt).

(** The delay of [PostOne] before attempt [attempt], for the value
    [draw] of [rand.Int64N(50)]. *)
Definition backoffDelay (env : Env) (attempt draw : Z) : Z :=
  let backoff := mul64 (mul64 (pow2Duration env attempt) 100) Millisecond in
  let jitter := mul64 draw Millisecond in
  let delay := add64 backoff jitter in
  if delay >? 5 * Second then 5 * Second else delay.

(** The [if attempt > 0] block of the loop: the error to return when the
    context is cancelled during the wait. *)
Definition backoff (env : Env) (attempt : Z) (log : list Event)
  : option error * list Event :=
  if attempt >? 0 then
    let delay := backoffDelay env attempt (randInt64 env log mod 50) in
    let done := ctxDone env log in
    (match done with
     | Some ctxErr =>
         Some (wrapError "context cancelled during retry backoff"
                         (errorString ctxErr))
     | None => None
     end,
     EvBackoff delay done :: log)
  else (None, log).

(** The [Authorization] header of the request. *)
Definition authorize (env : Env) (c : Client) (log : list Event)
  : (error + option string) * list Event :=
  match transport c with
  | Some _ =>
      let tok := getToken env log in
      (match tok with
       | inl e => inl (wrapError "failed to get access token" (errorString e))
       | inr t => inr (Some ("Bearer " +:+ t))
       end,
       EvToken tok :: log)
  | None =>
      (inr (if negb (String.eqb (apiToken c) "")
            then Some ("Bearer " +:+ apiToken c) else None),
       log)
  end.

(** How the loop goes on after [httpClient.Do]. *)
Inductive verdict : Type :=
| Return (err : option error)
| Continue (lastErr : error).

Definition classify (resp : HttpResult) : verdict :=
  match resp with
  | DoError e => Continue (wrapError "post request failed" (errorString e))
  | Response code =>
      if (code >=? 200) && (code <? 300) then Return None
      else
        let lastErr := statusError code in
        if (code >=? 400) && (code <? 500) && negb (code =? 429)
        then Return (Some (ClientError lastErr))
        else Continue lastErr
  end.

(** The loop [for attempt := range c.retries + 1] of [PostOne], with [n]
    iterations to go. *)
Fixpoint attemptLoop (env : Env) (c : Client) (record : DeploymentRecord)
    (url : string) (n : nat) (attempt : Z) (lastErr : option error)
    (log : list Event) : option error * list Event :=
  match n with
  | O => (Some (Errorf_w "all retries exhausted" lastErr), log)
  | S n' =>
      match backoff env attempt log with
      | (Some err, log) => (Some err, log)
      | (None, log) =>
          match newRequestErr env url with
          | Some e =>
              (Some (wrapError "failed to create request" (errorString e)),
               log)
          | None =>
              match authorize env c log with
              | (inl err, log) => (Some err, log)
              | (inr auth, log) =>
                  let req := {| url := url; authorization := auth;
                                body := record |} in
                  let resp := httpDo env log req in
                  let log := EvPost req resp :: log in
                  match classify resp with
                  | Return err => (err, log)
                  | Continue e =>
                      attemptLoop env c record url n' (attempt + 1)
                                  (Some e) log
                  end
              end
          end
      end
  end.

(** [fmt.Sprintf("%s/orgs/%s/artifacts/metadata/deployment-record", ...)] *)
Definition recordURL (c : Client) : string :=
  baseURL c +:+ "/orgs/" +:+ org c
  +:+ "/artifacts/metadata/deployment-record".

(** [PostOne] posts a single deployment record to the GitHub deployment
    records API.  [json.Marshal] does not fail on a struct of strings. *)
Definition PostOne (env : Env) (c : Client)
    (record : option DeploymentRecord) (log : list Event)
  : option error * list Event :=
  match record with
  | None => (Some (errorString "record cannot be nil"), log)
  | Some r =>
      let waited := limiterWait env log in
      let log := EvLimiterWait waited :: log in
      match waited with
      | Some e =>
          (Some (wrapError "rate limiter wait failed" (errorString e)), log)
      | None =>
          attemptLoop env c r (recordURL c)
                      (Z.to_nat (add64 (retries c) 1)) 0 None log
      end
  end.

End Delivery.

(** ** The Kubernetes objects the controller reads *)

Module OwnerReference.
Record t : Type := { Kind : string; Name : string }.
End OwnerReference.

Module Container.
Record t : Type := { Name : string; Image : string }.
End Container.

Module ContainerStatus.
Record t : Type := { Name : string; ImageID : string }.
End ContainerStatus.

Module Pod.
(** The fields of [corev1.Pod] the controller reads ([ObjectMeta],
    [Spec] and [Status] flattened). *)
Record t : Type := {
  Namespace : string;
  Name : string;
  OwnerReferences : list OwnerReference.t;
  DeletionTimestamp : option Z;
  Containers : list Container.t;
  InitContainers : list Container.t;
  Phase : string;
  ContainerStatuses : list ContainerStatus.t;
  InitContainerStatuses : list ContainerStatus.t
}.
End Pod.

Module Cluster.

(** A [*corev1.Pod]: the address of a pod object of the informer. *)
Definition ptr : Type := N.

(** The dynamic type of an [any] handed to an informer handler or kept in
    the informer's cache. *)
Inductive obj : Type :=
| ObjPod (p : ptr)                                (* *corev1.Pod *)
| ObjTombstone (Key : string) (Obj : obj)  (* cache.DeletedFinalStateUnknown *)
| ObjOther.

(** [podInformer.GetIndexer().GetByKey(key)] *)
Inductive GetByKeyResult : Type :=
| GetByKeyErr (err : string)
| GetByKeyMissing
| GetByKeyFound (o : obj).

(** [clientset.AppsV1().Deployments(namespace).Get(ctx, name, ...)] *)
Inductive GetDeploymentResult : Type :=
| DeploymentFound
| DeploymentNotFound           (* an error with k8serrors.IsNotFound *)
| DeploymentGetErr (err : string). (* any other error *)

Inductive Call : Type :=
| CallGetByKey (key : string) (res : GetByKeyResult)
| CallGetDeployment (namespace name : string) (res : GetDeploymentResult).

(** What the cluster answers, given the calls made before (newest
    first), the pod objects behind the pointers, and the key
    [cache.MetaNamespaceKeyFunc] of client-go gives an object ([None] when
    it returns an error). *)
Record Env : Type := {
  deref : ptr -> Pod.t;
  MetaNamespaceKeyFunc : obj -> option string;
  getByKey : list Call -> string -> GetByKeyResult;
  getDeployment : list Call -> string -> string -> GetDeploymentResult
}.

End Cluster.

(** ** Package [controller] *)

Module Controller.
Import GoStrings Go DeploymentRecord Cluster.

(** [EventCreated] indicates that a pod has been created, [EventDeleted]
    that a pod has been deleted. *)
Definition EventCreated : string := "CREATED".
Definition EventDeleted : string := "DELETED".

Definition PodRunning : string := "Running".

(** [PodEvent] represents a pod event to be processed. *)
Record PodEvent : Type := {
  Key : string;
  EventType : string;
  DeletedPod : option ptr (* Only populated for delete events *)
}.

(** Go's [==] on two pointers. *)
Definition ptr_eqb (p q : option ptr) : bool :=
  match p, q with
  | None, None => true
  | Some a, Some b => N.eqb a b
  | _, _ => false
  end.

(** Go's [==] on [PodEvent], the equality of the typed work queue
    ([workqueue.TypedRateLimitingInterface[PodEvent]]): a struct value is
    equal to another when all their fields are. *)
Definition PodEvent_eqb (a b : PodEvent) : bool :=
  String.eqb (Key a) (Key b)
  && String.eqb (EventType a) (EventType b)
  && ptr_eqb (DeletedPod a) (DeletedPod b).

(** Modelled from the spec: the placeholder tokens [TmplNS], [TmplDN] and
    [TmplCN] are declared in a file that is not part of the sources at
    hand; the spec gives them as [{{namespace}}], [{{deploymentName}}]
    and [{{containerName}}]. *)
Definition TmplNS : string := "{{namespace}}".
Definition TmplDN : string := "{{deploymentName}}".
Definition TmplCN : string := "{{containerName}}".

(** The fields of [Config] the reconciler reads. *)
Record Config : Type := {
  Template : string;
  LogicalEnvironment : string;
  PhysicalEnvironment : string;
  Cluster : string
}.

(** [Controller] is the Kubernetes controller for tracking deployments:
    its fixed parts. *)
Record Controller : Type := {
  cluster : Cluster.Env;
  remote : Transport.Env;
  apiClient : Client;
  cfg : Config
}.

(** What changes while the controller runs: the log of the delivery
    client, the calls to the cluster, and the cache [observedDeployments]
    (a [sync.Map] from cache key to [true]). *)
Record World : Type := {
  deliveries : list Transport.Event;
  clusterCalls : list Cluster.Call;
  observedDeployments : gmap string bool
}.

(** [getDeploymentName] returns the deployment name for a pod, if it
    belongs to one. *)
Fixpoint ownerDeploymentName (owners : list OwnerReference.t) : string :=
  match owners with
  | [] => ""
  | owner :: rest =>
      if String.eqb (OwnerReference.Kind owner) "ReplicaSet" then
        let rsName := OwnerReference.Name owner in
        let lastDash := LastIndex rsName "-" in
        if lastDash >? 0 then sliceTo rsName lastDash else rsName
      else ownerDeploymentName rest
  end.

Definition getDeploymentName (pod : Pod.t) : string :=
  ownerDeploymentName (Pod.OwnerReferences pod).

(** [getARDeploymentName] converts the pod's metadata into the correct
    format for the deployment name for the artifact registry. *)
Definition getARDeploymentName (p : Pod.t) (c : Container.t)
    (tmpl : string) : string :=
  let res := tmpl in
  let res := ReplaceAll res TmplNS (Pod.Namespace p) in
  let res := ReplaceAll res TmplDN (getDeploymentName p) in
  let res := ReplaceAll res TmplCN (Container.Name c) in
  res.

Fixpoint digestOf (statuses : list ContainerStatus.t)
    (containerName : string) : option string :=
  match statuses with
  | [] => None
  | status :: rest =>
      if String.eqb (ContainerStatus.Name status) containerName
      then Some (Image.ExtractDigest (ContainerStatus.ImageID status))
      else digestOf rest containerName
  end.

(** [getContainerDigest] extracts the image digest from the container
    status. *)
Definition getContainerDigest (pod : Pod.t) (containerName : string)
  : string :=
  match digestOf (Pod.ContainerStatuses pod) containerName with
  | Some d => d
  | None =>
      match digestOf (Pod.InitContainerStatuses pod) containerName with
      | Some d => d
      | None => ""
      end
  end.

Definition getCacheKey (dn digest : string) : string :=
  dn +:+ "||" +:+ digest.

(** The informer handlers of [New]; the result is the item handed to
    [queue.Add], if any. *)
Definition AddFunc (env : Cluster.Env) (o : obj) : option PodEvent :=
  match o with
  | ObjPod p =>
      let pod := deref env p in
      if String.eqb (Pod.Phase pod) PodRunning
         && negb (String.eqb (getDeploymentName pod) "")
      then
        match MetaNamespaceKeyFunc env o with
        | Some key =>
            Some {| Key := key; EventType := EventCreated;
                    DeletedPod := None |}
        | None => None
        end
      else None
  | _ => None
  end.

Definition UpdateFunc (env : Cluster.Env) (oldObj newObj : obj)
  : option PodEvent :=
  match oldObj, newObj with
  | ObjPod oldP, ObjPod newP =>
      let oldPod := deref env oldP in
      let newPod := deref env newP in
      if (match Pod.DeletionTimestamp newPod with
          | Some _ => true | None => false end)
         || String.eqb (getDeploymentName newPod) ""
      then None
      else if negb (String.eqb (Pod.Phase oldPod) PodRunning)
              && String.eqb (Pod.Phase newPod) PodRunning
      then
        match MetaNamespaceKeyFunc env newObj with
        | Some key =>
            Some {| Key := key; EventType := EventCreated;
                    DeletedPod := None |}
        | None => None
        end
      else None
  | _, _ => None
  end.

Definition DeleteFunc (env : Cluster.Env) (o : obj) : option PodEvent :=
  let pod :=
    match o with
    | ObjPod p => Some p
    | ObjTombstone _ (ObjPod p) => Some p  (* deleted final state unknown *)
    | _ => None
    end in
  match pod with
  | None => None
  | Some p =>
      if String.eqb (getDeploymentName (deref env p)) "" then None
      else
        match MetaNamespaceKeyFunc env o with
        | Some key =>
            Some {| Key := key; EventType := EventDeleted;
                    DeletedPod := Some p |}
        | None => None
        end
  end.

Definition setDeliveries (w : World) (log : list Transport.Event) : World :=
  {| deliveries := log;
     clusterCalls := clusterCalls w;
     observedDeployments := observedDeployments w |}.

Definition logCall (w : World) (call : Cluster.Call) : World :=
  {| deliveries := deliveries w;
     clusterCalls := call :: clusterCalls w;
     observedDeployments := observedDeployments w |}.

Definition setObserved (w : World) (m : gmap string bool) : World :=
  {| deliveries := deliveries w;
     clusterCalls := clusterCalls w;
     observedDeployments := m |}.

(** [_, exists := c.observedDeployments.Load(cacheKey)] *)
Definition Load (w : World) (cacheKey : string) : bool :=
  match observedDeployments w !! cacheKey with
  | Some _ => true
  | None => false
  end.

(** The first [switch status] of [recordContainer]: [Some r] when the
    function returns [r] there. *)
Definition alreadyRecorded (w : World) (cacheKey status : string)
  : option (option error) :=
  if String.eqb status StatusDeployed then
    if Load w cacheKey then Some None else None
  else if String.eqb status StatusDecommissioned then
    (* For delete, check if we've seen it - if not, no need to
       decommission *)
    if negb (Load w cacheKey) then Some None else None
  else Some (Some (errorString ("invalid status: " +:+ status))).

(** The second [switch status]: update cache after successful post. *)
Definition updateCache (w : World) (cacheKey status : string)
  : option error * World :=
  if String.eqb status StatusDeployed then
    (None, setObserved w (<[cacheKey := true]> (observedDeployments w)))
  else if String.eqb status StatusDecommissioned then
    (None, setObserved w (delete cacheKey (observedDeployments w)))
  else (Some (errorString ("invalid status: " +:+ status)), w).

(** The record [recordContainer] builds for a container. *)
Definition buildRecord (c : Controller) (container : Container.t)
    (digest status dn : string) : DeploymentRecord :=
  let '(imageName, version) :=
    Image.ExtractName (Container.Image container) in
  NewDeploymentRecord imageName digest version
    (LogicalEnvironment (cfg c)) (PhysicalEnvironment (cfg c))
    (Cluster (cfg c)) status dn.

(** [recordContainer] records a single container's deployment info. *)
Definition recordContainer (c : Controller) (pod : Pod.t)
    (container : Container.t) (status eventType : string) (w : World)
  : option error * World :=
  let dn := getARDeploymentName pod container (Template (cfg c)) in
  let digest := getContainerDigest pod (Container.Name container) in
  if String.eqb dn "" || String.eqb digest "" then (None, w)
  else
    let cacheKey := getCacheKey dn digest in
    (* Check if we've already recorded this deployment *)
    match alreadyRecorded w cacheKey status with
    | Some r => (r, w)
    | None =>
        let record := buildRecord c container digest status dn in
        let '(err, log) :=
          Delivery.PostOne (remote c) (apiClient c) (Some record)
                           (deliveries w) in
        let w := setDeliveries w log in
        match err with
        | Some err =>
            (* Make sure to not retry on client error messages *)
            if AsClientError err then (None, w) else (Some err, w)
        | None => updateCache w cacheKey status
        end
    end.

(** [deploymentExists] checks if a deployment exists in the cluster. *)
Definition deploymentExists (c : Controller) (namespace name : string)
    (w : World) : bool * World :=
  let res := getDeployment (cluster c) (clusterCalls w) namespace name in
  (match res with
   | DeploymentNotFound => false
   | DeploymentGetErr _ => true (* On error, assume it exists to be safe *)
   | DeploymentFound => true
   end,
   logCall w (CallGetDeployment namespace name res)).

(** The two loops [for _, container := range ...] of [processEvent]. *)
Fixpoint recordContainers (c : Controller) (pod : Pod.t)
    (containers : list Container.t) (status eventType : string)
    (lastErr : option error) (w : World) : option error * World :=
  match containers with
  | [] => (lastErr, w)
  | container :: rest =>
      let '(err, w) := recordContainer c pod container status eventType w in
      recordContainers c pod rest status eventType
        (match err with Some e => Some e | None => lastErr end) w
  end.

(** The first part of [processEvent]: the pod to report on, or [None]
    when the function returns [nil] before reporting. *)
Definition resolvePod (c : Controller) (event : PodEvent) (w : World)
  : option Pod.t * World :=
  if String.eqb (EventType event) EventDeleted then
    (* For delete events, use the pod captured at deletion time *)
    match DeletedPod event with
    | None => (None, w)
    | Some p =>
        let pod := deref (cluster c) p in
        let deploymentName := getDeploymentName pod in
        if negb (String.eqb deploymentName "") then
          let '(found, w) :=
            deploymentExists c (Pod.Namespace pod) deploymentName w in
          if found then (None, w) else (Some pod, w)
        else (Some pod, w)
    end
  else
    (* For create events, get the pod from the informer's cache *)
    let res := getByKey (cluster c) (clusterCalls w) (Key event) in
    let w := logCall w (CallGetByKey (Key event) res) in
    match res with
    | GetByKeyFound (ObjPod p) => (Some (deref (cluster c) p), w)
    | _ => (None, w)
    end.

(** [processEvent] processes a single pod event. *)
Definition processEvent (c : Controller) (event : PodEvent) (w : World)
  : option error * World :=
  match resolvePod c event w with
  | (None, w) => (None, w)
  | (Some pod, w) =>
      let status :=
        if String.eqb (EventType event) EventDeleted
        then StatusDecommissioned else StatusDeployed in
      let '(lastErr, w) :=
        recordContainers c pod (Pod.Containers pod) status
                         (EventType event) None w in
      recordContainers c pod (Pod.InitContainers pod) status
                       (EventType event) lastErr w
  end.

(** The controller starts with an empty cache and nothing done. *)
Definition initial : World :=
  {| deliveries := []; clusterCalls := []; observedDeployments := ∅ |}.

End Controller.

(** ** The contracts of the specification, in its own words

    These definitions follow the text of the specification, not the code;
    the theorems below compare the code with them. *)

Module Spec.
Import GoStrings.

(** The index of the first occurrence of [p] in [s], if any. *)
Fixpoint firstOccurrence (p s : string) : option nat :=
  if String.prefix p s then Some O
  else match s with
       | EmptyString => None
       | String _ rest => option_map S (firstOccurrence p rest)
       end.

(** "through the next [@], space, or end-of-string" *)
Fixpoint untilSeparator (s : string) : string :=
  match s with
  | EmptyString => EmptyString
  | String c rest =>
      if Image.isSeparator c then EmptyString
      else String c (untilSeparator rest)
  end.

(** Digest extraction contract: "return the substring beginning at the first
    occurrence of [sha256:] through the next [@], space, or end-of-string; if
    no such substring exists, return the input unchanged". *)
Definition extractDigest (s : string) : string :=
  let i := Index s "sha256:" in
  if i =? -1 then s else untilSeparator (sliceFrom s i).

(** The characters of [s] before the first one that satisfies [stop]. *)
Fixpoint takeUntil (stop : ascii -> bool) (s : string) : string :=
  match s with
  | EmptyString => EmptyString
  | String c rest => if stop c then EmptyString else String c (takeUntil stop rest)
  end.

Definition endsAuthority (c : ascii) : bool :=
  Ascii.eqb c "/"%char || Ascii.eqb c "?"%char || Ascii.eqb c "#"%char.

(** The host a URL targets: what follows the scheme, up to the path, query
    or fragment, without user information and port. *)
Definition hostOf (u : string) : string :=
  let rest :=
    if HasPrefix u "http://" then sliceFrom u 7
    else if HasPrefix u "https://" then sliceFrom u 8
    else u in
  let authority := takeUntil endsAuthority rest in
  let at_ := LastIndex authority "@" in
  let hostport :=
    if at_ =? -1 then authority else sliceFrom authority (at_ + 1) in
  takeUntil (fun c => Ascii.eqb c ":"%char) hostport.

(** [strings.HasSuffix] *)
Definition HasSuffix (s suffix : string) : bool :=
  (len suffix <=? len s) && String.eqb (sliceFrom s (len s - len suffix)) suffix.

(** "a recognized local/in-cluster host": [localhost], [127.0.0.1], or a
    host under [.svc.cluster.local]. *)
Definition recognizedLocalHost (host : string) : bool :=
  String.eqb host "localhost" || String.eqb host "127.0.0.1"
  || HasSuffix host ".svc.cluster.local".

(** "Base URL must be HTTPS unless it targets a recognized local/in-cluster
    host": the URLs that must be refused. *)
Definition insecureBaseURL (u : string) : bool :=
  HasPrefix u "http://" && negb (recognizedLocalHost (hostOf u)).

End Spec.

(** ** What a log of the delivery client shows *)

Module Trace.
Import Go DeploymentRecord Transport.

(** A response with a 2xx status. *)
Definition succeeded (resp : HttpResult) : bool :=
  match resp with
  | Response code => (200 <=? code) && (code <? 300)
  | DoError _ => false
  end.

(** The records of the requests answered with 2xx, newest first: the
    successful deliveries. *)
Fixpoint delivered (log : list Event) : list DeploymentRecord :=
  match log with
  | [] => []
  | EvPost req resp :: older =>
      if succeeded resp then body req :: delivered older else delivered older
  | _ :: older => delivered older
  end.

(** The waits and HTTP attempts of a log in the order they happened. *)
Inductive step : Type :=
| Sleep (delay : Z)
| Attempt.

Fixpoint schedule (log : list Event) : list step :=
  match log with
  | [] => []
  | EvBackoff d _ :: older => schedule older ++ [Sleep d]
  | EvPost _ _ :: older => schedule older ++ [Attempt]
  | _ :: older => schedule older
  end.

(** A wait of [backoffDelay env k j] before attempt [k], for the attempts
    from [k] on and the jitter draws [draws]. *)
Fixpoint paced (env : Env) (k : Z) (draws : list Z) : list step :=
  match draws with
  | [] => []
  | j :: rest =>
      Sleep (Delivery.backoffDelay env k j) :: Attempt
      :: paced env (k + 1) rest
  end.

(** No collaborator of [PostOne] but the HTTP call ever fails: the rate
    limiter grants its token, the context is not cancelled during a backoff
    wait, the request URL parses and the token transport, when there is one,
    hands out a token. *)
Definition steady (env : Env) (c : Client) : Prop :=
  (forall log, limiterWait env log = None)
  /\ (forall log, ctxDone env log = None)
  /\ newRequestErr env (Delivery.recordURL c) = None
  /\ (forall log, transport c = None \/ exists tok, getToken env log = inr tok).

(** Every request is answered with 2xx. *)
Definition alwaysAccepts (env : Env) : Prop :=
  forall log req, succeeded (httpDo env log req) = true.

(** The retry count is a non-negative [int] below the largest one
    ([retries + 1] does not overflow). *)
Definition retriesInRange (c : Client) : Prop :=
  0 <= retries c < 2 ^ 63 - 1.

End Trace.

Module RetrySpec.
Import Go DeploymentRecord Transport.

(** The classified outcome of one attempt: "2xx → Success; 4xx except 429 →
    ClientError (permanent); everything else (network error, 5xx, 429) →
    SoftFail". *)
Inductive outcome : Type := Success | Permanent | SoftFail.

Definition classOf (resp : HttpResult) : outcome :=
  match resp with
  | DoError _ => SoftFail
  | Response code =>
      if (200 <=? code) && (code <=? 299) then Success
      else if (400 <=? code) && (code <=? 499) && negb (code =? 429)
           then Permanent
           else SoftFail
  end.

(** The error a failed attempt leaves as the last observed one. *)
Definition observed (resp : HttpResult) : error :=
  match resp with
  | DoError e => wrapError "post request failed" (errorString e)
  | Response code => statusError code
  end.

(** "Before attempt k > 0, sleep min(cap, 2^k * baseDelay + random_jitter)
    where cap = 5s, baseDelay = 100ms", in nanoseconds, for a jitter of
    [jitter] milliseconds. *)
Definition backoffOf (k jitter : Z) : Z :=
  Z.min (5 * Second) (2 ^ k * (100 * Millisecond) + jitter * Millisecond).

End RetrySpec.

(** ** Sequences of [recordContainer] executions *)

Module History.
Import GoStrings Go DeploymentRecord Transport Cluster Controller.

(** One execution of [recordContainer]: its arguments. *)
Record Call : Type := {
  callPod : Pod.t;
  callContainer : Container.t;
  callStatus : string;
  callEventType : string
}.

(** The container identity of a call: the reported deployment name and the
    digest, and the cache key made of them. *)
Definition callName (c : Controller) (call : Call) : string :=
  getARDeploymentName (callPod call) (callContainer call) (Template (cfg c)).

Definition callDigest (call : Call) : string :=
  getContainerDigest (callPod call) (Container.Name (callContainer call)).

Definition callKey (c : Controller) (call : Call) : string :=
  getCacheKey (callName c call) (callDigest call).

(** A container has an identity when neither part is empty. *)
Definition hasIdentity (c : Controller) (call : Call) : bool :=
  negb (String.eqb (callName c call) "")
  && negb (String.eqb (callDigest call) "").

(** The record [recordContainer] posts for the call. *)
Definition callRecord (c : Controller) (call : Call) : DeploymentRecord :=
  buildRecord c (callContainer call) (callDigest call) (callStatus call)
              (callName c call).

Definition perform (c : Controller) (call : Call) (w : World)
  : option error * World :=
  recordContainer c (callPod call) (callContainer call) (callStatus call)
                  (callEventType call) w.

(** The executions of [calls] one after the other. *)
Fixpoint replay (c : Controller) (calls : list Call) (w : World) : World :=
  match calls with
  | [] => w
  | call :: rest => replay c rest (snd (perform c call w))
  end.

(** The records handed to [httpClient.Do] so far, oldest first. *)
Definition posted (w : World) : list DeploymentRecord :=
  map (fun p => body (fst p)) (posts (deliveries w)).

(** The cache key of a record. *)
Definition recordKey (r : DeploymentRecord) : string :=
  getCacheKey (DeploymentName r) (Digest r).

(** The status of the last successful delivery for [key], among the
    successful deliveries [recs] (newest first). *)
Fixpoint lastStatus (key : string) (recs : list DeploymentRecord)
  : option string :=
  match recs with
  | [] => None
  | r :: older =>
      if String.eqb (recordKey r) key then Some (Status r)
      else lastStatus key older
  end.

(** The dedup cache agrees with the successful deliveries: it holds [key]
    exactly when the last successful delivery for [key] had status
    [deployed]. *)
Definition cacheMatchesDeliveries (w : World) : Prop :=
  forall key,
    Load w key = true <->
    lastStatus key (Trace.delivered (deliveries w)) = Some StatusDeployed.

(** What each container's [recordContainer] returns in the loops of
    [processEvent]. *)
Fixpoint containerResults (c : Controller) (pod : Pod.t)
    (containers : list Container.t) (status eventType : string) (w : World)
  : list (option error) :=
  match containers with
  | [] => []
  | container :: rest =>
      let '(err, w) := recordContainer c pod container status eventType w in
      err :: containerResults c pod rest status eventType w
  end.

(** The status [processEvent] reports for an event. *)
Definition eventStatus (event : PodEvent) : string :=
  if String.eqb (EventType event) EventDeleted
  then StatusDecommissioned else StatusDeployed.

End History.

(** ** Concrete clients, environments and pods used in the examples *)

Module Scenario.
Import GoStrings Go DeploymentRecord Transport Cluster Controller.

(** The client [NewClient("https://api.github.com", "my-org")] builds. *)
Definition client : Client :=
  {| baseURL := "https://api.github.com";
     org := "my-org";
     httpTimeout := 5 * Second;
     retries := 3;
     apiToken := "";
     transport := None;
     rateLimiter := {| limit := 20; burst := 50 |} |}.

(** The same client after [WithRetries(37)]. *)
Definition client37 : Client :=
  {| baseURL := "https://api.github.com";
     org := "my-org";
     httpTimeout := 5 * Second;
     retries := 37;
     apiToken := "";
     transport := None;
     rateLimiter := {| limit := 20; burst := 50 |} |}.

(** A remote service that answers the [n]-th request it receives (counted
    from 0) with [answer n], behind collaborators that never fail; [jit]
    is the random source of the jitter. *)
Definition server (answer : nat -> HttpResult) (jit : list Event -> Z)
  : Transport.Env :=
  {| limiterWait := fun _ => None;
     ctxDone := fun _ => None;
     randInt64 := jit;
     floatOutOfRange := fun _ => - 2 ^ 63;
     newRequestErr := fun _ => None;
     getToken := fun _ => inl "no transport configured";
     httpDo := fun log _ => answer (List.length (posts log)) |}.

(** 500 on the first three requests, 200 afterwards. *)
Definition threeFailures (n : nat) : HttpResult :=
  if (n <? 3)%nat then Response 500 else Response 200.

Definition nginxRecord : DeploymentRecord :=
  NewDeploymentRecord "nginx" "sha256:aaaa" "1.21" "staging" "eu-1" "kind"
                      StatusDeployed "prod/web/app".

Definition nginxRequest : Request :=
  {| url := "https://api.github.com/orgs/my-org/artifacts/metadata/deployment-record";
     authorization := None;
     body := nginxRecord |}.

(** A service that answers 500 to everything, and no jitter. *)
Definition alwaysFailing : Transport.Env :=
  server (fun _ => Response 500) (fun _ => 0).

(** Delivering [nginxRecord] with 37 retries to [alwaysFailing]. *)
Definition run37 : option error * list Event :=
  Delivery.PostOne alwaysFailing client37 (Some nginxRecord) [].

(** Delivering it with 3 retries to a service that fails three times. *)
Definition run3 : option error * list Event :=
  Delivery.PostOne (server threeFailures (fun _ => 0)) client
                   (Some nginxRecord) [].

(** Two pod objects with the same namespace and name, owned by the
    ReplicaSet [web-7f9c9b6d8], at two addresses. *)
Definition webPod : Pod.t :=
  {| Pod.Namespace := "prod";
     Pod.Name := "web-7f9c9b6d8-x2x4z";
     Pod.OwnerReferences :=
       [ {| OwnerReference.Kind := "ReplicaSet";
            OwnerReference.Name := "web-7f9c9b6d8" |} ];
     Pod.DeletionTimestamp := None;
     Pod.Containers :=
       [ {| Container.Name := "app"; Container.Image := "nginx:1.21" |} ];
     Pod.InitContainers := [];
     Pod.Phase := "Running";
     Pod.ContainerStatuses :=
       [ {| ContainerStatus.Name := "app";
            ContainerStatus.ImageID :=
              "docker-pullable://nginx@sha256:aaaa" |} ];
     Pod.InitContainerStatuses := [] |}.

(** The key of the pods of the examples: [namespace/name]. *)
Definition podKey (o : obj) : option string :=
  match o with
  | ObjPod _ => Some "prod/web-7f9c9b6d8-x2x4z"
  | _ => None
  end.

(** A cluster in which every pod pointer leads to a pod like [webPod], the
    informer's cache is empty and no Deployment exists. *)
Definition emptyCluster : Cluster.Env :=
  {| deref := fun _ => webPod;
     MetaNamespaceKeyFunc := podKey;
     getByKey := fun _ _ => GetByKeyMissing;
     getDeployment := fun _ _ _ => DeploymentNotFound |}.

(** The work items [DeleteFunc] builds for the pod objects at addresses 1
    and 2. *)
Definition deletedAt (p : ptr) : PodEvent :=
  {| Key := "prod/web-7f9c9b6d8-x2x4z";
     EventType := EventDeleted;
     DeletedPod := Some p |}.

(** A controller with the default template, a service that accepts every
    request, and a cluster in which the Deployment [web] is gone. *)
Definition config : Config :=
  {| Template := "{{namespace}}/{{deploymentName}}/{{containerName}}";
     LogicalEnvironment := "staging";
     PhysicalEnvironment := "eu-1";
     Cluster := "kind" |}.

Definition controller : Controller :=
  {| cluster := emptyCluster;
     remote := server (fun _ => Response 200) (fun _ => 0);
     apiClient := client;
     cfg := config |}.

(** The same controller in a cluster where the Deployment [web] still
    exists. *)
Definition liveCluster : Cluster.Env :=
  {| deref := fun _ => webPod;
     MetaNamespaceKeyFunc := podKey;
     getByKey := fun _ _ => GetByKeyFound (ObjPod 1%N);
     getDeployment := fun _ _ _ => DeploymentFound |}.

Definition liveController : Controller :=
  {| cluster := liveCluster;
     remote := server (fun _ => Response 200) (fun _ => 0);
     apiClient := client;
     cfg := config |}.

(** The same controller in a cluster whose API server fails every lookup
    of a Deployment with an error other than not-found. *)
Definition unreachableController : Controller :=
  {| cluster :=
       {| deref := fun _ => webPod;
          MetaNamespaceKeyFunc := podKey;
          getByKey := fun _ _ => GetByKeyMissing;
          getDeployment := fun _ _ _ => DeploymentGetErr "i/o timeout" |};
     remote := server (fun _ => Response 200) (fun _ => 0);
     apiClient := client;
     cfg := config |}.

(** The same controller against a service that answers 404, and one that
    answers 500, to everything. *)
Definition rejectedController : Controller :=
  {| cluster := liveCluster;
     remote := server (fun _ => Response 404) (fun _ => 0);
     apiClient := client;
     cfg := config |}.

Definition failingController : Controller :=
  {| cluster := liveCluster;
     remote := alwaysFailing;
     apiClient := client;
     cfg := config |}.

(** A pod with two containers, and a service that accepts the first
    request and answers 500 to every later one. *)
Definition twoContainerPod : Pod.t :=
  {| Pod.Namespace := "prod";
     Pod.Name := "web-7f9c9b6d8-x2x4z";
     Pod.OwnerReferences :=
       [ {| OwnerReference.Kind := "ReplicaSet";
            OwnerReference.Name := "web-7f9c9b6d8" |} ];
     Pod.DeletionTimestamp := None;
     Pod.Containers :=
       [ {| Container.Name := "app"; Container.Image := "nginx:1.21" |};
         {| Container.Name := "sidecar"; Container.Image := "envoy:v1" |} ];
     Pod.InitContainers := [];
     Pod.Phase := "Running";
     Pod.ContainerStatuses :=
       [ {| ContainerStatus.Name := "app";
            ContainerStatus.ImageID :=
              "docker-pullable://nginx@sha256:aaaa" |};
         {| ContainerStatus.Name := "sidecar";
            ContainerStatus.ImageID :=
              "docker-pullable://envoy@sha256:bbbb" |} ];
     Pod.InitContainerStatuses := [] |}.

Definition mixedController : Controller :=
  {| cluster :=
       {| deref := fun _ => twoContainerPod;
          MetaNamespaceKeyFunc := podKey;
          getByKey := fun _ _ => GetByKeyFound (ObjPod 1%N);
          getDeployment := fun _ _ _ => DeploymentFound |};
     remote := server (fun n => if (n =? 0)%nat then Response 200
                                else Response 500)
                      (fun _ => 0);
     apiClient := client;
     cfg := config |}.

Definition appContainer : Container.t :=
  {| Container.Name := "app"; Container.Image := "nginx:1.21" |}.

(** [recordContainer] on the container [app] of [webPod], for a created
    and for a deleted pod. *)
Definition deployedCall : History.Call :=
  {| History.callPod := webPod;
     History.callContainer := appContainer;
     History.callStatus := StatusDeployed;
     History.callEventType := EventCreated |}.

Definition decommissionedCall : History.Call :=
  {| History.callPod := webPod;
     History.callContainer := appContainer;
     History.callStatus := StatusDecommissioned;
     History.callEventType := EventDeleted |}.

Definition createdEvent : PodEvent :=
  {| Key := "prod/web-7f9c9b6d8-x2x4z";
     EventType := EventCreated;
     DeletedPod := None |}.

End Scenario.

(** ** The worker loop and the informer factory *)

Module Worker.
Import Go DeploymentRecord Cluster Controller.




End Worker.

Module Informers.

(** What [createInformerFactory] asks of the shared informer factory (the
    resync period is 30 seconds in all three cases). *)
Inductive Factory : Type :=
| WithNamespace (namespace : string)
| WithTweakListOptions (FieldSelector : string)
| Unrestricted.

(** [strings.Split(s, sep)] for a separator of one byte. *)
Fixpoint Split (s : string) (sep : ascii) : list string :=
  match s with
  | EmptyString => [EmptyString]
  | String c rest =>
      if Ascii.eqb c sep then EmptyString :: Split rest sep
      else match Split rest sep with
           | piece :: pieces => String c piece :: pieces
           | [] => [String c EmptyString]
           end
  end.

(** [strings.Join(elems, sep)] *)
Fixpoint Join (elems : list string) (sep : string) : string :=
  match elems with
  | [] => EmptyString
  | [e] => e
  | e :: rest => e +:+ sep +:+ Join rest sep
  end.

(** The loop of [createInformerFactory] over the pieces of
    [excludeNamespaces]; [TrimSpace] is [strings.TrimSpace]. *)
Fixpoint excludeLoop (TrimSpace : string -> string) (pieces : list string)
    (seenNamespaces : gmap string bool) (fieldSelectorParts : list string)
  : list string :=
  match pieces with
  | [] => fieldSelectorParts
  | ns :: rest =>
      let ns := TrimSpace ns in
      if negb (String.eqb ns "")
         && negb (default false (seenNamespaces !! ns))
      then excludeLoop TrimSpace rest (<[ns := true]> seenNamespaces)
             (fieldSelectorParts ++ ["metadata.namespace!=" +:+ ns])
      else excludeLoop TrimSpace rest seenNamespaces fieldSelectorParts
  end.

Definition fieldSelectorParts (TrimSpace : string -> string)
    (excludeNamespaces : string) : list string :=
  excludeLoop TrimSpace (Split excludeNamespaces ","%char) ∅ [].

(** [createInformerFactory] creates a shared informer factory: if
    [namespace] is non-empty it only watches that namespace; otherwise, if
    [excludeNamespaces] is non-empty, it excludes those namespaces. *)
Definition createInformerFactory (TrimSpace : string -> string)
    (namespace excludeNamespaces : string) : Factory :=
  if negb (String.eqb namespace "") then WithNamespace namespace
  else if negb (String.eqb excludeNamespaces "") then
    WithTweakListOptions
      (Join (fieldSelectorParts TrimSpace excludeNamespaces) ",")
  else Unrestricted.

End Informers.

Module Startup.
Import GoStrings Go DeploymentRecord Controller.

(** [ValidTemplate] verifies that at least one placeholder is present in
    the provided template [t]. *)
Definition ValidTemplate (t : string) : bool :=
  let hasPlaceholder :=
    Contains t TmplNS || Contains t TmplDN || Contains t TmplCN in
  hasPlaceholder.

(** [defaultTemplate] of package [main]. *)
Definition defaultTemplate : string :=
  TmplNS +:+ "/" +:+ TmplDN +:+ "/" +:+ TmplCN.

(** The client options [New] builds from the configuration values
    [cfg.APIToken], [cfg.GHAppID], [cfg.GHInstallID] and
    [cfg.GHAppPrivateKey]; [loaded] is what [WithGHApp] makes of the three
    values (see [WithGHApp]). *)
Definition clientOpts (APIToken GHAppID GHInstallID GHAppPrivateKey : string)
    (loaded : option Transport) : list ClientOption :=
  (if negb (String.eqb APIToken "") then [WithAPIToken APIToken] else [])
  ++ (if negb (String.eqb GHAppID "") && negb (String.eqb GHInstallID "")
         && negb (String.eqb GHAppPrivateKey "")
      then [WithGHApp loaded] else []).

(** The API client of [New], or its error "failed to create API client". *)
Definition newAPIClient (BaseURL Organization APIToken GHAppID GHInstallID
                         GHAppPrivateKey : string)
    (loaded : option Transport) : result Client :=
  match NewClient BaseURL Organization
          (clientOpts APIToken GHAppID GHInstallID GHAppPrivateKey loaded) with
  | Err e => Err (wrapError "failed to create API client" e)
  | r => r
  end.

End Startup.

(** ** Vocabulary of the further properties *)

Module Facts.
Import GoStrings Go DeploymentRecord Transport Cluster Controller.

(** [c] occurs in [s]. *)
Fixpoint hasChar (c : ascii) (s : string) : bool :=
  match s with
  | EmptyString => false
  | String a rest => Ascii.eqb a c || hasChar c rest
  end.

(** The part of an image reference before its first [@]. *)
Definition beforeDigest (image : string) : string :=
  Spec.takeUntil (fun c => Ascii.eqb c "@"%char) image.

(** The work items [events] processed one after the other. *)
Fixpoint handle (c : Controller) (events : list PodEvent) (w : World)
  : World :=
  match events with
  | [] => w
  | event :: rest => handle c rest (snd (processEvent c event w))
  end.

(** No owner reference of the pod is a ReplicaSet. *)
Definition noReplicaSet (pod : Pod.t) : bool :=
  forallb (fun o => negb (String.eqb (OwnerReference.Kind o) "ReplicaSet"))
          (Pod.OwnerReferences pod).

(** No container status of the pod, init containers included, is named
    [name]. *)
Definition noStatus (pod : Pod.t) (name : string) : bool :=
  forallb (fun s => negb (String.eqb (ContainerStatus.Name s) name))
          (Pod.ContainerStatuses pod ++ Pod.InitContainerStatuses pod).

(** The options of package [deploymentrecord] that configure a client
    without replacing its base URL or organization. *)
Inductive builtin : ClientOption -> Prop :=
| builtin_timeout seconds : builtin (WithTimeout seconds)
| builtin_retries n : builtin (WithRetries n)
| builtin_token token : builtin (WithAPIToken token)
| builtin_app loaded : builtin (WithGHApp loaded).



(** A pod that no ReplicaSet owns (a pod of a Job), at every address of a
    cluster. *)
Definition jobPod : Pod.t :=
  {| Pod.Namespace := "prod";
     Pod.Name := "migrate-x2x4z";
     Pod.OwnerReferences :=
       [ {| OwnerReference.Kind := "Job";
            OwnerReference.Name := "migrate" |} ];
     Pod.DeletionTimestamp := None;
     Pod.Containers :=
       [ {| Container.Name := "app"; Container.Image := "nginx:1.21" |} ];
     Pod.InitContainers := [];
     Pod.Phase := "Running";
     Pod.ContainerStatuses :=
       [ {| ContainerStatus.Name := "app";
            ContainerStatus.ImageID :=
              "docker-pullable://nginx@sha256:aaaa" |} ];
     Pod.InitContainerStatuses := [] |}.

Definition jobCluster : Cluster.Env :=
  {| deref := fun _ => jobPod;
     MetaNamespaceKeyFunc := fun _ => Some "prod/migrate-x2x4z";
     getByKey := fun _ _ => GetByKeyFound (ObjPod 1%N);
     getDeployment := fun _ _ _ => DeploymentNotFound |}.

(** A pod whose container has not been started: it has no container
    status yet. *)
Definition pendingPod : Pod.t :=
  {| Pod.Namespace := "prod";
     Pod.Name := "web-7f9c9b6d8-x2x4z";
     Pod.OwnerReferences :=
       [ {| OwnerReference.Kind := "ReplicaSet";
            OwnerReference.Name := "web-7f9c9b6d8" |} ];
     Pod.DeletionTimestamp := None;
     Pod.Containers :=
       [ {| Container.Name := "app"; Container.Image := "nginx:1.21" |} ];
     Pod.InitContainers := [];
     Pod.Phase := "Pending";
     Pod.ContainerStatuses := [];
     Pod.InitContainerStatuses := [] |}.

(** [r] is the record of [container] of [pod] with status [status], as
    the controller [c] reports it. *)
Definition recordOf (c : Controller) (pod : Pod.t) (status : string)
    (container : Container.t) (r : DeploymentRecord) : Prop :=
  (Name r, Version r) = Image.ExtractName (Container.Image container)
  /\ Digest r = getContainerDigest pod (Container.Name container)
  /\ DeploymentName r
     = getARDeploymentName pod container (Template (cfg c))
  /\ Digest r <> "" /\ DeploymentName r <> ""
  /\ Status r = status
  /\ DeploymentRecord.LogicalEnvironment r = LogicalEnvironment (cfg c)
  /\ DeploymentRecord.PhysicalEnvironment r = PhysicalEnvironment (cfg c)
  /\ DeploymentRecord.Cluster r = Cluster (cfg c).

(** The [Authorization] header of [req] is the one the client's
    credentials call for: a token the GitHub App transport handed out,
    else the API token, else none. *)
Definition credential (c : Client) (log : list Transport.Event)
    (req : Request) : Prop :=
  match transport c with
  | Some _ =>
      exists tok, authorization req = Some ("Bearer " +:+ tok)
                  /\ In (EvToken (inr tok)) log
  | None =>
      authorization req
      = if String.eqb (apiToken c) "" then None
        else Some ("Bearer " +:+ apiToken c)
  end.

(** How a call of [PostOne] ends, by the requests [sent] in it and the
    error [err] it returns: nothing was sent and the error is not a client
    error, or every answer but the last called for a retry and the last
    one decides. *)
Definition ending (sent : list (Request * HttpResult)) (err : option error)
  : Prop :=
  (sent = [] /\ exists e, err = Some e /\ AsClientError e = false)
  \/ exists earlier req resp,
       sent = earlier ++ [(req, resp)]
       /\ Forall (fun p => RetrySpec.classOf (snd p) = RetrySpec.SoftFail)
                 earlier
       /\ match RetrySpec.classOf resp with
          | RetrySpec.Success => err = None
          | RetrySpec.Permanent =>
              exists code, resp = Response code
                           /\ err = Some (ClientError (statusError code))
          | RetrySpec.SoftFail =>
              exists e, err = Some e /\ AsClientError e = false
          end.

(** [fmt.Sprintf("metadata.namespace!=%s", ns)] *)
Definition part (ns : string) : string := "metadata.namespace!=" +:+ ns.



End Facts.

(** * Theorems *)

Import GoStrings Go DeploymentRecord Transport Cluster Controller.

(** ** The record constructor *)

(** C10: [NewDeploymentRecord] is total; the status of the record it builds
    is the given one when that is "deployed" or "decommissioned" and
    "deployed" for every other argument, so it is always one of the two
    constants; every other field is the corresponding argument. *)
Theorem NewDeploymentRecord_defaults_status
    (name digest version logicalEnv physicalEnv cluster status dn : string) :
  let r := NewDeploymentRecord name digest version logicalEnv physicalEnv
                               cluster status dn in
  Status r = (if String.eqb status StatusDeployed
                 || String.eqb status StatusDecommissioned
              then status else StatusDeployed)
  /\ (Status r = StatusDeployed \/ Status r = StatusDecommissioned)
  /\ Name r = name /\ Digest r = digest /\ Version r = version
  /\ DeploymentRecord.LogicalEnvironment r = logicalEnv
  /\ DeploymentRecord.PhysicalEnvironment r = physicalEnv
  /\ DeploymentRecord.Cluster r = cluster
  /\ DeploymentName r = dn.
Proof.
  unfold NewDeploymentRecord; cbn.
  destruct (String.eqb_spec status StatusDeployed) as [Hd | Hd];
    destruct (String.eqb_spec status StatusDecommissioned) as [Hc | Hc];
    cbn; subst; repeat split; auto.
Qed.

Example NewDeploymentRecord_unknown_status :
  Status (NewDeploymentRecord "nginx" "sha256:aaaa" "1.21" "staging" "eu-1"
                              "kind" "paused" "prod/web/app")
  = "deployed".
Proof. reflexivity. Qed.

(** ** Identity of work items *)

Lemma ptr_eqb_eq (p q : option ptr) : ptr_eqb p q = true <-> p = q.
Proof.
  destruct p as [a|], q as [b|]; cbn; try (split; congruence).
  rewrite N.eqb_eq. split; congruence.
Qed.

(** C8 (as amended): two work items are the same item to the work queue
    exactly when they agree on [Key], [EventType] and the captured pod
    pointer [DeletedPod]; for items without a captured pod, as the Created
    ones are built, agreeing on [Key] and [EventType] is enough. *)
Theorem PodEvent_eqb_all_fields (a b : PodEvent) (k t k' t' : string) :
  (PodEvent_eqb a b = true <->
   Key a = Key b /\ EventType a = EventType b /\ DeletedPod a = DeletedPod b)
  /\ (PodEvent_eqb {| Key := k; EventType := t; DeletedPod := None |}
                   {| Key := k'; EventType := t'; DeletedPod := None |} = true
      <-> k = k' /\ t = t').
Proof.
  unfold PodEvent_eqb; split.
  - rewrite !andb_true_iff, !String.eqb_eq, ptr_eqb_eq. tauto.
  - cbn. rewrite andb_true_r, andb_true_iff, !String.eqb_eq. tauto.
Qed.

(** The Created items of [AddFunc] and [UpdateFunc] capture no pod. *)
Lemma AddFunc_no_captured_pod env o ev :
  AddFunc env o = Some ev -> DeletedPod ev = None /\ EventType ev = EventCreated.
Proof.
  unfold AddFunc. destruct o; try discriminate.
  destruct (_ && _); try discriminate.
  destruct (MetaNamespaceKeyFunc _ _); try discriminate.
  intros [= <-]. auto.
Qed.

Lemma UpdateFunc_no_captured_pod env o o' ev :
  UpdateFunc env o o' = Some ev ->
  DeletedPod ev = None /\ EventType ev = EventCreated.
Proof.
  unfold UpdateFunc. destruct o; try discriminate. destruct o'; try discriminate.
  destruct (_ || _); try discriminate.
  destruct (_ && _); try discriminate.
  destruct (MetaNamespaceKeyFunc _ _); try discriminate.
  intros [= <-]. auto.
Qed.

(** The Deleted items of [DeleteFunc] always capture one. *)
Lemma DeleteFunc_captures_pod env o ev :
  DeleteFunc env o = Some ev ->
  EventType ev = EventDeleted /\ exists p, DeletedPod ev = Some p.
Proof.
  unfold DeleteFunc.
  set (pod := match o with ObjPod p => Some p
                         | ObjTombstone _ (ObjPod p) => Some p
                         | _ => None end).
  destruct pod as [p|]; try discriminate.
  destruct (String.eqb _ _); try discriminate.
  destruct (MetaNamespaceKeyFunc _ _); try discriminate.
  intros [= <-]. cbn. eauto.
Qed.

(** C8, counterexample: the delete notifications for two pod objects with
    the same namespace and name give two work items that agree on
    identifier and kind and are different items to the queue; so equality
    of [PodEvent] is not determined by [Key] and [EventType]. *)
Lemma Deleted_items_same_key_kind_distinct :
  DeleteFunc Scenario.emptyCluster (ObjPod 1%N) = Some (Scenario.deletedAt 1%N)
  /\ DeleteFunc Scenario.emptyCluster (ObjPod 2%N) = Some (Scenario.deletedAt 2%N)
  /\ Key (Scenario.deletedAt 1%N) = Key (Scenario.deletedAt 2%N)
  /\ EventType (Scenario.deletedAt 1%N) = EventType (Scenario.deletedAt 2%N)
  /\ PodEvent_eqb (Scenario.deletedAt 1%N) (Scenario.deletedAt 2%N) = false
  /\ ~ (forall a b : PodEvent,
          PodEvent_eqb a b = true <->
          Key a = Key b /\ EventType a = EventType b).
Proof.
  repeat split; try reflexivity.
  intros H.
  specialize (H (Scenario.deletedAt 1%N) (Scenario.deletedAt 2%N)).
  destruct H as [_ H]. discriminate H. split; reflexivity.
Qed.

(** ** Construction of the client *)

(** What [NewClient] does refuse: a base URL that starts with [http://]
    and passes none of the three textual tests of [isLocal], or an
    organization that does not match the pattern. *)
Lemma NewClient_error_iff (url organization : string) (opts : list ClientOption) :
  (exists e, NewClient url organization opts = Err e) <->
  (HasPrefix url "http://" = true /\ isLocal url = false)
  \/ validOrgPattern_MatchString organization = false.
Proof.
  unfold NewClient.
  destruct (HasPrefix url "http://") eqn:Hh; destruct (isLocal url) eqn:Hl; cbn;
    destruct (validOrgPattern_MatchString organization) eqn:Ho; cbn;
    try (split; [intros _; auto | intros _; eexists; reflexivity]);
    (split; [intros [e He] | intros [[? ?] | ?]; discriminate]);
    destruct (applyOptions _ _); discriminate.
Qed.

(** An HTTPS or scheme-less base URL with a matching organization gives a
    client (the three non-panicking options included). *)
Lemma NewClient_secure_ok (url organization : string) :
  HasPrefix url "http://" = false ->
  validOrgPattern_MatchString organization = true ->
  NewClient url organization [] =
  Ok {| baseURL := if HasPrefix url "https://" then url else "https://" +:+ url;
        org := organization;
        httpTimeout := 5 * Second;
        retries := 3;
        apiToken := "";
        transport := None;
        rateLimiter := {| limit := 20; burst := 50 |} |}.
Proof.
  intros Hh Ho. unfold NewClient. rewrite Hh, Ho. cbn.
  destruct (HasPrefix url "https://"); reflexivity.
Qed.

Lemma NewClient_secure_witness :
  NewClient "api.github.com" "my-org" [] =
  Ok {| baseURL := if HasPrefix "api.github.com" "https://"
                   then "api.github.com" else "https://" +:+ "api.github.com";
        org := "my-org";
        httpTimeout := 5 * Second;
        retries := 3;
        apiToken := "";
        transport := None;
        rateLimiter := {| limit := 20; burst := 50 |} |}.
Proof.
  apply (NewClient_secure_ok "api.github.com" "my-org"); reflexivity.
Defined.

(** The table of [TestNewClient]. *)
Example NewClient_tests :
  map (fun '(u, o) => match NewClient u o [] with
                      | Ok c => Some (baseURL c)
                      | _ => None
                      end)
      [ ("https://api.github.com", "my-org");
        ("api.github.com", "my-org");
        ("http://api.github.com", "my-org");
        ("http://localhost:8080", "my-org");
        ("http://127.0.0.1:9090", "my-org");
        ("http://my-service.my-namespace.svc.cluster.local:8080", "my-org");
        ("https://api.github.com", "my org");
        ("https://api.github.com", "my-org/../other");
        ("https://api.github.com", "");
        ("http://192.168.1.1:8080", "my-org") ]
  = [ Some "https://api.github.com"; Some "https://api.github.com"; None;
      Some "http://localhost:8080"; Some "http://127.0.0.1:9090";
      Some "http://my-service.my-namespace.svc.cluster.local:8080";
      None; None; None; None ].
Proof. reflexivity. Qed.

(** C9, the failing input: [http://localhost.evil.example] uses plain HTTP
    and targets the host [localhost.evil.example], which is none of the
    recognized local hosts, so the base URL is to be refused; [NewClient]
    returns a client for it, because the URL text starts with
    [http://localhost].  The same happens when [.svc.cluster.local] stands
    in the path of a URL to any host. *)
Theorem NewClient_accepts_http_to_foreign_host :
  Spec.hostOf "http://localhost.evil.example" = "localhost.evil.example"
  /\ Spec.insecureBaseURL "http://localhost.evil.example" = true
  /\ validOrgPattern_MatchString "my-org" = true
  /\ NewClient "http://localhost.evil.example" "my-org" [] =
     Ok {| baseURL := "http://localhost.evil.example";
           org := "my-org";
           httpTimeout := 5 * Second;
           retries := 3;
           apiToken := "";
           transport := None;
           rateLimiter := {| limit := 20; burst := 50 |} |}
  /\ Spec.hostOf "http://evil.example/.svc.cluster.local" = "evil.example"
  /\ Spec.insecureBaseURL "http://evil.example/.svc.cluster.local" = true
  /\ (exists c, NewClient "http://evil.example/.svc.cluster.local" "my-org" []
                = Ok c).
Proof. repeat split; try reflexivity. eexists; reflexivity. Qed.

(** On the URLs of the test table the code and the contract agree. *)
Example insecureBaseURL_tests :
  map (fun u => (Spec.insecureBaseURL u,
                 HasPrefix u "http://" && negb (isLocal u)))
      [ "https://api.github.com"; "api.github.com"; "http://api.github.com";
        "http://localhost:8080"; "http://localhost"; "http://127.0.0.1:9090";
        "http://my-service.my-namespace.svc.cluster.local:8080";
        "http://192.168.1.1:8080"; "http://example.com" ]
  = [ (false, false); (false, false); (true, true); (false, false);
      (false, false); (false, false); (false, false); (true, true);
      (true, true) ].
Proof. reflexivity. Qed.

(** ** Digest extraction *)

(** The table of [TestExtractDigest] and [TestExtractName]. *)
Example ExtractDigest_tests :
  map Image.ExtractDigest
    [ ""; "docker-pullable://nginx@sha256:abc123def456";
      "docker://sha256:abc123def456789"; "sha256:0123456789abcdef";
      "some-random-id-without-sha"; "docker://sha256:abc123 extra";
      "sha256:abc123@extra" ]
  = [ ""; "sha256:abc123def456"; "sha256:abc123def456789";
      "sha256:0123456789abcdef"; "some-random-id-without-sha";
      "sha256:abc123"; "sha256:abc123" ].
Proof. reflexivity. Qed.

Example ExtractName_tests :
  map Image.ExtractName
    [ "nginx:1.21"; "nginx@sha256:abc123def456";
      "nginx:1.21@sha256:abc123def456"; "localhost:5000/myapp:v1.0";
      "localhost:5000/myapp"; "nginx"; "" ]
  = [ ("nginx", "1.21"); ("nginx", ""); ("nginx", "1.21");
      ("localhost:5000/myapp", "v1.0"); ("localhost:5000/myapp", "");
      ("nginx", ""); ("", "") ].
Proof. reflexivity. Qed.

Section StringFacts.

Lemma prefix_substring (p s : string) :
  String.prefix p s = String.eqb (String.substring 0 (String.length p) s) p.
Proof.
  revert s; induction p as [|a p IH]; intros s.
  - destruct s; reflexivity.
  - destruct s as [|b s]; [reflexivity|].
    cbn. rewrite IH.
    destruct (ascii_dec a b) as [->|Hne].
    + now rewrite Ascii.eqb_refl.
    + destruct (Ascii.eqb_spec b a); congruence.
Qed.



Lemma indexFrom_firstOccurrence (p s : string) (k : Z) :
  indexFrom s p k =
  match Spec.firstOccurrence p s with
  | Some i => k + Z.of_nat i
  | None => -1
  end.
Proof.
  revert k; induction s as [|c s IH]; intros k;
    cbn [indexFrom Spec.firstOccurrence]; unfold HasPrefix.
  - destruct (String.prefix p ""); lia.
  - destruct (String.prefix p (String c s)); [lia|].
    rewrite IH. destruct (Spec.firstOccurrence p s); cbn; lia.
Qed.

Lemma find_map {A B} (f : B -> bool) (g : A -> B) (l : list A) :
  find f (map g l) = option_map g (find (fun x => f (g x)) l).
Proof.
  induction l as [|x l IH]; cbn; [reflexivity|].
  destruct (f (g x)); [reflexivity|exact IH].
Qed.

Lemma find_ext {A} (f g : A -> bool) (l : list A) :
  (forall x, f x = g x) -> find f l = find g l.
Proof.
  intros H; induction l as [|x l IH]; cbn; [reflexivity|].
  rewrite H, IH. reflexivity.
Qed.

Lemma substring_empty (i n : nat) : String.substring i n "" = "".
Proof. destruct i, n; reflexivity. Qed.

Lemma find_none {A} (f : A -> bool) (l : list A) :
  (forall x, f x = false) -> find f l = None.
Proof.
  intros H; induction l as [|x l IH]; cbn; [reflexivity|]. now rewrite H.
Qed.

(** The bounded scan [for i := 0; i < n; i++] for an occurrence of [p]
    finds the first occurrence when it lies below [n]. *)
Lemma find_occurrence (p s : string) (n : nat) :
  p <> "" ->
  find (fun i => String.eqb (String.substring i (String.length p) s) p)
       (seq 0 n)
  = match Spec.firstOccurrence p s with
    | Some i => if (i <? n)%nat then Some i else None
    | None => None
    end.
Proof.
  intros Hp. revert n; induction s as [|c s IH]; intros n.
  - replace (Spec.firstOccurrence p "") with (@None nat)
      by (destruct p; [congruence|reflexivity]).
    apply find_none. intros x. rewrite substring_empty.
    destruct p; [congruence|reflexivity].
  - cbn [Spec.firstOccurrence].
    destruct n as [|n]; cbn [seq find].
    + destruct (String.prefix p (String c s)); [reflexivity|].
      destruct (Spec.firstOccurrence p s); reflexivity.
    + rewrite <- prefix_substring.
      destruct (String.prefix p (String c s)); [reflexivity|].
      rewrite <- seq_shift, find_map.
      rewrite (find_ext _ (fun i => String.eqb
                 (String.substring i (String.length p) s) p))
        by reflexivity.
      rewrite IH. destruct (Spec.firstOccurrence p s) as [i|]; cbn; [|reflexivity].
      match goal with |- context [if ?b then _ else _] => destruct b end;
        reflexivity.
Qed.

Lemma firstSeparator_ge (r : string) (j e : Z) :
  Image.firstSeparator r j = Some e -> j <= e.
Proof.
  revert j; induction r as [|c r IH]; intros j; cbn; [easy|].
  destruct (Image.isSeparator c); [intros [= <-]; lia|].
  intros H. apply IH in H. lia.
Qed.

(** Cutting [remaining] at the index the inner loop finds keeps what comes
    before the first separator. *)
Lemma firstSeparator_cut (r : string) (j : Z) :
  String.substring 0
    (Z.to_nat (match Image.firstSeparator r j with
               | Some e => e
               | None => j + len r
               end - j)) r
  = Spec.untilSeparator r.
Proof.
  revert j; induction r as [|c r IH]; intros j.
  - cbn [Image.firstSeparator Spec.untilSeparator]. apply substring_empty.
  - cbn [Image.firstSeparator Spec.untilSeparator].
    destruct (Image.isSeparator c).
    + replace (j - j) with 0 by lia. reflexivity.
    + specialize (IH (j + 1)).
      assert (Hlen : len (String c r) = 1 + len r)
        by (unfold len; cbn [String.length]; lia).
      destruct (Image.firstSeparator r (j + 1)) as [e|] eqn:He.
      * apply firstSeparator_ge in He.
        replace (Z.to_nat (e - j)) with (S (Z.to_nat (e - (j + 1)))) by lia.
        cbn [String.substring]. now rewrite IH.
      * rewrite Hlen.
        replace (Z.to_nat (j + (1 + len r) - j))
          with (S (Z.to_nat (j + 1 + len r - (j + 1)))) by (unfold len; lia).
        cbn [String.substring]. now rewrite IH.
Qed.

End StringFacts.

(** [ExtractDigest] in terms of the first occurrence of [sha256:]: the
    loop only sees an occurrence that starts before [len(imageID)-7]. *)
Lemma ExtractDigest_first_occurrence (s : string) :
  Image.ExtractDigest s =
  match Spec.firstOccurrence "sha256:" s with
  | Some i =>
      if Z.of_nat i <? len s - 7
      then Spec.untilSeparator (sliceFrom s (Z.of_nat i))
      else s
  | None => s
  end.
Proof.
  unfold Image.ExtractDigest.
  destruct (String.eqb_spec s "") as [->|Hs]; [reflexivity|].
  rewrite find_map.
  rewrite (find_ext _ (fun i => String.eqb
             (String.substring i (String.length "sha256:") s) "sha256:")).
  2:{ intros i. unfold slice. rewrite Nat2Z.id.
      now replace (Z.of_nat i + 7 - Z.of_nat i) with 7 by lia. }
  rewrite find_occurrence by easy.
  destruct (Spec.firstOccurrence "sha256:" s) as [i|]; [|reflexivity].
  destruct (Nat.ltb_spec i (Z.to_nat (len s - 7))) as [Hlt|Hge];
    destruct (Z.ltb_spec (Z.of_nat i) (len s - 7)) as [Hlt'|Hge'];
    try lia; [|reflexivity].
  cbn [option_map].
  set (r := sliceFrom s (Z.of_nat i)).
  rewrite <- (firstSeparator_cut r 0).
  unfold sliceTo, slice.
  destruct (Image.firstSeparator r 0); reflexivity.
Qed.

Lemma Index_first_occurrence (p s : string) :
  Index s p = match Spec.firstOccurrence p s with
              | Some i => Z.of_nat i
              | None => -1
              end.
Proof.
  unfold Index. rewrite indexFrom_firstOccurrence.
  destruct (Spec.firstOccurrence p s); lia.
Qed.



(** Where it does not: a string that ends with its first [sha256:] comes
    back unchanged. *)
Lemma ExtractDigest_trailing_occurrence (s : string) :
  Index s "sha256:" = len s - 7 ->
  Image.ExtractDigest s = s.
Proof.
  rewrite ExtractDigest_first_occurrence, Index_first_occurrence.
  destruct (Spec.firstOccurrence "sha256:" s) as [i|]; [|reflexivity].
  intros ->. now rewrite Z.ltb_irrefl.
Qed.

(** C7, the failing input: the first occurrence of [sha256:] in
    [docker://sha256:] is followed by the end of the string, so the
    contract asks for [sha256:]; the loop bound [i < len(imageID)-7] stops
    one position short and the input comes back unchanged.  With a
    separator behind it the same occurrence is found. *)
Theorem ExtractDigest_misses_trailing_sha256 :
  Index "docker://sha256:" "sha256:" = 9
  /\ Spec.extractDigest "docker://sha256:" = "sha256:"
  /\ Image.ExtractDigest "docker://sha256:" = "docker://sha256:"
  /\ Image.ExtractDigest "docker://sha256:@" = "sha256:"
  /\ Image.ExtractDigest "docker://sha256: " = "sha256:"
  /\ Image.ExtractDigest "" = "".
Proof. repeat split; reflexivity. Qed.

(** ** The delivery client *)

Import Delivery Trace RetrySpec History.

Lemma classify_classOf (resp : HttpResult) :
  match classOf resp with
  | Success => classify resp = Return None /\ succeeded resp = true
  | Permanent =>
      succeeded resp = false /\
      exists code, resp = Response code
                   /\ classify resp = Return (Some (ClientError (statusError code)))
  | SoftFail => classify resp = Continue (observed resp) /\ succeeded resp = false
  end.
Proof.
  destruct resp as [e|code]; cbn; [auto|].
  destruct (Z.leb_spec 200 code), (Z.leb_spec code 299), (Z.geb_spec code 200),
    (Z.ltb_spec code 300); try lia; cbn; auto;
  destruct (Z.leb_spec 400 code), (Z.leb_spec code 499), (Z.geb_spec code 400),
    (Z.ltb_spec code 500); try lia; cbn; auto;
  destruct (Z.eqb_spec code 429); cbn; eauto.
Qed.
Section Loop.
Variables (env : Transport.Env) (c : Client) (record : DeploymentRecord).

Lemma backoff_log attempt log err log' :
  backoff env attempt log = (err, log') ->
  posts log' = posts log /\ delivered log' = delivered log.
Proof.
  unfold backoff. destruct (attempt >? 0); intros [= <- <-]; auto.
Qed.

Lemma authorize_log log a log' :
  authorize env c log = (a, log') ->
  posts log' = posts log /\ delivered log' = delivered log.
Proof.
  unfold authorize. destruct (transport c); intros [= <- <-]; auto.
Qed.
Lemma attemptLoop_delivered url n : forall attempt lastErr log err log',
  attemptLoop env c record url n attempt lastErr log = (err, log') ->
  delivered log' =
  match err with None => [record] | Some _ => [] end ++ delivered log.
Proof.
  induction n as [|n IH]; intros attempt lastErr log err log'; cbn [attemptLoop].
  - intros [= <- <-]. reflexivity.
  - destruct (backoff env attempt log) as [[e|] log1] eqn:Hb;
      apply backoff_log in Hb as [_ Hb]; [intros [= <- <-]; auto|].
    destruct (newRequestErr env url); [intros [= <- <-]; auto|].
    destruct (authorize env c log1) as [[e|auth] log2] eqn:Ha;
      apply authorize_log in Ha as [_ Ha]; [intros [= <- <-]; cbn; congruence|].
    set (req := {| Transport.url := url; authorization := auth; body := record |}).
    pose proof (classify_classOf (httpDo env log2 req)) as Hc.
    destruct (classOf (httpDo env log2 req)).
    + destruct Hc as [-> Hs]. intros [= <- <-]. cbn. rewrite Hs. cbn. congruence.
    + destruct Hc as [Hs (code & Hr & ->)]. intros [= <- <-]. cbn. rewrite Hs.
      cbn. congruence.
    + destruct Hc as [-> Hs]. intros H. apply IH in H. rewrite H. cbn.
      rewrite Hs. congruence.
Qed.

(** Whatever the collaborators do, a call of [PostOne] adds its record to
    the successful deliveries when it returns nil, and nothing otherwise. *)
Lemma PostOne_delivered log err log' :
  PostOne env c (Some record) log = (err, log') ->
  delivered log' =
  match err with None => [record] | Some _ => [] end ++ delivered log.
Proof.
  unfold PostOne. destruct (limiterWait env log); [intros [= <- <-]; auto|].
  intros H. apply attemptLoop_delivered in H. exact H.
Qed.

Hypothesis Hsteady : steady env c.
Lemma backoff_steady attempt log :
  exists log', backoff env attempt log = (None, log') /\ posts log' = posts log.
Proof.
  destruct Hsteady as (_ & Hctx & _).
  unfold backoff. destruct (attempt >? 0); [|eauto].
  rewrite Hctx. eauto.
Qed.

Lemma authorize_steady log :
  exists auth log', authorize env c log = (inr auth, log')
                    /\ posts log' = posts log.
Proof.
  destruct Hsteady as (_ & _ & _ & Htok).
  unfold authorize. destruct (Htok log) as [Hnone | [tok Htok']].
  - rewrite Hnone. eauto.
  - destruct (transport c); [|eauto]. rewrite Htok'. eauto.
Qed.

(** Against a service that accepts every request the first attempt
    succeeds: one request, carrying the record, and the result is nil. *)
Lemma PostOne_accepted log :
  retriesInRange c -> alwaysAccepts env ->
  exists req resp log',
    PostOne env c (Some record) log = (None, log')
    /\ posts log' = posts log ++ [(req, resp)]
    /\ body req = record.
Proof.
  intros Hr Hok. unfold PostOne.
  pose proof Hsteady as (Hw & _ & Hreq & _). rewrite Hw.
  assert (Hn : add64 (retries c) 1 = retries c + 1).
  { unfold add64, wrap64, retriesInRange in *. rewrite Z.mod_small; lia. }
  rewrite Hn. unfold retriesInRange in Hr.
  destruct (Z.to_nat (retries c + 1)) as [|n] eqn:En; [lia|].
  cbn [attemptLoop]. unfold backoff at 1. cbn [Z.gtb Z.compare].
  rewrite Hreq.
  destruct (authorize_steady (EvLimiterWait None :: log))
    as (auth & log2 & -> & Hp2).
  set (req := {| url := recordURL c; authorization := auth; body := record |}).
  pose proof (classify_classOf (httpDo env log2 req)) as Hc.
  specialize (Hok log2 req).
  destruct (classOf (httpDo env log2 req)).
  - destruct Hc as [-> _]. exists req, (httpDo env log2 req). eexists.
    split; [reflexivity|]. cbn. rewrite Hp2. auto.
  - destruct Hc as [Hc _]. congruence.
  - destruct Hc as [_ Hc]. congruence.
Qed.

(** The loop against collaborators that never fail locally: every
    response but the last is a soft failure, and the last one decides. *)
Lemma attemptLoop_steady n : forall attempt lastErr log err log',
  attemptLoop env c record (recordURL c) n attempt lastErr log = (err, log') ->
  (n = O /\ log' = log /\ err = Some (Errorf_w "all retries exhausted" lastErr))
  \/ exists earlier final,
       map snd (posts log') = map snd (posts log) ++ earlier ++ [final]
       /\ (length earlier < n)%nat
       /\ Forall (fun r => classOf r = SoftFail) earlier
       /\ match classOf final with
          | Success => err = None
          | Permanent =>
              exists code, final = Response code
                /\ err = Some (ClientError (statusError code))
          | SoftFail =>
              S (length earlier) = n
              /\ err = Some (wrapError "all retries exhausted" (observed final))
          end.
Proof.
  induction n as [|n IH]; intros attempt lastErr log err log'; cbn [attemptLoop].
  - intros [= <- <-]. auto.
  - destruct (backoff_steady attempt log) as (log1 & -> & Hp1).
    destruct Hsteady as (_ & _ & -> & _).
    destruct (authorize_steady log1) as (auth & log2 & -> & Hp2).
    set (req := {| url := recordURL c; authorization := auth;
                   body := record |}).
    set (resp := httpDo env log2 req).
    pose proof (classify_classOf resp) as Hc.
    assert (Hposts : map snd (posts (EvPost req resp :: log2))
                     = map snd (posts log) ++ [resp])
      by (cbn; rewrite Hp2, Hp1, map_app; reflexivity).
    intros Hrun. right.
    destruct (classOf resp) eqn:Hclass.
    + destruct Hc as [Hc _]. rewrite Hc in Hrun. injection Hrun as <- <-.
      exists [], resp. rewrite Hclass. cbn [app length]. repeat split; auto; lia.
    + destruct Hc as [_ (code & Hr & Hc)]. rewrite Hc in Hrun.
      injection Hrun as <- <-.
      exists [], resp. rewrite Hclass. cbn [app length].
      repeat split; eauto; lia.
    + destruct Hc as [Hc _]. rewrite Hc in Hrun.
      apply IH in Hrun as [(-> & -> & ->) | (earlier & final & Hl & Hn & Hall & Hfin)].
      * exists [], resp. rewrite Hclass. cbn [app length Errorf_w].
        repeat split; auto; lia.
      * exists (resp :: earlier), final. repeat split.
        -- rewrite Hl, Hposts, <- app_assoc. reflexivity.
        -- cbn [length]. lia.
        -- constructor; assumption.
        -- destruct (classOf final); auto. destruct Hfin as [<- ->]. auto.
Qed.

End Loop.


(** The classes of the responses the specification names. *)
Lemma classOf_cases (e : string) (code : Z) :
  classOf (DoError e) = SoftFail
  /\ classOf (Response 429) = SoftFail
  /\ classOf (Response 404) = Permanent
  /\ (200 <= code <= 299 -> classOf (Response code) = Success)
  /\ (400 <= code <= 499 -> code <> 429 -> classOf (Response code) = Permanent)
  /\ (500 <= code <= 599 -> classOf (Response code) = SoftFail).
Proof.
  repeat split; try reflexivity; intros; unfold classOf;
    destruct (Z.leb_spec 200 code), (Z.leb_spec code 299); try lia; cbn;
    destruct (Z.leb_spec 400 code), (Z.leb_spec code 499); try lia; cbn;
    try reflexivity.
  destruct (Z.eqb_spec code 429); [lia|reflexivity].
Qed.

Section ClientErr.
Variables (env : Transport.Env) (c : Client) (record : DeploymentRecord).

Lemma classify_client_error resp e :
  classify resp = Return (Some e) ->
  exists code, e = ClientError (statusError code).
Proof.
  destruct resp as [m|code]; cbn; [discriminate|].
  destruct (_ && _); [discriminate|].
  destruct (_ && _); [|discriminate].
  intros [= <-]. eauto.
Qed.

Lemma classify_continue resp e :
  classify resp = Continue e -> AsClientError e = false.
Proof.
  destruct resp as [m|code]; cbn; [intros [= <-]; reflexivity|].
  destruct (_ && _); [discriminate|].
  destruct (_ && _); [discriminate|].
  intros [= <-]. reflexivity.
Qed.

(** The only error of the loop with a [ClientError] on its chain is the
    [ClientError] built for a response. *)
Lemma attemptLoop_client_error url n : forall attempt lastErr log e log',
  (forall e0, lastErr = Some e0 -> AsClientError e0 = false) ->
  attemptLoop env c record url n attempt lastErr log = (Some e, log') ->
  AsClientError e = true ->
  exists code, e = ClientError (statusError code).
Proof.
  induction n as [|n IH]; intros attempt lastErr log e log' Hlast;
    cbn [attemptLoop].
  - intros [= <- <-]. destruct lastErr as [e0|]; cbn; [|discriminate].
    rewrite (Hlast e0 eq_refl). discriminate.
  - unfold backoff.
    destruct (attempt >? 0); [destruct (ctxDone env log)|];
      try (intros [= <- <-]; cbn; discriminate);
      (destruct (newRequestErr env url); [intros [= <- <-]; cbn; discriminate|]);
      unfold authorize;
      (destruct (transport c);
       [destruct (getToken env _); [intros [= <- <-]; cbn; discriminate|]|]);
      match goal with
      | |- context [classify ?r] => destruct (classify r) as [r0|e1] eqn:Hc
      end;
      try (intros [= -> <-] _; eapply classify_client_error; exact Hc);
      try (intros Hrun; eapply IH; [|exact Hrun];
           intros e0 [= <-]; eapply classify_continue; exact Hc).
Qed.

Lemma PostOne_client_error log e log' :
  PostOne env c (Some record) log = (Some e, log') ->
  AsClientError e = true ->
  exists code, e = ClientError (statusError code).
Proof.
  unfold PostOne. destruct (limiterWait env log).
  - intros [= <- <-]. cbn. discriminate.
  - apply attemptLoop_client_error. discriminate.
Qed.

End ClientErr.

(** C3: with a retry count in range and collaborators that do not fail
    locally, [PostOne] makes at most [retries + 1] HTTP attempts; every
    attempt but the last ended in a soft failure (a network error, or a
    status that is neither 2xx nor a 4xx other than 429), so such a failure
    is followed by another attempt while attempts remain; the last attempt
    decides the result: nil on a 2xx, which is therefore the first 2xx; a
    [ClientError] on a 4xx other than 429, with no attempt after it; and,
    when it is a soft failure too, all [retries + 1] attempts were made and
    the result wraps the error of that last attempt.  In particular a first
    response that is no soft failure (a 404, say) is the only call. *)
Theorem PostOne_attempts_and_outcome (env : Transport.Env) (c : Client)
    (record : DeploymentRecord) (log log' : list Event) (err : option error) :
  retriesInRange c -> steady env c ->
  PostOne env c (Some record) log = (err, log') ->
  exists earlier final,
    map snd (posts log') = map snd (posts log) ++ earlier ++ [final]
    /\ Z.of_nat (length earlier) + 1 <= retries c + 1
    /\ Forall (fun r => classOf r = SoftFail) earlier
    /\ match classOf final with
       | Success => err = None
       | Permanent =>
           exists code, final = Response code
             /\ err = Some (ClientError (statusError code))
       | SoftFail =>
           Z.of_nat (length earlier) + 1 = retries c + 1
           /\ err = Some (wrapError "all retries exhausted" (observed final))
       end
    /\ (forall first rest,
          earlier ++ [final] = first :: rest ->
          classOf first <> SoftFail -> rest = []).
Proof.
  intros Hr Hs. unfold PostOne.
  pose proof Hs as (Hw & Hrest). rewrite Hw.
  assert (Hn : add64 (retries c) 1 = retries c + 1).
  { unfold add64, wrap64, retriesInRange in *.
    rewrite Z.mod_small; lia. }
  rewrite Hn. intros Hrun.
  apply attemptLoop_steady in Hrun; [|exact (conj Hw Hrest)].
  unfold retriesInRange in Hr.
  destruct Hrun as [(H0 & _) | (earlier & final & Hl & Hlen & Hall & Hfin)]; [lia|].
  exists earlier, final. split; [exact Hl|]. split; [lia|].
  split; [exact Hall|]. split.
  - destruct (classOf final); auto. destruct Hfin as [Hk ->]. split; [lia|auto].
  - intros first rest Heq Hfirst.
    destruct earlier as [|r earlier']; cbn in Heq.
    + now injection Heq as _ <-.
    + injection Heq as -> _. now inversion Hall.
Qed.

Lemma server_steady answer jit (c : Client) :
  transport c = None -> steady (Scenario.server answer jit) c.
Proof. intros Hc. repeat split; intros; cbn; auto. Qed.

Lemma PostOne_witness :
  exists earlier final,
    map snd (posts (snd Scenario.run3))
    = map snd (posts []) ++ earlier ++ [final]
    /\ Z.of_nat (length earlier) + 1 <= retries Scenario.client + 1
    /\ Forall (fun r => classOf r = SoftFail) earlier
    /\ match classOf final with
       | Success => fst Scenario.run3 = None
       | Permanent =>
           exists code, final = Response code
             /\ fst Scenario.run3 = Some (ClientError (statusError code))
       | SoftFail =>
           Z.of_nat (length earlier) + 1 = retries Scenario.client + 1
           /\ fst Scenario.run3
              = Some (wrapError "all retries exhausted" (observed final))
       end
    /\ (forall first rest,
          earlier ++ [final] = first :: rest ->
          classOf first <> SoftFail -> rest = []).
Proof.
  apply (PostOne_attempts_and_outcome
           (Scenario.server Scenario.threeFailures (fun _ => 0))
           Scenario.client Scenario.nginxRecord []).
  - unfold retriesInRange. cbn. lia.
  - apply server_steady. reflexivity.
  - apply surjective_pairing.
Defined.

(** 500 on attempts 1 to 3 and 200 on attempt 4: four calls and success. *)
Example PostOne_three_failures :
  fst Scenario.run3 = None
  /\ map snd (posts (snd Scenario.run3))
     = [Response 500; Response 500; Response 500; Response 200]
  /\ delays (snd Scenario.run3) = [200000000; 400000000; 800000000].
Proof. repeat split; reflexivity. Qed.

(** A 404 on the first attempt: one call, and a permanent error. *)
Example PostOne_404 :
  PostOne (Scenario.server (fun _ => Response 404) (fun _ => 0))
          Scenario.client (Some Scenario.nginxRecord) []
  = (Some (ClientError (statusError 404)),
     [EvPost Scenario.nginxRequest (Response 404); EvLimiterWait None]).
Proof. reflexivity. Qed.

(** With no attempt left to make ([retries = -1]) the result wraps nil. *)
Example PostOne_no_attempt :
  PostOne (Scenario.server (fun _ => Response 200) (fun _ => 0))
          {| baseURL := ""; org := ""; httpTimeout := 0; retries := -1;
             apiToken := ""; transport := None;
             rateLimiter := {| limit := 20; burst := 50 |} |}
          (Some Scenario.nginxRecord) []
  = (Some (wrapNil "all retries exhausted"), [EvLimiterWait None]).
Proof. reflexivity. Qed.

Section Bound.
Variables (env : Transport.Env) (c : Client) (record : DeploymentRecord).

Lemma attemptLoop_bound url n : forall attempt lastErr log err log',
  attemptLoop env c record url n attempt lastErr log = (err, log') ->
  exists sent,
    posts log' = posts log ++ sent
    /\ (length sent <= n)%nat
    /\ Forall (fun p => body (fst p) = record /\ Transport.url (fst p) = url)
              sent.
Proof.
  induction n as [|n IH]; intros attempt lastErr log err log';
    cbn [attemptLoop].
  - intros [= <- <-]. exists []. rewrite app_nil_r. auto.
  - assert (Hstop : forall e l, posts l = posts log ->
              (Some e, l) = (err, log') ->
              exists sent, posts log' = posts log ++ sent
                /\ (length sent <= S n)%nat
                /\ Forall (fun p => body (fst p) = record
                                    /\ Transport.url (fst p) = url) sent).
    { intros e l Hl [= <- <-]. exists []. rewrite app_nil_r. cbn.
      repeat split; auto; lia. }
    unfold backoff, authorize.
    destruct (attempt >? 0); [destruct (ctxDone env log)|];
      try (apply Hstop; reflexivity);
      (destruct (newRequestErr env url); [apply Hstop; reflexivity|]);
      (destruct (transport c);
       [destruct (getToken env _); [apply Hstop; reflexivity|]|]);
      match goal with
      | |- context [classify ?r] => destruct (classify r) as [r0|e1]
      end;
      try (intros [= <- <-]; eexists [_]; cbn;
           repeat split; auto; lia);
      (intros Hrun; apply IH in Hrun as (sent & Hp & Hlen & Hall);
       eexists (_ :: sent); cbn in Hp |- *;
       split; [rewrite Hp, <- app_assoc; reflexivity|];
       split; [lia|constructor; auto]).
Qed.

(** Whatever the collaborators do, a call makes at most [retries + 1]
    requests, each one carrying the call's record to the URL of the
    organization's deployment records. *)
Theorem PostOne_attempt_bound (log log' : list Event) (err : option error) :
  0 <= retries c ->
  PostOne env c (Some record) log = (err, log') ->
  exists sent,
    posts log' = posts log ++ sent
    /\ Z.of_nat (length sent) <= retries c + 1
    /\ Forall (fun p => body (fst p) = record
                        /\ Transport.url (fst p) = recordURL c) sent.
Proof.
  intros Hr. unfold PostOne. destruct (limiterWait env log).
  - intros [= <- <-]. exists []. rewrite app_nil_r. cbn.
    repeat split; auto; lia.
  - intros Hrun. apply attemptLoop_bound in Hrun as (sent & Hp & Hlen & Hall).
    exists sent. repeat split; auto.
    assert (add64 (retries c) 1 <= retries c + 1).
    { unfold add64, wrap64.
      pose proof (Z.mod_le (retries c + 1 + 2 ^ 63) (2 ^ 64)). lia. }
    lia.
Qed.

End Bound.

Lemma PostOne_attempt_bound_witness :
  exists sent,
    posts (snd Scenario.run3) = posts [] ++ sent
    /\ Z.of_nat (length sent) <= retries Scenario.client + 1
    /\ Forall (fun p => body (fst p) = Scenario.nginxRecord
                        /\ Transport.url (fst p)
                           = recordURL Scenario.client) sent.
Proof.
  apply (PostOne_attempt_bound
           (Scenario.server Scenario.threeFailures (fun _ => 0))
           Scenario.client Scenario.nginxRecord [] _ (fst Scenario.run3)).
  - cbn. lia.
  - unfold Scenario.run3. apply surjective_pairing.
Defined.

(** ** Backoff *)

Lemma wrap64_small (z : Z) : - 2 ^ 63 <= z < 2 ^ 63 -> wrap64 z = z.
Proof. intros H. unfold wrap64. rewrite Z.mod_small; lia. Qed.

(** The delay before attempt [k] is [min(5s, 2^k * 100ms + jitter)] up to
    attempt 36. *)
Lemma backoffDelay_formula (env : Transport.Env) (k draw : Z) :
  0 <= k <= 36 -> 0 <= draw < 50 ->
  backoffDelay env k draw = backoffOf k draw.
Proof.
  intros Hk Hd. unfold backoffDelay, backoffOf, pow2Duration, mul64, add64.
  destruct (Z.ltb_spec k 63) as [_|]; [|lia].
  assert (Hpow : 1 <= 2 ^ k <= 2 ^ 36).
  { split; [apply (Z.pow_le_mono_r 2 0 k); lia
           |apply Z.pow_le_mono_r; lia]. }
  change (2 ^ 36) with 68719476736 in Hpow.
  unfold Millisecond, Second.
  rewrite (wrap64_small (2 ^ k * 100)) by (change (2 ^ 63) with 9223372036854775808; lia).
  rewrite (wrap64_small (2 ^ k * 100 * 1000000)) by (change (2 ^ 63) with 9223372036854775808; lia).
  rewrite (wrap64_small (draw * 1000000)) by (change (2 ^ 63) with 9223372036854775808; lia).
  rewrite wrap64_small by (change (2 ^ 63) with 9223372036854775808; lia).
  destruct (Z.gtb_spec (2 ^ k * 100 * 1000000 + draw * 1000000) (5 * 1000000000)); lia.
Qed.


(** C4, the failing input: a client with 37 retries against a service that
    answers 500 to everything.  All 38 attempts are made, with a wait
    before each of the last 37; the delay before attempt 36 is the cap of
    5 s, as it is to be before attempt 37, but there the product
    [2^37 * 100 * time.Millisecond] exceeds the largest [int64] and the
    computed delay is negative: the wait is over at once. *)
Theorem backoff_before_attempt_37_is_negative :
  List.length (posts (snd Scenario.run37)) = 38%nat
  /\ List.length (delays (snd Scenario.run37)) = 37%nat
  /\ nth 35 (delays (snd Scenario.run37)) 0 = 5 * Second
  /\ nth 36 (delays (snd Scenario.run37)) 0 = -4702848726509551616
  /\ backoffOf 37 0 = 5 * Second
  /\ backoffDelay Scenario.alwaysFailing 37 0 = -4702848726509551616.
Proof. vm_compute. repeat split; reflexivity. Qed.

(** The scenario of the specification: 500 on attempts 1 to 3 and 200 on
    attempt 4, with 3 retries.  Whatever the jitter, there is no wait
    before the first attempt and one before each later attempt, the three
    delays follow the formula, increase strictly and stay below the cap. *)
Lemma three_failures_then_success (jit : list Event -> Z) :
  exists j1 j2 j3,
    (0 <= j1 < 50 /\ 0 <= j2 < 50 /\ 0 <= j3 < 50)
    /\ PostOne (Scenario.server Scenario.threeFailures jit) Scenario.client
               (Some Scenario.nginxRecord) []
       = (None,
          [ EvPost Scenario.nginxRequest (Response 200);
            EvBackoff (backoffOf 3 j3) None;
            EvPost Scenario.nginxRequest (Response 500);
            EvBackoff (backoffOf 2 j2) None;
            EvPost Scenario.nginxRequest (Response 500);
            EvBackoff (backoffOf 1 j1) None;
            EvPost Scenario.nginxRequest (Response 500);
            EvLimiterWait None ])
    /\ backoffOf 1 j1 < backoffOf 2 j2 < backoffOf 3 j3
    /\ backoffOf 3 j3 <= 5 * Second.
Proof.
  set (env := Scenario.server Scenario.threeFailures jit).
  set (l0 := [EvPost Scenario.nginxRequest (Response 500); EvLimiterWait None]).
  set (j1 := jit l0 mod 50).
  set (l1 := EvPost Scenario.nginxRequest (Response 500)
             :: EvBackoff (backoffDelay env 1 j1) None :: l0).
  set (j2 := jit l1 mod 50).
  set (l2 := EvPost Scenario.nginxRequest (Response 500)
             :: EvBackoff (backoffDelay env 2 j2) None :: l1).
  set (j3 := jit l2 mod 50).
  assert (H1 : 0 <= j1 < 50) by (apply Z.mod_pos_bound; lia).
  assert (H2 : 0 <= j2 < 50) by (apply Z.mod_pos_bound; lia).
  assert (H3 : 0 <= j3 < 50) by (apply Z.mod_pos_bound; lia).
  exists j1, j2, j3. split; [auto|]. split.
  - rewrite <- !(backoffDelay_formula env) by lia. reflexivity.
  - unfold backoffOf, Millisecond, Second.
    change (2 ^ 1) with 2. change (2 ^ 2) with 4. change (2 ^ 3) with 8. lia.
Qed.


(** Whatever the random source draws, the delay before attempt [k] is
    [min(5s, 2^k * 100ms + jitter)] with a jitter in [0ms, 50ms), for
    every attempt from 1 to 36. *)
Theorem backoff_follows_formula_up_to_attempt_36
    (env : Transport.Env) (log : list Event) (k : Z) :
  1 <= k <= 36 ->
  0 <= randInt64 env log mod 50 < 50
  /\ backoffDelay env k (randInt64 env log mod 50)
     = Z.min (5 * Second)
             (2 ^ k * (100 * Millisecond)
              + (randInt64 env log mod 50) * Millisecond).
Proof.
  intros Hk.
  assert (Hj : 0 <= randInt64 env log mod 50 < 50)
    by (apply Z.mod_pos_bound; lia).
  split; [exact Hj|]. rewrite backoffDelay_formula by lia. reflexivity.
Qed.

Lemma backoff_formula_witness :
  0 <= randInt64 Scenario.alwaysFailing [] mod 50 < 50
  /\ backoffDelay Scenario.alwaysFailing 36
                  (randInt64 Scenario.alwaysFailing [] mod 50)
     = Z.min (5 * Second)
             (2 ^ 36 * (100 * Millisecond)
              + (randInt64 Scenario.alwaysFailing [] mod 50) * Millisecond).
Proof.
  apply (backoff_follows_formula_up_to_attempt_36 Scenario.alwaysFailing [] 36).
  lia.
Defined.

Section Pace.
Variables (env : Transport.Env) (c : Client) (record : DeploymentRecord).
Hypothesis Hsteady : steady env c.

Lemma authorize_schedule log a log' :
  authorize env c log = (a, log') -> schedule log' = schedule log.
Proof.
  unfold authorize. destruct (transport c); intros [= <- <-]; auto.
Qed.

Lemma authorize_steady' log :
  exists auth log', authorize env c log = (inr auth, log')
                    /\ schedule log' = schedule log.
Proof.
  destruct Hsteady as (_ & _ & _ & Htok).
  unfold authorize. destruct (Htok log) as [Hnone | [tok Htok']].
  - rewrite Hnone. eauto.
  - destruct (transport c); [|eauto]. rewrite Htok'. eauto.
Qed.

Lemma attemptLoop_paced n : forall attempt lastErr log err log',
  0 < attempt ->
  attemptLoop env c record (recordURL c) n attempt lastErr log = (err, log') ->
  exists draws,
    schedule log' = schedule log ++ paced env attempt draws
    /\ (length draws <= n)%nat
    /\ Forall (fun j => 0 <= j < 50) draws.
Proof.
  induction n as [|n IH]; intros attempt lastErr log err log' Hpos;
    cbn [attemptLoop].
  - intros [= <- <-]. exists []. cbn. rewrite app_nil_r. auto.
  - unfold backoff. destruct (Z.gtb_spec attempt 0) as [_|]; [|lia].
    pose proof Hsteady as (_ & Hctx & Hreq & _). rewrite Hctx, Hreq.
    set (j := randInt64 env log mod 50).
    assert (Hj : 0 <= j < 50) by (apply Z.mod_pos_bound; lia).
    set (log1 := EvBackoff (backoffDelay env attempt j) None :: log).
    destruct (authorize_steady' log1) as (auth & log2 & -> & Hs2).
    set (req := {| url := recordURL c; authorization := auth;
                   body := record |}).
    set (resp := httpDo env log2 req).
    assert (Hone : schedule (EvPost req resp :: log2)
                   = schedule log ++ paced env attempt [j]).
    { cbn. rewrite Hs2. cbn. now rewrite <- app_assoc. }
    destruct (classify resp) as [r|e].
    + intros [= <- <-]. exists [j]. repeat split; auto. cbn. lia.
    + intros Hrun. apply IH in Hrun as (draws & Hd & Hlen & Hall); [|lia].
      exists (j :: draws). repeat split; [|cbn; lia|constructor; auto].
      rewrite Hd, Hone. cbn. now rewrite <- app_assoc.
Qed.

(** The waits and attempts of one call, against collaborators that do not
    fail locally: the first attempt comes without a wait, and every later
    attempt [k] directly follows a wait of [backoffDelay env k j] for a
    jitter draw [j] in [0, 50); there are at most [retries] of them. *)
Theorem PostOne_pacing (log log' : list Event) (err : option error) :
  retriesInRange c ->
  PostOne env c (Some record) log = (err, log') ->
  exists draws,
    schedule log' = schedule log ++ Attempt :: paced env 1 draws
    /\ Z.of_nat (length draws) <= retries c
    /\ Forall (fun j => 0 <= j < 50) draws.
Proof.
  intros Hr. unfold PostOne.
  pose proof Hsteady as (Hw & _ & Hreq & _). rewrite Hw.
  assert (Hn : add64 (retries c) 1 = retries c + 1).
  { unfold add64, wrap64, retriesInRange in *. rewrite Z.mod_small; lia. }
  rewrite Hn. unfold retriesInRange in Hr.
  destruct (Z.to_nat (retries c + 1)) as [|n] eqn:En; [lia|].
  cbn [attemptLoop]. unfold backoff at 1. cbn [Z.gtb Z.compare].
  rewrite Hreq.
  destruct (authorize_steady' (EvLimiterWait None :: log))
    as (auth & log2 & -> & Hs2).
  set (req := {| url := recordURL c; authorization := auth; body := record |}).
  set (resp := httpDo env log2 req).
  assert (Hone : schedule (EvPost req resp :: log2) = schedule log ++ [Attempt])
    by (cbn; now rewrite Hs2).
  destruct (classify resp) as [r|e].
  - intros [= <- <-]. exists []. split; [exact Hone|]. split; [cbn; lia|auto].
  - intros Hrun. apply attemptLoop_paced in Hrun as (draws & Hd & Hlen & Hall);
      [|lia].
    exists draws. repeat split; auto; [|lia].
    rewrite Hd, Hone, <- app_assoc. reflexivity.
Qed.

End Pace.

Lemma PostOne_pacing_witness :
  exists draws,
    schedule (snd Scenario.run3)
    = schedule [] ++ Attempt
      :: paced (Scenario.server Scenario.threeFailures (fun _ => 0)) 1 draws
    /\ Z.of_nat (length draws) <= retries Scenario.client
    /\ Forall (fun j => 0 <= j < 50) draws.
Proof.
  apply (PostOne_pacing (Scenario.server Scenario.threeFailures (fun _ => 0))
           Scenario.client Scenario.nginxRecord
           (server_steady _ _ Scenario.client eq_refl) [] _
           (fst Scenario.run3)).
  - unfold retriesInRange. cbn. lia.
  - apply surjective_pairing.
Defined.

(** ** The reconciler *)


Section Reconciler.
Variable c : Controller.

Lemma recordKey_callRecord call : recordKey (callRecord c call) = callKey c call.
Proof.
  unfold recordKey, callRecord, buildRecord, callKey.
  destruct (Image.ExtractName _). reflexivity.
Qed.

Lemma Status_callRecord call :
  callStatus call = StatusDeployed \/ callStatus call = StatusDecommissioned ->
  Status (callRecord c call) = callStatus call.
Proof.
  unfold callRecord, buildRecord. destruct (Image.ExtractName _).
  intros [-> | ->]; reflexivity.
Qed.

Lemma alreadyRecorded_None w key status :
  alreadyRecorded w key status = None ->
  (status = StatusDeployed /\ Load w key = false)
  \/ (status = StatusDecommissioned /\ Load w key = true).
Proof.
  unfold alreadyRecorded.
  destruct (String.eqb_spec status StatusDeployed) as [->|_].
  - destruct (Load w key); [easy|auto].
  - destruct (String.eqb_spec status StatusDecommissioned) as [->|_]; [|easy].
    destruct (Load w key); [auto|easy].
Qed.

(** The three ways through [recordContainer]: the container is skipped
    for want of an identity; the first switch returns; or the record is
    handed to [PostOne] and its result decides. *)
Lemma perform_cases call w :
  (hasIdentity c call = false /\ perform c call w = (None, w))
  \/ (hasIdentity c call = true
      /\ exists r, alreadyRecorded w (callKey c call) (callStatus call) = Some r
                   /\ perform c call w = (r, w))
  \/ (hasIdentity c call = true
      /\ alreadyRecorded w (callKey c call) (callStatus call) = None
      /\ exists err log',
           PostOne (remote c) (apiClient c) (Some (callRecord c call))
                   (deliveries w) = (err, log')
           /\ perform c call w =
              match err with
              | Some e => (if AsClientError e then None else Some e,
                           setDeliveries w log')
              | None => updateCache (setDeliveries w log') (callKey c call)
                                    (callStatus call)
              end).
Proof.
  unfold perform, recordContainer, hasIdentity.
  fold (callName c call). fold (callDigest call). fold (callKey c call).
  destruct (String.eqb (callName c call) ""); cbn [orb negb andb]; [auto|].
  destruct (String.eqb (callDigest call) ""); cbn [orb negb andb]; [auto|].
  right. destruct (alreadyRecorded w (callKey c call) (callStatus call)) as [r|].
  - left. eauto.
  - right. fold (callRecord c call).
    destruct (PostOne _ _ _ _) as [err log'].
    repeat split. exists err, log'. split; [reflexivity|].
    destruct err as [e|]; [|reflexivity].
    destruct (AsClientError e); reflexivity.
Qed.

End Reconciler.

Section Reconciler2.
Variable c : Controller.

Lemma alreadyRecorded_valid w key status :
  alreadyRecorded w key status = None ->
  status = StatusDeployed \/ status = StatusDecommissioned.
Proof. intros H. apply alreadyRecorded_None in H. tauto. Qed.

(** What one execution does to the cache and to the successful
    deliveries. *)
Lemma perform_effect call w :
  (delivered (deliveries (snd (perform c call w))) = delivered (deliveries w)
   /\ observedDeployments (snd (perform c call w)) = observedDeployments w)
  \/ exists r,
       delivered (deliveries (snd (perform c call w)))
       = r :: delivered (deliveries w)
       /\ ((Status r = StatusDeployed
            /\ observedDeployments (snd (perform c call w))
               = <[recordKey r := true]> (observedDeployments w))
           \/ (Status r = StatusDecommissioned
               /\ observedDeployments (snd (perform c call w))
                  = delete (recordKey r) (observedDeployments w))).
Proof.
  destruct (perform_cases c call w)
    as [[_ ->] | [[_ (r & _ & ->)] | (_ & Hgate & err & log' & Hpost & ->)]];
    [left; auto | left; auto |].
  apply PostOne_delivered in Hpost.
  destruct err as [e|].
  - left. cbn. auto.
  - right. exists (callRecord c call).
    pose proof (alreadyRecorded_valid _ _ _ Hgate) as Hvalid.
    rewrite recordKey_callRecord, (Status_callRecord c call Hvalid).
    unfold updateCache.
    destruct Hvalid as [-> | ->]; cbn; auto.
Qed.

Lemma Load_insert w key k :
  Load (setObserved w (<[k := true]> (observedDeployments w))) key
  = if String.eqb k key then true else Load w key.
Proof.
  unfold Load; cbn. destruct (String.eqb_spec k key) as [->|Hne].
  - now rewrite lookup_insert_eq.
  - now rewrite lookup_insert_ne.
Qed.

Lemma Load_delete w key k :
  Load (setObserved w (delete k (observedDeployments w))) key
  = if String.eqb k key then false else Load w key.
Proof.
  unfold Load; cbn. destruct (String.eqb_spec k key) as [->|Hne].
  - now rewrite lookup_delete_eq.
  - now rewrite lookup_delete_ne.
Qed.

Lemma perform_consistent call w :
  cacheMatchesDeliveries w -> cacheMatchesDeliveries (snd (perform c call w)).
Proof.
  intros Hw key.
  destruct (perform_effect call w)
    as [[Hd Hc] | (r & Hd & [[Hs Hc] | [Hs Hc]])];
    unfold Load; rewrite Hd, Hc.
  - apply Hw.
  - cbn [lastStatus]. destruct (String.eqb_spec (recordKey r) key) as [->|Hne].
    + rewrite lookup_insert_eq, Hs. tauto.
    + rewrite lookup_insert_ne by assumption. apply Hw.
  - cbn [lastStatus]. destruct (String.eqb_spec (recordKey r) key) as [->|Hne].
    + rewrite lookup_delete_eq, Hs. split; intros [=].
    + rewrite lookup_delete_ne by assumption. apply Hw.
Qed.

Lemma replay_consistent calls : forall w,
  cacheMatchesDeliveries w -> cacheMatchesDeliveries (replay c calls w).
Proof.
  induction calls as [|call calls IH]; intros w Hw; cbn [replay]; [assumption|].
  apply IH, perform_consistent, Hw.
Qed.

(** The key is the concatenation of name and digest around [||]; two
    pairs that concatenate alike have one key. *)
Example getCacheKey_shared :
  getCacheKey "a||b" "sha256:c" = getCacheKey "a" "b||sha256:c".
Proof. reflexivity. Qed.

(** C2: after any sequence of [recordContainer] executions from the
    initial state, the cache holds a key exactly when the last successful
    delivery (a request answered with 2xx) of a record with that key had
    status [deployed]; and one execution either leaves the cache and the
    successful deliveries as they were (the delivery failed or was
    skipped), or delivers one record [r] and then inserts the key of [r]
    when its status is [deployed] and deletes it when it is
    [decommissioned]. *)
Theorem cache_tracks_last_successful_delivery (calls : list Call) :
  (forall key,
     Load (replay c calls initial) key = true <->
     lastStatus key (delivered (deliveries (replay c calls initial)))
     = Some StatusDeployed)
  /\ (forall call w,
        (delivered (deliveries (snd (perform c call w)))
         = delivered (deliveries w)
         /\ observedDeployments (snd (perform c call w))
            = observedDeployments w)
        \/ exists r,
             delivered (deliveries (snd (perform c call w)))
             = r :: delivered (deliveries w)
             /\ ((Status r = StatusDeployed
                  /\ observedDeployments (snd (perform c call w))
                     = <[recordKey r := true]> (observedDeployments w))
                 \/ (Status r = StatusDecommissioned
                     /\ observedDeployments (snd (perform c call w))
                        = delete (recordKey r) (observedDeployments w)))).
Proof.
  split; [|apply perform_effect].
  apply replay_consistent. intros key. unfold Load. cbn.
  rewrite lookup_empty. split; intros [=].
Qed.

End Reconciler2.

Section Reliable.
Variable c : Controller.
Hypothesis Hrange : retriesInRange (apiClient c).
Hypothesis Hsteady : steady (remote c) (apiClient c).
Hypothesis Haccepts : alwaysAccepts (remote c).

Lemma posted_setObserved w m : posted (setObserved w m) = posted w.
Proof. reflexivity. Qed.

(** One execution when every delivery succeeds: either nothing happens,
    or exactly the call's record is posted and the cache is updated. *)
Lemma perform_reliable call w :
  hasIdentity c call = true ->
  (callStatus call = StatusDeployed ->
   if Load w (callKey c call)
   then perform c call w = (None, w)
   else exists w', perform c call w = (None, w')
                   /\ posted w' = posted w ++ [callRecord c call]
                   /\ forall key, Load w' key
                        = if String.eqb (callKey c call) key then true
                          else Load w key)
  /\ (callStatus call = StatusDecommissioned ->
      if Load w (callKey c call)
      then exists w', perform c call w = (None, w')
                      /\ posted w' = posted w ++ [callRecord c call]
                      /\ forall key, Load w' key
                           = if String.eqb (callKey c call) key then false
                             else Load w key
      else perform c call w = (None, w)).
Proof.
  intros Hid.
  destruct (perform_cases c call w)
    as [[Hno _] | [[_ (r & Hgate & ->)] | (_ & Hgate & err & log' & Hpost & ->)]];
    [congruence | |].
  - unfold alreadyRecorded in Hgate.
    destruct (Load w (callKey c call)); split; intros Hs; rewrite Hs in Hgate;
      cbn in Hgate; congruence.
  - destruct (PostOne_accepted (remote c) (apiClient c) (callRecord c call)
                Hsteady (deliveries w) Hrange Haccepts)
      as (req & resp & log2 & Hrun & Hposts & Hbody).
    rewrite Hrun in Hpost. injection Hpost as <- <-.
    assert (Hposted : posted (setDeliveries w log2)
                      = posted w ++ [callRecord c call])
      by (unfold posted; cbn; rewrite Hposts, map_app; cbn; now rewrite Hbody).
    apply alreadyRecorded_None in Hgate as [[Hs Hl] | [Hs Hl]]; rewrite Hl, Hs;
      (split; intros Hs'; [|try discriminate Hs']); try discriminate Hs';
      unfold updateCache; cbn [String.eqb StatusDeployed StatusDecommissioned];
      cbn -[setObserved setDeliveries posted Load];
      eexists; (split; [reflexivity|]); (split; [exact Hposted|]); intros key.
    + apply (Load_insert (setDeliveries w log2)).
    + apply (Load_delete (setDeliveries w log2)).
Qed.

End Reliable.

(** C1 (as amended): when every delivery succeeds at once, a container
    with an identity has its deployed record posted exactly when the cache
    holds no entry for its key, and its decommissioned record exactly when
    the cache holds one.  So, for calls on one identity starting without an
    entry: two deployed executions post once, a decommissioned execution
    posts nothing, and deployed, decommissioned, deployed post three
    times. *)
Theorem dedup_gate_and_post_counts (c : Controller) :
  retriesInRange (apiClient c) ->
  steady (remote c) (apiClient c) ->
  alwaysAccepts (remote c) ->
  (forall call w,
     hasIdentity c call = true ->
     (callStatus call = StatusDeployed ->
      posted (snd (perform c call w))
      = posted w ++ (if Load w (callKey c call) then []
                     else [callRecord c call]))
     /\ (callStatus call = StatusDecommissioned ->
         posted (snd (perform c call w))
         = posted w ++ (if Load w (callKey c call) then [callRecord c call]
                        else [])))
  /\ (forall a b d w,
        hasIdentity c a = true -> hasIdentity c b = true ->
        hasIdentity c d = true ->
        callKey c b = callKey c a -> callKey c d = callKey c a ->
        Load w (callKey c a) = false ->
        (callStatus a = StatusDeployed -> callStatus b = StatusDeployed ->
         length (posted (replay c [a; b] w)) = (1 + length (posted w))%nat)
        /\ (callStatus a = StatusDecommissioned ->
            length (posted (replay c [a] w)) = length (posted w))
        /\ (callStatus a = StatusDeployed ->
            callStatus b = StatusDecommissioned ->
            callStatus d = StatusDeployed ->
            length (posted (replay c [a; b; d] w))
            = (3 + length (posted w))%nat)).
Proof.
  intros Hr Hs Ha.
  pose proof (perform_reliable c Hr Hs Ha) as Hstep.
  split.
  - intros call w Hid. destruct (Hstep call w Hid) as [Hdep Hdec].
    split; intros Hst; [specialize (Hdep Hst) | specialize (Hdec Hst)];
      destruct (Load w (callKey c call)).
    + rewrite Hdep. cbn. now rewrite app_nil_r.
    + destruct Hdep as (w' & -> & Hp & _). exact Hp.
    + destruct Hdec as (w' & -> & Hp & _). exact Hp.
    + rewrite Hdec. cbn. now rewrite app_nil_r.
  - intros a b d w Ida Idb Idd Kb Kd Hfresh.
    destruct (Hstep a w Ida) as [Hdep_a Hdec_a]. rewrite Hfresh in *.
    split; [|split].
    + intros Sa Sb. cbn [replay].
      destruct (Hdep_a Sa) as (w1 & -> & Hp1 & Hl1). cbn [snd].
      destruct (Hstep b w1 Idb) as [Hdep_b _]. specialize (Hdep_b Sb).
      rewrite Kb, Hl1, String.eqb_refl in Hdep_b. rewrite Hdep_b. cbn [snd].
      rewrite Hp1, length_app. cbn. lia.
    + intros Sa. cbn [replay]. now rewrite (Hdec_a Sa).
    + intros Sa Sb Sd. cbn [replay].
      destruct (Hdep_a Sa) as (w1 & -> & Hp1 & Hl1). cbn [snd].
      destruct (Hstep b w1 Idb) as [_ Hdec_b]. specialize (Hdec_b Sb).
      rewrite Kb, Hl1, String.eqb_refl in Hdec_b.
      destruct Hdec_b as (w2 & -> & Hp2 & Hl2). cbn [snd].
      destruct (Hstep d w2 Idd) as [Hdep_d _]. specialize (Hdep_d Sd).
      rewrite Kd, Hl2, String.eqb_refl in Hdep_d.
      destruct Hdep_d as (w3 & -> & Hp3 & _). cbn [snd].
      rewrite Hp3, Hp2, Hp1, !length_app. cbn. lia.
Qed.

Lemma controller_accepts : alwaysAccepts (remote Scenario.controller).
Proof. intros log req. reflexivity. Qed.

Lemma gate_witness :
  (forall call w,
     hasIdentity Scenario.controller call = true ->
     (callStatus call = StatusDeployed ->
      posted (snd (perform Scenario.controller call w))
      = posted w ++ (if Load w (callKey Scenario.controller call) then []
                     else [callRecord Scenario.controller call]))
     /\ (callStatus call = StatusDecommissioned ->
         posted (snd (perform Scenario.controller call w))
         = posted w ++ (if Load w (callKey Scenario.controller call)
                        then [callRecord Scenario.controller call]
                        else [])))
  /\ (forall a b d w,
        hasIdentity Scenario.controller a = true ->
        hasIdentity Scenario.controller b = true ->
        hasIdentity Scenario.controller d = true ->
        callKey Scenario.controller b = callKey Scenario.controller a ->
        callKey Scenario.controller d = callKey Scenario.controller a ->
        Load w (callKey Scenario.controller a) = false ->
        (callStatus a = StatusDeployed -> callStatus b = StatusDeployed ->
         length (posted (replay Scenario.controller [a; b] w))
         = (1 + length (posted w))%nat)
        /\ (callStatus a = StatusDecommissioned ->
            length (posted (replay Scenario.controller [a] w))
            = length (posted w))
        /\ (callStatus a = StatusDeployed ->
            callStatus b = StatusDecommissioned ->
            callStatus d = StatusDeployed ->
            length (posted (replay Scenario.controller [a; b; d] w))
            = (3 + length (posted w))%nat)).
Proof.
  apply (dedup_gate_and_post_counts Scenario.controller).
  - unfold retriesInRange. cbn. lia.
  - apply server_steady. reflexivity.
  - exact controller_accepts.
Defined.

(** C1, counterexample: the container [app] of [webPod] reported as
    deployed, decommissioned and deployed again, from the initial state and
    with every request answered 200: the three executions are on one
    identity and post three records, not two. *)
Lemma deployed_decommissioned_deployed_posts_three :
  callKey Scenario.controller Scenario.deployedCall
  = callKey Scenario.controller Scenario.decommissionedCall
  /\ map snd (posts (deliveries
         (replay Scenario.controller
            [Scenario.deployedCall; Scenario.decommissionedCall;
             Scenario.deployedCall] initial)))
     = [Response 200; Response 200; Response 200]
  /\ map Status (posted
         (replay Scenario.controller
            [Scenario.deployedCall; Scenario.decommissionedCall;
             Scenario.deployedCall] initial))
     = ["deployed"; "decommissioned"; "deployed"]
  /\ length (posted
         (replay Scenario.controller
            [Scenario.deployedCall; Scenario.decommissionedCall;
             Scenario.deployedCall] initial)) <> 2%nat.
Proof. vm_compute. repeat split; try reflexivity. discriminate. Qed.

(** Two deployed executions post once; a decommissioned one on a fresh
    cache posts nothing. *)
Example deployed_twice_posts_once :
  map Status (posted (replay Scenario.controller
                        [Scenario.deployedCall; Scenario.deployedCall]
                        initial)) = ["deployed"]
  /\ posted (replay Scenario.controller [Scenario.decommissionedCall] initial)
     = [].
Proof. vm_compute. split; reflexivity. Qed.

(** The end-to-end scenario of the specification. *)
Example end_to_end_record :
  posted (snd (processEvent Scenario.liveController Scenario.createdEvent
                            initial))
  = [ {| Name := "nginx"; Digest := "sha256:aaaa"; Version := "1.21";
         DeploymentRecord.LogicalEnvironment := "staging";
         DeploymentRecord.PhysicalEnvironment := "eu-1";
         DeploymentRecord.Cluster := "kind";
         Status := "deployed";
         DeploymentName := "prod/web/app" |} ].
Proof. vm_compute. reflexivity. Qed.

Section Aggregation.
Variable c : Controller.

Lemma recordContainers_world pod status et containers : forall l1 l2 w,
  snd (recordContainers c pod containers status et l1 w)
  = snd (recordContainers c pod containers status et l2 w).
Proof.
  induction containers as [|x xs IH]; intros l1 l2 w; cbn [recordContainers];
    [reflexivity|].
  destruct (recordContainer c pod x status et w) as [err w1]. apply IH.
Qed.

Lemma recordContainers_error pod status et containers : forall lastErr w,
  fst (recordContainers c pod containers status et lastErr w) <> None <->
  lastErr <> None
  \/ Exists (fun r => r <> None) (containerResults c pod containers status et w).
Proof.
  induction containers as [|x xs IH]; intros lastErr w;
    cbn [recordContainers containerResults].
  - cbn. rewrite Exists_nil. tauto.
  - destruct (recordContainer c pod x status et w) as [err w1].
    rewrite IH, Exists_cons. destruct err as [e|]; [|tauto].
    split; [intros _; right; left; discriminate | intros _; left; discriminate].
Qed.

Lemma containerResults_app pod status et xs : forall ys w,
  containerResults c pod (xs ++ ys) status et w
  = containerResults c pod xs status et w
    ++ containerResults c pod ys status et
         (snd (recordContainers c pod xs status et None w)).
Proof.
  induction xs as [|x xs IH]; intros ys w;
    cbn [app containerResults recordContainers]; [reflexivity|].
  destruct (recordContainer c pod x status et w) as [err w1].
  rewrite IH. cbn [app]. do 3 f_equal. apply recordContainers_world.
Qed.

Lemma eventStatus_valid event :
  eventStatus event = StatusDeployed \/ eventStatus event = StatusDecommissioned.
Proof. unfold eventStatus. destruct (String.eqb _ _); auto. Qed.

(** An error of [recordContainer] on a valid status is the error of
    [PostOne], and it is not a [ClientError]. *)
Lemma perform_error call w e :
  callStatus call = StatusDeployed \/ callStatus call = StatusDecommissioned ->
  fst (perform c call w) = Some e ->
  AsClientError e = false
  /\ exists log', PostOne (remote c) (apiClient c) (Some (callRecord c call))
                          (deliveries w) = (Some e, log').
Proof.
  intros Hvalid.
  destruct (perform_cases c call w)
    as [[_ ->] | [[_ (r & Hgate & ->)] | (_ & Hgate & err & log' & Hpost & ->)]];
    cbn [fst]; [discriminate | |].
  - intros ->. unfold alreadyRecorded in Hgate.
    destruct Hvalid as [Hs | Hs]; rewrite Hs in Hgate; cbn in Hgate;
      destruct (Load w (callKey c call)); discriminate.
  - destruct err as [e0|].
    + destruct (AsClientError e0) eqn:Has; cbn [fst]; [discriminate|].
      intros [= <-]. eauto.
    + unfold updateCache.
      destruct Hvalid as [-> | ->]; cbn; discriminate.
Qed.

(** C6: when [PostOne] returns an error, [recordContainer] returns nil if
    [errors.As] finds a [ClientError] in it and that error otherwise;
    [processEvent] returns an error exactly when it reached the containers
    of a pod and the [recordContainer] of at least one of them returned
    one, whatever the others returned; every such error is the error
    [PostOne] returned for that container and no [ClientError]; and
    [errors.As] finds a [ClientError] in an error of [PostOne] exactly when
    that error is the [ClientError] built for a response. *)
Theorem delivery_errors_decide_requeue :
  (forall call w e log',
     hasIdentity c call = true ->
     alreadyRecorded w (callKey c call) (callStatus call) = None ->
     PostOne (remote c) (apiClient c) (Some (callRecord c call))
             (deliveries w) = (Some e, log') ->
     fst (perform c call w) = if AsClientError e then None else Some e)
  /\ (forall event w,
        fst (processEvent c event w) <> None <->
        exists pod w1,
          resolvePod c event w = (Some pod, w1)
          /\ Exists (fun r => r <> None)
               (containerResults c pod
                  (Pod.Containers pod ++ Pod.InitContainers pod)
                  (eventStatus event) (EventType event) w1))
  /\ (forall event pod container w e,
        fst (recordContainer c pod container (eventStatus event)
                             (EventType event) w) = Some e ->
        AsClientError e = false
        /\ exists record log',
             PostOne (remote c) (apiClient c) (Some record) (deliveries w)
             = (Some e, log'))
  /\ (forall record log e log',
        PostOne (remote c) (apiClient c) (Some record) log = (Some e, log') ->
        AsClientError e = true <-> exists code, e = ClientError (statusError code)).
Proof.
  split; [|split; [|split]];
    [| | |intros record log e log' Hpost; split;
          [apply (PostOne_client_error _ _ _ _ _ _ Hpost)
          |intros [code ->]; reflexivity]].
  - intros call w e log' Hid Hgate Hpost.
    destruct (perform_cases c call w)
      as [[Hno _] | [[_ (r & Hgate' & _)] | (_ & _ & err & log2 & Hpost' & ->)]];
      [congruence | congruence |].
    rewrite Hpost in Hpost'. injection Hpost' as <- <-.
    destruct (AsClientError e); reflexivity.
  - intros event w. unfold processEvent. fold (eventStatus event).
    destruct (resolvePod c event w) as [[pod|] w1].
    + destruct (recordContainers c pod (Pod.Containers pod) (eventStatus event)
                  (EventType event) None w1) as [lastErr w2] eqn:Hfirst.
      rewrite recordContainers_error.
      pose proof (recordContainers_error pod (eventStatus event)
                    (EventType event) (Pod.Containers pod) None w1) as H1.
      pose proof (containerResults_app pod (eventStatus event)
                    (EventType event) (Pod.Containers pod)
                    (Pod.InitContainers pod) w1) as Happ.
      rewrite Hfirst in H1, Happ. cbn [fst snd] in *.
      split.
      * intros H. exists pod, w1. split; [reflexivity|].
        rewrite Happ, Exists_app. tauto.
      * intros (pod' & w1' & [= <- <-] & H).
        rewrite Happ, Exists_app in H. tauto.
    + cbn [fst]. split; [congruence|]. intros (pod & w1' & [=] & _).
  - intros event pod container w e H.
    pose (call := {| callPod := pod; callContainer := container;
                     callStatus := eventStatus event;
                     callEventType := EventType event |}).
    destruct (perform_error call w e (eventStatus_valid event) H)
      as [Has [log' Hpost]].
    eauto.
Qed.

End Aggregation.

(** C5: a Deleted work item whose captured pod has a deployment name, in
    a cluster where the lookup of that Deployment answers anything but
    not-found (the Deployment, or another error), is processed with
    result nil, without any activity of the delivery client and with the
    cache unchanged. *)
Theorem processEvent_scale_down (c : Controller) (event : PodEvent)
    (w : World) (p : ptr) :
  EventType event = EventDeleted ->
  DeletedPod event = Some p ->
  getDeploymentName (deref (cluster c) p) <> "" ->
  getDeployment (cluster c) (clusterCalls w)
                (Pod.Namespace (deref (cluster c) p))
                (getDeploymentName (deref (cluster c) p))
  <> DeploymentNotFound ->
  fst (processEvent c event w) = None
  /\ observedDeployments (snd (processEvent c event w)) = observedDeployments w
  /\ deliveries (snd (processEvent c event w)) = deliveries w.
Proof.
  intros Ht Hp Hname Hprobe.
  unfold processEvent, resolvePod, deploymentExists.
  rewrite Ht, Hp. cbn [String.eqb].
  change (String.eqb EventDeleted EventDeleted) with true. cbv iota.
  destruct (String.eqb_spec (getDeploymentName (deref (cluster c) p)) "")
    as [|_]; [contradiction|]. cbn [negb].
  destruct (getDeployment _ _ _ _); try contradiction; cbn; auto.
Qed.


Lemma scale_down_witness :
  fst (processEvent Scenario.liveController (Scenario.deletedAt 1%N) initial)
  = None
  /\ observedDeployments
       (snd (processEvent Scenario.liveController (Scenario.deletedAt 1%N)
                          initial))
     = observedDeployments initial
  /\ deliveries
       (snd (processEvent Scenario.liveController (Scenario.deletedAt 1%N)
                          initial))
     = deliveries initial.
Proof.
  apply (processEvent_scale_down Scenario.liveController
           (Scenario.deletedAt 1%N) initial 1%N).
  - reflexivity.
  - reflexivity.
  - vm_compute. discriminate.
  - vm_compute. discriminate.
Defined.

(** A lookup that fails with another error counts as "exists": the work
    item of a deleted pod whose entry is cached is dropped all the same. *)
Example lookup_error_is_scale_down :
  processEvent Scenario.unreachableController (Scenario.deletedAt 1%N)
    (replay Scenario.unreachableController [Scenario.deployedCall] initial)
  = (None,
     logCall (replay Scenario.unreachableController [Scenario.deployedCall]
                     initial)
             (CallGetDeployment "prod" "web" (DeploymentGetErr "i/o timeout"))).
Proof. vm_compute. reflexivity. Qed.

(** When the Deployment is gone the same work item is reported, provided
    the cache holds the entry. *)
Example decommission_after_deploy :
  map Status
    (posted (snd (processEvent Scenario.controller (Scenario.deletedAt 1%N)
                    (replay Scenario.controller [Scenario.deployedCall]
                            initial))))
  = ["deployed"; "decommissioned"].
Proof. vm_compute. reflexivity. Qed.

(** A pod with two containers against a service that accepts the first
    request only: the first container is delivered and cached, the second
    exhausts its four attempts, and the work item fails. *)
Example one_container_fails :
  fst (processEvent Scenario.mixedController Scenario.createdEvent initial)
  = Some (wrapError "all retries exhausted" (statusError 500))
  /\ map snd (posts (deliveries
        (snd (processEvent Scenario.mixedController Scenario.createdEvent
                           initial))))
     = [Response 200; Response 500; Response 500; Response 500; Response 500]
  /\ Load (snd (processEvent Scenario.mixedController Scenario.createdEvent
                             initial)) "prod/web/app||sha256:aaaa" = true
  /\ Load (snd (processEvent Scenario.mixedController Scenario.createdEvent
                             initial)) "prod/web/sidecar||sha256:bbbb" = false.
Proof. vm_compute. repeat split; reflexivity. Qed.

(** A record the service rejects with 404 is given up: one request, no
    error for the work item, no cache entry. *)
Example rejected_record_is_not_requeued :
  fst (processEvent Scenario.rejectedController Scenario.createdEvent initial)
  = None
  /\ map snd (posts (deliveries
        (snd (processEvent Scenario.rejectedController Scenario.createdEvent
                           initial))))
     = [Response 404]
  /\ Load (snd (processEvent Scenario.rejectedController
                             Scenario.createdEvent initial))
          "prod/web/app||sha256:aaaa" = false.
Proof. vm_compute. repeat split; reflexivity. Qed.

(** * Further properties of the code *)

Import Facts Worker Informers Startup.


(** ** Strings: characters, first and last occurrences *)

Lemma HasPrefix_char (a c : ascii) (r : string) :
  HasPrefix (String a r) (String c "") = Ascii.eqb a c.
Proof.
  unfold HasPrefix. simpl. destruct (ascii_dec c a) as [->|Hne].
  - rewrite Ascii.eqb_refl. now destruct r.
  - destruct (Ascii.eqb_spec a c); congruence.
Qed.

Lemma Contains_char (c : ascii) (s : string) :
  Contains s (String c "") = hasChar c s.
Proof.
  induction s as [|a r IH]; [reflexivity|].
  cbn [Contains hasChar]. now rewrite HasPrefix_char, IH.
Qed.

Lemma append_cons (x : ascii) (a b : string) :
  String x a +:+ b = String x (a +:+ b).
Proof. reflexivity. Qed.

Lemma append_nil (b : string) : "" +:+ b = b.
Proof. reflexivity. Qed.

Lemma hasChar_app (c : ascii) (a b : string) :
  hasChar c (a +:+ b) = hasChar c a || hasChar c b.
Proof.
  induction a as [|x a IH]; simpl; [reflexivity|].
  now rewrite IH, orb_assoc.
Qed.

Lemma length_app_string (a b : string) :
  String.length (a +:+ b) = (String.length a + String.length b)%nat.
Proof. induction a as [|x a IH]; simpl; [reflexivity|]. now rewrite IH. Qed.

Lemma len_app (a b : string) : len (a +:+ b) = len a + len b.
Proof. unfold len. rewrite length_app_string. lia. Qed.

Lemma len_nonneg (s : string) : 0 <= len s.
Proof. unfold len. lia. Qed.

Lemma substring_all (s : string) : String.substring 0 (String.length s) s = s.
Proof. induction s as [|a s IH]; simpl; [reflexivity|]. now rewrite IH. Qed.

Lemma substring_prefix (a b : string) :
  String.substring 0 (String.length a) (a +:+ b) = a.
Proof.
  induction a as [|x a IH]; simpl.
  - destruct b; reflexivity.
  - now rewrite IH.
Qed.

Lemma substring_suffix (a b : string) (n : nat) :
  String.substring (String.length a) n (a +:+ b) = String.substring 0 n b.
Proof. induction a as [|x a IH]; simpl; [reflexivity|exact IH]. Qed.

Lemma sliceTo_app (a b : string) : sliceTo (a +:+ b) (len a) = a.
Proof.
  unfold sliceTo, slice, len. rewrite Z.sub_0_r, Nat2Z.id. cbn [Z.to_nat].
  apply substring_prefix.
Qed.

Lemma sliceFrom_app (a b : string) : sliceFrom (a +:+ b) (len a) = b.
Proof.
  unfold sliceFrom, slice. rewrite len_app. unfold len.
  replace (Z.of_nat (String.length a) + Z.of_nat (String.length b)
           - Z.of_nat (String.length a)) with (Z.of_nat (String.length b)) by lia.
  rewrite !Nat2Z.id, substring_suffix. apply substring_all.
Qed.

Lemma app_char_assoc (a : string) (c : ascii) (b : string) :
  (a +:+ String c "") +:+ b = a +:+ String c b.
Proof.
  induction a as [|x a IH]; [reflexivity|]. now rewrite !append_cons, IH.
Qed.

Lemma sliceFrom_app1 (a : string) (c : ascii) (b : string) :
  sliceFrom (a +:+ String c b) (len a + 1) = b.
Proof.
  rewrite <- app_char_assoc.
  replace (len a + 1) with (len (a +:+ String c ""))
    by (rewrite len_app; reflexivity).
  apply sliceFrom_app.
Qed.

(** The split of [s] at the first character that satisfies [stop]. *)
Lemma takeUntil_split (stop : ascii -> bool) (s : string) :
  s = Spec.takeUntil stop s
  \/ exists c rest, stop c = true /\ s = Spec.takeUntil stop s +:+ String c rest.
Proof.
  induction s as [|a s IH]; cbn [Spec.takeUntil]; [auto|].
  destruct (stop a) eqn:Ha.
  - right. exists a, s. auto.
  - destruct IH as [IH | (c & rest & Hc & IH)].
    + left. congruence.
    + right. exists c, rest. split; [exact Hc|]. rewrite append_cons. congruence.
Qed.

Lemma takeUntil_clean (c : ascii) (s : string) :
  hasChar c (Spec.takeUntil (fun a => Ascii.eqb a c) s) = false.
Proof.
  induction s as [|a s IH]; simpl; [reflexivity|].
  destruct (Ascii.eqb a c) eqn:Ha; simpl; [reflexivity|]. now rewrite Ha.
Qed.

Lemma takeUntil_id (c : ascii) (s : string) :
  hasChar c s = false -> Spec.takeUntil (fun a => Ascii.eqb a c) s = s.
Proof.
  induction s as [|a s IH]; simpl; [reflexivity|].
  destruct (Ascii.eqb a c); simpl; [discriminate|]. intros H. now rewrite IH.
Qed.

(** [strings.Index] for one character. *)
Lemma indexFrom_char (c : ascii) (s : string) (i : Z) :
  indexFrom s (String c "") i =
  if hasChar c s
  then i + len (Spec.takeUntil (fun a => Ascii.eqb a c) s)
  else -1.
Proof.
  revert i; induction s as [|a s IH]; intros i; [reflexivity|].
  cbn [indexFrom hasChar Spec.takeUntil]. rewrite HasPrefix_char.
  destruct (Ascii.eqb a c); cbn [orb].
  - unfold len; simpl. lia.
  - rewrite IH. destruct (hasChar c s); [|reflexivity].
    unfold len; cbn [String.length]. lia.
Qed.

(** [strings.LastIndex] for one character: the split of [s] at its last
    [c]. *)
Lemma lastIndexFrom_char (c : ascii) (s : string) (i : Z) :
  0 <= i ->
  (hasChar c s = false /\ lastIndexFrom s (String c "") i = -1)
  \/ exists pre post,
       s = pre +:+ String c post /\ hasChar c post = false
       /\ lastIndexFrom s (String c "") i = i + len pre.
Proof.
  revert i; induction s as [|a s IH]; intros i Hi; [left; auto|].
  cbn [lastIndexFrom hasChar]. rewrite HasPrefix_char.
  destruct (IH (i + 1) ltac:(lia)) as [[Hno ->] | (pre & post & -> & Hpost & ->)].
  - cbn [Z.eqb]. rewrite Hno, orb_false_r.
    destruct (Ascii.eqb_spec a c) as [->|Hne].
    + right. exists "", s. simpl. repeat split; auto. unfold len; simpl; lia.
    + left. auto.
  - right. exists (String a pre), post.
    pose proof (len_nonneg pre).
    destruct (Z.eqb_spec (i + 1 + len pre) (-1)); [lia|].
    repeat split; auto; unfold len in *; cbn [String.length]; lia.
Qed.

Lemma LastIndex_char (c : ascii) (s : string) :
  (hasChar c s = false /\ LastIndex s (String c "") = -1)
  \/ exists pre post,
       s = pre +:+ String c post /\ hasChar c post = false
       /\ LastIndex s (String c "") = len pre.
Proof.
  destruct (lastIndexFrom_char c s 0 ltac:(lia))
    as [H | (pre & post & H1 & H2 & H3)]; [left; exact H|].
  right. exists pre, post. repeat split; auto.
Qed.

(** Two splits of one string. *)
Lemma append_split (a u a' u' : string) :
  a +:+ u = a' +:+ u' -> (String.length a <= String.length a')%nat ->
  exists m, a' = a +:+ m /\ u = m +:+ u'.
Proof.
  revert a'; induction a as [|x a IH]; intros a' Heq Hlen; simpl in *.
  - exists a'. auto.
  - destruct a' as [|y a']; simpl in *; [lia|].
    injection Heq as -> Heq. destruct (IH a' Heq ltac:(lia)) as (m & -> & ->).
    exists m. auto.
Qed.

(** If the last [c] of a string stands before position [n], nothing from
    [n] on is a [c]. *)
Lemma no_char_behind_last (c : ascii) (s a b : string) :
  s = a +:+ b -> LastIndex s (String c "") < len a -> hasChar c b = false.
Proof.
  intros Hs Hlast.
  destruct (LastIndex_char c s) as [[Hno _] | (pre & post & Hsplit & Hpost & Hidx)].
  - rewrite Hs, hasChar_app in Hno. now apply orb_false_elim in Hno.
  - rewrite Hidx in Hlast. rewrite Hs in Hsplit.
    destruct (append_split pre (String c post) a b (eq_sym Hsplit))
      as (m & Ha & Hb); [unfold len in Hlast; lia|].
    destruct m as [|y m].
    + rewrite Ha in Hlast. rewrite len_app in Hlast. unfold len in Hlast.
      simpl in Hlast. lia.
    + simpl in Hb. injection Hb as _ Hb. rewrite Hb, hasChar_app in Hpost.
      now apply orb_false_elim in Hpost.
Qed.

(** If a string has a [c] at position [len a], its last [c] is not before
    that position. *)
Lemma LastIndex_ge (c : ascii) (a b : string) :
  len a <= LastIndex (a +:+ String c b) (String c "").
Proof.
  destruct (LastIndex_char c (a +:+ String c b))
    as [[Hno _] | (pre & post & Hsplit & Hpost & ->)].
  - rewrite hasChar_app in Hno. simpl in Hno. rewrite Ascii.eqb_refl in Hno.
    now rewrite orb_true_r in Hno.
  - destruct (Z.le_gt_cases (len a) (len pre)) as [|Hlt]; [assumption|].
    destruct (append_split pre (String c post) a (String c b) (eq_sym Hsplit))
      as (m & Ha & Hb); [unfold len in Hlt; lia|].
    destruct m as [|y m].
    + rewrite Ha, len_app in Hlt. unfold len in Hlt. simpl in Hlt. lia.
    + simpl in Hb. injection Hb as _ Hb. rewrite Hb, hasChar_app in Hpost.
      simpl in Hpost. rewrite Ascii.eqb_refl in Hpost.
      now rewrite orb_true_r in Hpost.
Qed.

(** The last [c] of [a ++ c :: b] when [b] has none. *)
Lemma LastIndex_last (c : ascii) (a b : string) :
  hasChar c b = false -> LastIndex (a +:+ String c b) (String c "") = len a.
Proof.
  intros Hb. pose proof (LastIndex_ge c a b) as Hge.
  destruct (LastIndex_char c (a +:+ String c b))
    as [[_ H] | (pre & post & Hsplit & Hpost & Hidx)]; [pose proof (len_nonneg a); lia|].
  rewrite Hidx in *. destruct (Z.eq_dec (len pre) (len a)) as [|Hne]; [assumption|].
  destruct (append_split a (String c b) pre (String c post) Hsplit)
    as (m & Hp & Hbm); [unfold len in *; lia|].
  destruct m as [|y m].
  - rewrite Hp, len_app in Hne. unfold len in Hne. simpl in Hne. lia.
  - simpl in Hbm. injection Hbm as _ Hbm. rewrite Hbm, hasChar_app in Hb.
    simpl in Hb. rewrite Ascii.eqb_refl in Hb. now rewrite orb_true_r in Hb.
Qed.

(** ** [ExtractName] *)

Lemma LastIndex_min (c : ascii) (s : string) : -1 <= LastIndex s (String c "").
Proof.
  destruct (LastIndex_char c s) as [[_ ->] | (pre & post & _ & _ & ->)];
    [lia | pose proof (len_nonneg pre); lia].
Qed.

(** The last [c] of [a ++ b] stands in [a] when [b] has none. *)
Lemma LastIndex_before (c : ascii) (a b : string) :
  hasChar c b = false -> LastIndex (a +:+ b) (String c "") < len a.
Proof.
  intros Hb.
  destruct (LastIndex_char c (a +:+ b))
    as [[_ ->] | (pre & post & Hsplit & Hpost & ->)];
    [pose proof (len_nonneg a); lia|].
  destruct (Z.lt_ge_cases (len pre) (len a)) as [|Hge]; [assumption|].
  destruct (append_split a b pre (String c post) Hsplit)
    as (m & _ & Hbm); [unfold len in Hge; lia|].
  rewrite Hbm, hasChar_app in Hb. simpl in Hb.
  rewrite Ascii.eqb_refl, orb_true_r in Hb. discriminate Hb.
Qed.

Lemma takeUntil_stop (c : ascii) (a b : string) :
  hasChar c a = false ->
  Spec.takeUntil (fun x => Ascii.eqb x c) (a +:+ String c b) = a.
Proof.
  induction a as [|x a IH]; simpl.
  - now rewrite Ascii.eqb_refl.
  - destruct (Ascii.eqb x c); simpl; [discriminate|]. intros H. now rewrite IH.
Qed.

Lemma eqb_empty_hasChar (c : ascii) (s : string) :
  hasChar c s = true -> String.eqb s "" = false.
Proof. destruct s; [discriminate|reflexivity]. Qed.

(** The first step of [ExtractName]: the digest is cut off. *)
Lemma strip_digest (image : string) :
  (let idx := Index image "@" in
   if negb (idx =? -1) then sliceTo image idx else image)
  = beforeDigest image.
Proof.
  unfold Index, beforeDigest. cbv zeta. rewrite indexFrom_char.
  destruct (hasChar "@" image) eqn:Hat.
  - pose proof (len_nonneg
      (Spec.takeUntil (fun a => Ascii.eqb a "@") image)) as Hlen.
    destruct (Z.eqb_spec
      (0 + len (Spec.takeUntil (fun a => Ascii.eqb a "@") image)) (-1));
      [lia|]. cbn [negb]. rewrite Z.add_0_l.
    destruct (takeUntil_split (fun a => Ascii.eqb a "@") image)
      as [Heq | (c & rest & _ & Heq)].
    + rewrite Heq in Hat. now rewrite takeUntil_clean in Hat.
    + rewrite Heq at 1. apply sliceTo_app.
  - cbn. symmetry. now apply takeUntil_id.
Qed.

Lemma ExtractName_beforeDigest (image : string) :
  Image.ExtractName image =
  if String.eqb image "" then ("", "")
  else
    let image := beforeDigest image in
    if LastIndex image ":" >? LastIndex image "/"
    then (sliceTo image (LastIndex image ":"),
          sliceFrom image (LastIndex image ":" + 1))
    else (image, "").
Proof.
  unfold Image.ExtractName. destruct (String.eqb image ""); [reflexivity|].
  now rewrite strip_digest.
Qed.

(** What [ExtractName] gives for a reference already without its digest. *)
Lemma ExtractName_tag (repo tag : string) :
  hasChar ":" tag = false -> hasChar "/" tag = false ->
  let image := repo +:+ String ":" tag in
  (if LastIndex image ":" >? LastIndex image "/"
   then (sliceTo image (LastIndex image ":"),
         sliceFrom image (LastIndex image ":" + 1))
   else (image, "")) = (repo, tag).
Proof.
  intros Hcolon Hslash image. subst image.
  rewrite (LastIndex_last ":" repo tag Hcolon).
  pose proof (LastIndex_before "/" repo (String ":" tag)) as Hlt.
  cbn [hasChar Ascii.eqb] in Hlt. specialize (Hlt Hslash).
  destruct (Z.gtb_spec (len repo) (LastIndex (repo +:+ String ":" tag) "/"));
    [|lia].
  now rewrite sliceTo_app, sliceFrom_app1.
Qed.

Lemma ExtractName_no_tag (dir leaf : string) :
  hasChar ":" leaf = false ->
  let image := dir +:+ String "/" leaf in
  (if LastIndex image ":" >? LastIndex image "/"
   then (sliceTo image (LastIndex image ":"),
         sliceFrom image (LastIndex image ":" + 1))
   else (image, "")) = (image, "").
Proof.
  intros Hcolon image. subst image.
  pose proof (LastIndex_ge "/" dir leaf) as Hge.
  pose proof (LastIndex_before ":" dir (String "/" leaf)) as Hlt.
  cbn [hasChar Ascii.eqb] in Hlt. specialize (Hlt Hcolon).
  destruct (Z.gtb_spec (LastIndex (dir +:+ String "/" leaf) ":")
                       (LastIndex (dir +:+ String "/" leaf) "/"));
    [lia|reflexivity].
Qed.

Lemma app_assoc_string (a b d : string) : (a +:+ b) +:+ d = a +:+ (b +:+ d).
Proof. induction a as [|x a IH]; [reflexivity|]. now rewrite !append_cons, IH. Qed.

Lemma app_nonempty (a : string) (c : ascii) (b : string) :
  String.eqb (a +:+ String c b) "" = false.
Proof. destruct a; reflexivity. Qed.

(** [ExtractName] on a tagged reference: for a repository without [@]
    (it may hold a registry port and slashes) and a tag without [@], [:]
    and [/], the reference [repo:tag], with or without a digest behind
    it, gives the repository and the tag. *)
Theorem ExtractName_tagged (repo tag digest : string) :
  hasChar "@" repo = false ->
  hasChar "@" tag = false -> hasChar ":" tag = false ->
  hasChar "/" tag = false ->
  Image.ExtractName (repo +:+ ":" +:+ tag) = (repo, tag)
  /\ Image.ExtractName (repo +:+ ":" +:+ tag +:+ "@" +:+ digest) = (repo, tag).
Proof.
  intros Hrepo Hat Hcolon Hslash.
  assert (Hclean : hasChar "@" (repo +:+ String ":" tag) = false).
  { rewrite hasChar_app. cbn [hasChar Ascii.eqb]. now rewrite Hrepo, Hat. }
  split; rewrite ExtractName_beforeDigest.
  - change (repo +:+ ":" +:+ tag) with (repo +:+ String ":" tag).
    rewrite app_nonempty. unfold beforeDigest.
    rewrite (takeUntil_id _ _ Hclean). now apply ExtractName_tag.
  - replace (repo +:+ ":" +:+ tag +:+ "@" +:+ digest)
      with ((repo +:+ String ":" tag) +:+ String "@" digest)
      by (rewrite app_assoc_string; reflexivity).
    rewrite app_nonempty. unfold beforeDigest.
    rewrite (takeUntil_stop _ _ _ Hclean). now apply ExtractName_tag.
Qed.

Lemma ExtractName_tagged_witness :
  Image.ExtractName ("localhost:5000/myapp" +:+ ":" +:+ "v1.0")
  = ("localhost:5000/myapp", "v1.0")
  /\ Image.ExtractName ("localhost:5000/myapp" +:+ ":" +:+ "v1.0" +:+ "@"
                        +:+ "sha256:abc123")
     = ("localhost:5000/myapp", "v1.0").
Proof. apply ExtractName_tagged; reflexivity. Defined.

(** [ExtractName] on an untagged reference: when the last path component
    has no [:], the whole name (registry port included) is the image name
    and the tag is empty, with or without a digest behind the name. *)
Theorem ExtractName_untagged (dir leaf digest : string) :
  hasChar "@" dir = false ->
  hasChar "@" leaf = false -> hasChar ":" leaf = false ->
  Image.ExtractName (dir +:+ "/" +:+ leaf) = (dir +:+ "/" +:+ leaf, "")
  /\ Image.ExtractName (dir +:+ "/" +:+ leaf +:+ "@" +:+ digest)
     = (dir +:+ "/" +:+ leaf, "")
  /\ Image.ExtractName leaf = (leaf, "")
  /\ Image.ExtractName (leaf +:+ "@" +:+ digest) = (leaf, "").
Proof.
  intros Hdir Hat Hcolon.
  assert (Hclean : hasChar "@" (dir +:+ String "/" leaf) = false).
  { rewrite hasChar_app. cbn [hasChar Ascii.eqb]. now rewrite Hdir, Hat. }
  assert (Hleaf : (if LastIndex leaf ":" >? LastIndex leaf "/"
                   then (sliceTo leaf (LastIndex leaf ":"),
                         sliceFrom leaf (LastIndex leaf ":" + 1))
                   else (leaf, "")) = (leaf, "")).
  { pose proof (LastIndex_min "/" leaf).
    destruct (LastIndex_char ":" leaf) as [[_ ->] | (pre & post & -> & _ & _)].
    - destruct (Z.gtb_spec (-1) (LastIndex leaf "/")); [lia|reflexivity].
    - rewrite hasChar_app in Hcolon. cbn [hasChar Ascii.eqb] in Hcolon.
      now rewrite orb_true_r in Hcolon. }
  repeat split; rewrite ExtractName_beforeDigest.
  - change (dir +:+ "/" +:+ leaf) with (dir +:+ String "/" leaf).
    rewrite app_nonempty. unfold beforeDigest.
    rewrite (takeUntil_id _ _ Hclean). now apply ExtractName_no_tag.
  - replace (dir +:+ "/" +:+ leaf +:+ "@" +:+ digest)
      with ((dir +:+ String "/" leaf) +:+ String "@" digest)
      by (rewrite app_assoc_string; reflexivity).
    rewrite app_nonempty. unfold beforeDigest.
    rewrite (takeUntil_stop _ _ _ Hclean).
    change (dir +:+ "/" +:+ leaf) with (dir +:+ String "/" leaf).
    now apply ExtractName_no_tag.
  - destruct (String.eqb_spec leaf "") as [->|_]; [reflexivity|].
    unfold beforeDigest. rewrite (takeUntil_id _ _ Hat). exact Hleaf.
  - change (leaf +:+ "@" +:+ digest) with (leaf +:+ String "@" digest).
    rewrite app_nonempty. unfold beforeDigest.
    rewrite (takeUntil_stop _ _ _ Hat). exact Hleaf.
Qed.

Lemma ExtractName_untagged_witness :
  Image.ExtractName ("localhost:5000" +:+ "/" +:+ "myapp")
  = ("localhost:5000" +:+ "/" +:+ "myapp", "")
  /\ Image.ExtractName ("localhost:5000" +:+ "/" +:+ "myapp" +:+ "@"
                        +:+ "sha256:abc123")
     = ("localhost:5000" +:+ "/" +:+ "myapp", "")
  /\ Image.ExtractName "myapp" = ("myapp", "")
  /\ Image.ExtractName ("myapp" +:+ "@" +:+ "sha256:abc123") = ("myapp", "").
Proof. apply ExtractName_untagged; reflexivity. Defined.

(** The two results of [ExtractName] on any input: the name has no [@];
    the tag has no [@], [:] or [/]; and the reference before its digest
    is either the name alone (then the tag is empty and no [:] follows the
    last [/]) or [name:tag]. *)
Theorem ExtractName_parts (image : string) :
  let (name, tag) := Image.ExtractName image in
  hasChar "@" name = false
  /\ hasChar "@" tag = false /\ hasChar ":" tag = false
  /\ hasChar "/" tag = false
  /\ ((tag = "" /\ beforeDigest image = name
       /\ LastIndex name ":" <= LastIndex name "/")
      \/ beforeDigest image = name +:+ ":" +:+ tag).
Proof.
  rewrite ExtractName_beforeDigest.
  destruct (String.eqb_spec image "") as [->|_].
  { repeat split; auto. left. repeat split; auto. now vm_compute. }
  cbv zeta. pose proof (takeUntil_clean "@" image) as Hclean.
  fold (beforeDigest image) in Hclean. set (img := beforeDigest image) in *.
  destruct (Z.gtb_spec (LastIndex img ":") (LastIndex img "/")) as [Hgt|Hle].
  - pose proof (LastIndex_min "/" img) as Hmin.
    destruct (LastIndex_char ":" img)
      as [[_ Hno] | (pre & post & Hsplit & Hpost & Hidx)]; [lia|].
    rewrite Hidx, Hsplit, sliceTo_app, sliceFrom_app1.
    rewrite Hsplit, hasChar_app in Hclean. cbn [hasChar Ascii.eqb] in Hclean.
    apply orb_false_elim in Hclean as [Hpre Hpost'].
    cbn [orb] in Hpost'.
    repeat split; auto.
    + apply (no_char_behind_last "/" img (pre +:+ String ":" "") post).
      * rewrite Hsplit. now rewrite app_char_assoc.
      * rewrite len_app. unfold len at 2. cbn [String.length]. lia.
  - repeat split; auto.
Qed.

(** ** [ExtractDigest] *)

Lemma prefix_split (p s : string) :
  String.prefix p s = true -> exists t, s = p +:+ t.
Proof.
  revert s; induction p as [|a p IH]; intros s H; [exists s; reflexivity|].
  destruct s as [|b s]; [discriminate|]. simpl in H.
  destruct (ascii_dec a b) as [->|]; [|discriminate].
  destruct (IH s H) as (t & ->). now exists t.
Qed.

Lemma prefix_app (p t : string) : String.prefix p (p +:+ t) = true.
Proof.
  induction p as [|a p IH]; [now destruct t|]. rewrite append_cons. simpl.
  destruct (ascii_dec a a); [exact IH|congruence].
Qed.

Lemma firstOccurrence_split (p s : string) (i : nat) :
  Spec.firstOccurrence p s = Some i ->
  exists before t,
    s = before +:+ (p +:+ t) /\ String.length before = i.
Proof.
  revert i; induction s as [|a s IH]; intros i; cbn [Spec.firstOccurrence].
  - destruct (String.prefix p "") eqn:Hp; [|discriminate].
    intros [= <-]. destruct (prefix_split _ _ Hp) as (t & Ht).
    now exists "", t.
  - destruct (String.prefix p (String a s)) eqn:Hp.
    + intros [= <-]. destruct (prefix_split _ _ Hp) as (t & Ht).
      now exists "", t.
    + destruct (Spec.firstOccurrence p s) as [j|]; [|discriminate].
      intros [= <-]. destruct (IH j eq_refl) as (before & t & -> & <-).
      now exists (String a before), t.
Qed.

Lemma untilSeparator_clean (s : string) :
  hasChar "@" (Spec.untilSeparator s) = false
  /\ hasChar " " (Spec.untilSeparator s) = false.
Proof.
  induction s as [|a s [IH1 IH2]]; [now split|]. cbn [Spec.untilSeparator].
  unfold Image.isSeparator.
  destruct (Ascii.eqb a "@") eqn:H1; [now split|].
  destruct (Ascii.eqb a " ") eqn:H2; [now split|].
  cbn [orb hasChar]. now rewrite H1, H2, IH1, IH2.
Qed.

Lemma untilSeparator_split (s : string) :
  exists after, s = Spec.untilSeparator s +:+ after.
Proof.
  induction s as [|a s (after & IH)]; [now exists ""|].
  cbn [Spec.untilSeparator]. destruct (Image.isSeparator a).
  - now exists (String a s).
  - exists after. rewrite append_cons. congruence.
Qed.

Lemma untilSeparator_id (s : string) :
  hasChar "@" s = false -> hasChar " " s = false -> Spec.untilSeparator s = s.
Proof.
  induction s as [|a s IH]; [reflexivity|]. cbn [Spec.untilSeparator hasChar].
  unfold Image.isSeparator. intros H1 H2.
  apply orb_false_elim in H1 as [-> H1]. apply orb_false_elim in H2 as [-> H2].
  cbn [orb]. now rewrite IH.
Qed.

Lemma untilSeparator_app (p t : string) :
  hasChar "@" p = false -> hasChar " " p = false ->
  Spec.untilSeparator (p +:+ t) = p +:+ Spec.untilSeparator t.
Proof.
  induction p as [|a p IH]; [reflexivity|]. rewrite !append_cons.
  cbn [Spec.untilSeparator hasChar]. unfold Image.isSeparator. intros H1 H2.
  apply orb_false_elim in H1 as [-> H1]. apply orb_false_elim in H2 as [-> H2].
  cbn [orb]. now rewrite IH.
Qed.

Lemma sliceFrom_0 (s : string) : sliceFrom s 0 = s.
Proof. apply (sliceFrom_app "" s). Qed.

(** The digest [ExtractDigest] cuts out, when it cuts one out. *)
Lemma ExtractDigest_cut (s : string) :
  Image.ExtractDigest s = s
  \/ exists before digest after,
       s = before +:+ ("sha256:" +:+ digest) +:+ after
       /\ hasChar "@" digest = false /\ hasChar " " digest = false
       /\ Image.ExtractDigest s = "sha256:" +:+ digest.
Proof.
  rewrite ExtractDigest_first_occurrence.
  destruct (Spec.firstOccurrence "sha256:" s) as [i|] eqn:Hocc; [|now left].
  destruct (Z.of_nat i <? len s - 7); [|now left]. right.
  destruct (firstOccurrence_split _ _ _ Hocc) as (before & t & -> & <-).
  fold (len before). rewrite sliceFrom_app.
  rewrite (untilSeparator_app "sha256:" t eq_refl eq_refl).
  destruct (untilSeparator_split t) as (after & Ht).
  destruct (untilSeparator_clean t) as [H1 H2].
  exists before, (Spec.untilSeparator t), after. repeat split; auto.
  rewrite Ht at 1. now rewrite !app_assoc_string.
Qed.

(** The result of [ExtractDigest] on any input: it is a fixed point of
    [ExtractDigest], and it is either the input itself or a part of the
    input that starts with [sha256:] and holds neither [@] nor a space. *)
Theorem ExtractDigest_shape (imageID : string) :
  Image.ExtractDigest (Image.ExtractDigest imageID)
  = Image.ExtractDigest imageID
  /\ (Image.ExtractDigest imageID = imageID
      \/ (HasPrefix (Image.ExtractDigest imageID) "sha256:" = true
          /\ hasChar "@" (Image.ExtractDigest imageID) = false
          /\ hasChar " " (Image.ExtractDigest imageID) = false
          /\ exists before after,
               imageID = before +:+ Image.ExtractDigest imageID +:+ after)).
Proof.
  destruct (ExtractDigest_cut imageID)
    as [Hid | (before & digest & after & Hs & H1 & H2 & Hr)].
  - split; [now rewrite !Hid | now left].
  - rewrite Hr. split.
    + rewrite ExtractDigest_first_occurrence.
      assert (Spec.firstOccurrence "sha256:" ("sha256:" +:+ digest)
              = Some O) as ->.
      { pose proof (prefix_app "sha256:" digest) as Hp.
        destruct ("sha256:" +:+ digest); cbn [Spec.firstOccurrence];
          now rewrite Hp. }
      destruct (Z.of_nat 0 <? len ("sha256:" +:+ digest) - 7); [|reflexivity].
      change (Z.of_nat 0) with 0. rewrite sliceFrom_0.
      rewrite (untilSeparator_app "sha256:" digest eq_refl eq_refl).
      now rewrite untilSeparator_id.
    + right. repeat split.
      * unfold HasPrefix. apply prefix_app.
      * rewrite hasChar_app. now rewrite H1.
      * rewrite hasChar_app. now rewrite H2.
      * exists before, after. rewrite Hs. now rewrite !app_assoc_string.
Qed.

(** ** [getDeploymentName] and the informer handlers *)

Lemma ownerDeploymentName_skip (before rest : list OwnerReference.t) :
  forallb (fun o => negb (String.eqb (OwnerReference.Kind o) "ReplicaSet"))
          before = true ->
  ownerDeploymentName (before ++ rest) = ownerDeploymentName rest.
Proof.
  induction before as [|o before IH]; [reflexivity|].
  cbn [forallb app ownerDeploymentName]. intros H.
  apply andb_prop in H as [Ho H].
  destruct (String.eqb (OwnerReference.Kind o) "ReplicaSet");
    [discriminate|]. auto.
Qed.

(** [getDeploymentName]: the first ReplicaSet among the owners decides.
    For a ReplicaSet named [d-h] with a non-empty [d] and no dash in [h]
    the result is [d]; a name without a dash, or whose only dash is its
    first character, is returned whole. *)
Theorem getDeploymentName_strips_hash (pod : Pod.t)
    (before after : list OwnerReference.t) (rs : OwnerReference.t) :
  Pod.OwnerReferences pod = before ++ rs :: after ->
  forallb (fun o => negb (String.eqb (OwnerReference.Kind o) "ReplicaSet"))
          before = true ->
  OwnerReference.Kind rs = "ReplicaSet" ->
  (forall d h, OwnerReference.Name rs = d +:+ "-" +:+ h ->
               d <> "" -> hasChar "-" h = false ->
               getDeploymentName pod = d)
  /\ (hasChar "-" (OwnerReference.Name rs) = false ->
      getDeploymentName pod = OwnerReference.Name rs)
  /\ (forall h, OwnerReference.Name rs = "-" +:+ h -> hasChar "-" h = false ->
                getDeploymentName pod = OwnerReference.Name rs).
Proof.
  intros Howners Hbefore Hkind. unfold getDeploymentName.
  rewrite Howners, (ownerDeploymentName_skip _ _ Hbefore).
  cbn [ownerDeploymentName]. rewrite Hkind. cbn [String.eqb Ascii.eqb].
  change (String.eqb "ReplicaSet" "ReplicaSet") with true. cbv iota.
  repeat split.
  - intros d h Hname Hd Hh. rewrite Hname.
    change (d +:+ "-" +:+ h) with (d +:+ String "-" h).
    rewrite (LastIndex_last "-" d h Hh).
    destruct d as [|x d]; [congruence|].
    destruct (Z.gtb_spec (len (String x d)) 0) as [_|Hle].
    + apply sliceTo_app.
    + unfold len in Hle. cbn [String.length] in Hle. lia.
  - intros Hno. destruct (LastIndex_char "-" (OwnerReference.Name rs))
      as [[_ ->] | (pre & post & Hsplit & _)]; [reflexivity|].
    rewrite Hsplit, hasChar_app in Hno. cbn [hasChar Ascii.eqb] in Hno.
    now rewrite orb_true_r in Hno.
  - intros h Hname Hh. rewrite Hname.
    change ("-" +:+ h) with ("" +:+ String "-" h).
    now rewrite (LastIndex_last "-" "" h Hh).
Qed.

Lemma getDeploymentName_strips_hash_witness :
  getDeploymentName Scenario.webPod = "web".
Proof.
  pose proof (getDeploymentName_strips_hash Scenario.webPod [] []
    {| OwnerReference.Kind := "ReplicaSet";
       OwnerReference.Name := "web-7f9c9b6d8" |}
    eq_refl eq_refl eq_refl) as [H _].
  apply (H "web" "7f9c9b6d8"); [reflexivity|discriminate|reflexivity].
Defined.

Lemma ownerDeploymentName_none (owners : list OwnerReference.t) :
  forallb (fun o => negb (String.eqb (OwnerReference.Kind o) "ReplicaSet"))
          owners = true ->
  ownerDeploymentName owners = "".
Proof.
  intros H. rewrite <- (app_nil_r owners).
  now rewrite (ownerDeploymentName_skip _ _ H).
Qed.

(** A pod that no ReplicaSet owns has no deployment name, and none of the
    three informer handlers queues an item for it. *)
Theorem unowned_pods_are_ignored (env : Cluster.Env) (p : ptr) :
  noReplicaSet (deref env p) = true ->
  getDeploymentName (deref env p) = ""
  /\ AddFunc env (ObjPod p) = None
  /\ (forall oldObj, UpdateFunc env oldObj (ObjPod p) = None)
  /\ DeleteFunc env (ObjPod p) = None
  /\ (forall key, DeleteFunc env (ObjTombstone key (ObjPod p)) = None).
Proof.
  intros H. apply ownerDeploymentName_none in H.
  fold (getDeploymentName (deref env p)) in H.
  split; [exact H|]. unfold AddFunc, UpdateFunc, DeleteFunc.
  rewrite H. cbn [String.eqb negb andb orb]. rewrite andb_false_r, orb_true_r.
  repeat split; auto. now intros [].
Qed.

Lemma unowned_pods_witness :
  getDeploymentName (deref jobCluster 1%N) = ""
  /\ AddFunc jobCluster (ObjPod 1%N) = None
  /\ (forall oldObj, UpdateFunc jobCluster oldObj (ObjPod 1%N) = None)
  /\ DeleteFunc jobCluster (ObjPod 1%N) = None
  /\ (forall key, DeleteFunc jobCluster (ObjTombstone key (ObjPod 1%N))
                  = None).
Proof. apply unowned_pods_are_ignored. reflexivity. Defined.

(** ** The cluster calls of [processEvent] *)

Section Frame.
Variable c : Controller.

Lemma updateCache_frame w key status :
  clusterCalls (snd (updateCache w key status)) = clusterCalls w
  /\ deliveries (snd (updateCache w key status)) = deliveries w.
Proof.
  unfold updateCache.
  destruct (String.eqb status StatusDeployed); [now split|].
  destruct (String.eqb status StatusDecommissioned); now split.
Qed.

Lemma recordContainer_clusterCalls pod container status et w :
  clusterCalls (snd (recordContainer c pod container status et w))
  = clusterCalls w.
Proof.
  unfold recordContainer.
  destruct (_ || _); [reflexivity|].
  destruct (alreadyRecorded _ _ _); [reflexivity|].
  destruct (Delivery.PostOne _ _ _ _) as [[e|] log].
  - now destruct (AsClientError e).
  - now rewrite (proj1 (updateCache_frame _ _ _)).
Qed.

Lemma recordContainers_clusterCalls pod status et containers :
  forall lastErr w,
    clusterCalls (snd (recordContainers c pod containers status et lastErr w))
    = clusterCalls w.
Proof.
  induction containers as [|x xs IH]; intros lastErr w; [reflexivity|].
  cbn [recordContainers].
  pose proof (recordContainer_clusterCalls pod x status et w) as Hx.
  destruct (recordContainer c pod x status et w) as [err w1].
  rewrite IH. exact Hx.
Qed.

Lemma processEvent_clusterCalls event w :
  clusterCalls (snd (processEvent c event w))
  = clusterCalls (snd (resolvePod c event w)).
Proof.
  unfold processEvent. destruct (resolvePod c event w) as [[pod|] w1];
    [|reflexivity].
  cbn [snd].
  pose proof (recordContainers_clusterCalls pod
    (if String.eqb (EventType event) EventDeleted
     then StatusDecommissioned else StatusDeployed)
    (EventType event) (Pod.Containers pod) None w1) as H1.
  destruct (recordContainers c pod (Pod.Containers pod) _ _ None w1)
    as [lastErr w2].
  rewrite recordContainers_clusterCalls. exact H1.
Qed.

End Frame.

(** What an item queued by a handler makes [processEvent] ask the
    cluster: exactly one lookup of the item's key in the informer's cache
    for an item of [AddFunc] or [UpdateFunc]; exactly one lookup of the
    Deployment of the captured pod for an item of [DeleteFunc]. *)
Theorem queued_items_make_one_lookup (c : Controller) (w : World)
    (ev : PodEvent) :
  ((exists o, AddFunc (cluster c) o = Some ev)
   \/ (exists oldObj newObj, UpdateFunc (cluster c) oldObj newObj = Some ev) ->
   clusterCalls (snd (processEvent c ev w))
   = CallGetByKey (Key ev) (getByKey (cluster c) (clusterCalls w) (Key ev))
     :: clusterCalls w)
  /\ (forall o, DeleteFunc (cluster c) o = Some ev ->
        exists p,
          DeletedPod ev = Some p
          /\ clusterCalls (snd (processEvent c ev w))
             = CallGetDeployment
                 (Pod.Namespace (deref (cluster c) p))
                 (getDeploymentName (deref (cluster c) p))
                 (getDeployment (cluster c) (clusterCalls w)
                    (Pod.Namespace (deref (cluster c) p))
                    (getDeploymentName (deref (cluster c) p)))
               :: clusterCalls w).
Proof.
  split.
  - intros H.
    assert (Hty : EventType ev = EventCreated).
    { destruct H as [(o & H) | (o & o' & H)].
      - now apply AddFunc_no_captured_pod in H.
      - now apply UpdateFunc_no_captured_pod in H. }
    rewrite processEvent_clusterCalls. unfold resolvePod. rewrite Hty.
    change (String.eqb EventCreated EventDeleted) with false. cbv iota.
    now destruct (getByKey _ _ _) as [| |[]].
  - intros o H. unfold DeleteFunc in H.
    destruct (match o with
              | ObjPod p => Some p
              | ObjTombstone _ (ObjPod p) => Some p
              | _ => None
              end) as [p|]; [|discriminate].
    destruct (String.eqb (getDeploymentName (deref (cluster c) p)) "")
      eqn:Hdn; [discriminate|].
    destruct (MetaNamespaceKeyFunc (cluster c) o) as [key|]; [|discriminate].
    injection H as <-. exists p. split; [reflexivity|].
    rewrite processEvent_clusterCalls. unfold resolvePod.
    cbn [EventType DeletedPod].
    change (String.eqb EventDeleted EventDeleted) with true. cbv iota.
    rewrite Hdn. cbn [negb]. unfold deploymentExists.
    now destruct (getDeployment _ _ _ _).
Qed.

(** ** The deployment name template *)

Lemma replaceScan_absent (old new s : string) :
  Contains s old = false -> replaceScan old new 0 s = s.
Proof.
  induction s as [|a s IH]; [reflexivity|].
  cbn [Contains replaceScan]. intros H.
  apply orb_false_elim in H as [-> H]. now rewrite IH.
Qed.

Lemma ReplaceAll_absent (s old new : string) :
  Contains s old = false -> ReplaceAll s old new = s.
Proof. apply replaceScan_absent. Qed.

(** A template that [ValidTemplate] rejects is returned unchanged by
    [getARDeploymentName]: every container of every pod would be reported
    under the same name. *)
Theorem invalid_template_is_constant (tmpl : string) (p : Pod.t)
    (c : Container.t) :
  ValidTemplate tmpl = false -> getARDeploymentName p c tmpl = tmpl.
Proof.
  unfold ValidTemplate, getARDeploymentName. intros H.
  apply orb_false_elim in H as [H Hcn].
  apply orb_false_elim in H as [Hns Hdn].
  now rewrite (ReplaceAll_absent _ _ _ Hns), (ReplaceAll_absent _ _ _ Hdn),
    (ReplaceAll_absent _ _ _ Hcn).
Qed.

Lemma invalid_template_witness :
  getARDeploymentName Scenario.webPod Scenario.appContainer "{{Namespace}}"
  = "{{Namespace}}".
Proof. apply invalid_template_is_constant. reflexivity. Defined.

(** No placeholder starts at a character other than [{]. *)
Lemma HasPrefix_brace (a : ascii) (s old : string) :
  Ascii.eqb a "{" = false -> HasPrefix (String a s) (String "{" old) = false.
Proof.
  intros Ha. unfold HasPrefix. cbn [String.prefix].
  destruct (ascii_dec "{" a) as [<-|]; [discriminate|reflexivity].
Qed.

Lemma replaceScan_clean (old new s : string) :
  hasChar "{" s = false -> replaceScan (String "{" old) new 0 s = s.
Proof.
  induction s as [|a s IH]; [reflexivity|]. cbn [hasChar]. intros H.
  apply orb_false_elim in H as [Ha H].
  cbn [replaceScan]. rewrite (HasPrefix_brace _ _ _ Ha). now rewrite IH.
Qed.

Lemma replaceScan_skip (old new x rest : string) :
  replaceScan old new (String.length x) (x +:+ rest)
  = replaceScan old new 0 rest.
Proof.
  induction x as [|a x IH]; [reflexivity|].
  rewrite append_cons. cbn [String.length replaceScan]. exact IH.
Qed.

(** The scan over a brace-free text followed by an occurrence. *)
Lemma replaceScan_hit (old new pre rest : string) :
  hasChar "{" pre = false ->
  replaceScan (String "{" old) new 0 (pre +:+ String "{" old +:+ rest)
  = pre +:+ new +:+ replaceScan (String "{" old) new 0 rest.
Proof.
  induction pre as [|a pre IH]; intros H.
  - rewrite !append_nil, append_cons. cbn [replaceScan].
    assert (HasPrefix (String "{" (old +:+ rest)) (String "{" old) = true)
      as ->.
    { unfold HasPrefix. rewrite <- append_cons. apply prefix_app. }
    cbn [String.length Nat.sub]. rewrite Nat.sub_0_r.
    now rewrite replaceScan_skip.
  - cbn [hasChar] in H. apply orb_false_elim in H as [Ha H].
    rewrite !(append_cons a). cbn [replaceScan].
    rewrite (HasPrefix_brace _ _ _ Ha). now rewrite IH.
Qed.

(** [defaultTemplate] is valid, and for a namespace and a deployment name
    without [{] it names a container
    [namespace/deploymentName/containerName]. *)
Theorem default_template_names (p : Pod.t) (c : Container.t) :
  hasChar "{" (Pod.Namespace p) = false ->
  hasChar "{" (getDeploymentName p) = false ->
  ValidTemplate defaultTemplate = true
  /\ getARDeploymentName p c defaultTemplate
     = Pod.Namespace p +:+ "/" +:+ getDeploymentName p +:+ "/"
       +:+ Container.Name c.
Proof.
  intros Hns Hdn. split; [reflexivity|].
  unfold getARDeploymentName, defaultTemplate, ReplaceAll, TmplNS, TmplDN,
    TmplCN.
  set (ns := Pod.Namespace p) in *. set (dn := getDeploymentName p) in *.
  set (cn := Container.Name c).
  (* {{namespace}} *)
  pose proof (replaceScan_hit "{namespace}}" ns ""
                "/{{deploymentName}}/{{containerName}}" eq_refl) as H1.
  rewrite append_nil in H1.
  change ("{{namespace}}" +:+ "/" +:+ "{{deploymentName}}" +:+ "/"
          +:+ "{{containerName}}")
    with ("{{namespace}}" +:+ "/{{deploymentName}}/{{containerName}}").
  rewrite H1. clear H1. rewrite append_nil.
  assert (replaceScan "{{namespace}}" ns 0
            "/{{deploymentName}}/{{containerName}}"
          = "/{{deploymentName}}/{{containerName}}") as -> by reflexivity.
  (* {{deploymentName}} *)
  assert (Hpre : hasChar "{" (ns +:+ "/") = false)
    by (rewrite hasChar_app, Hns; reflexivity).
  pose proof (replaceScan_hit "{deploymentName}}" dn (ns +:+ "/")
                "/{{containerName}}" Hpre) as H2.
  replace (ns +:+ "/{{deploymentName}}/{{containerName}}")
    with ((ns +:+ "/") +:+ "{{deploymentName}}" +:+ "/{{containerName}}")
    by (now rewrite app_assoc_string).
  rewrite H2. clear H2.
  assert (replaceScan "{{deploymentName}}" dn 0 "/{{containerName}}"
          = "/{{containerName}}") as -> by reflexivity.
  (* {{containerName}} *)
  assert (Hpre' : hasChar "{" ((ns +:+ "/") +:+ dn +:+ "/") = false)
    by (rewrite !hasChar_app, Hns, Hdn; reflexivity).
  pose proof (replaceScan_hit "{containerName}}" cn
                ((ns +:+ "/") +:+ dn +:+ "/") "" Hpre') as H3.
  replace ((ns +:+ "/") +:+ dn +:+ "/{{containerName}}")
    with (((ns +:+ "/") +:+ dn +:+ "/") +:+ "{{containerName}}" +:+ "")
    by (now rewrite !app_assoc_string).
  rewrite H3. clear H3.
  change (replaceScan "{{containerName}}" cn 0 "") with "".
  rewrite !app_assoc_string.
  assert (cn +:+ "" = cn) as ->.
  { clear. induction cn as [|a s IH]; [reflexivity|].
    now rewrite append_cons, IH. }
  reflexivity.
Qed.

Lemma default_template_witness :
  ValidTemplate defaultTemplate = true
  /\ getARDeploymentName Scenario.webPod Scenario.appContainer
                         defaultTemplate
     = Pod.Namespace Scenario.webPod +:+ "/"
       +:+ getDeploymentName Scenario.webPod +:+ "/"
       +:+ Container.Name Scenario.appContainer.
Proof. apply default_template_names; reflexivity. Defined.

(** ** [recordContainer]: what it skips and what it leaves alone *)

Lemma digestOf_none (statuses : list ContainerStatus.t) (name : string) :
  forallb (fun s => negb (String.eqb (ContainerStatus.Name s) name)) statuses
  = true ->
  digestOf statuses name = None.
Proof.
  induction statuses as [|s rest IH]; [reflexivity|].
  cbn [forallb digestOf]. intros H. apply andb_prop in H as [Hs H].
  destruct (String.eqb (ContainerStatus.Name s) name); [discriminate|]. auto.
Qed.

(** A container that has no container status (regular or init) has an
    empty digest, and [recordContainer] returns nil for it and leaves
    everything as it is. *)
Theorem recordContainer_without_status (c : Controller) (pod : Pod.t)
    (container : Container.t) (status eventType : string) (w : World) :
  noStatus pod (Container.Name container) = true ->
  getContainerDigest pod (Container.Name container) = ""
  /\ recordContainer c pod container status eventType w = (None, w).
Proof.
  unfold noStatus. rewrite forallb_app. intros H.
  apply andb_prop in H as [H1 H2].
  assert (Hd : getContainerDigest pod (Container.Name container) = "").
  { unfold getContainerDigest.
    now rewrite (digestOf_none _ _ H1), (digestOf_none _ _ H2). }
  split; [exact Hd|]. unfold recordContainer. rewrite Hd.
  cbn [String.eqb]. now rewrite orb_true_r.
Qed.

Lemma recordContainer_without_status_witness :
  getContainerDigest pendingPod (Container.Name Scenario.appContainer) = ""
  /\ recordContainer Scenario.controller pendingPod Scenario.appContainer
       StatusDeployed EventCreated initial = (None, initial).
Proof. apply recordContainer_without_status. reflexivity. Defined.

(** A status other than [deployed] and [decommissioned] makes
    [recordContainer] return the error [invalid status], unless the
    container has no identity (then it returns nil); nothing is posted and
    the cache is left alone in both cases. *)
Theorem recordContainer_invalid_status (c : Controller) (pod : Pod.t)
    (container : Container.t) (status eventType : string) (w : World) :
  status <> StatusDeployed -> status <> StatusDecommissioned ->
  recordContainer c pod container status eventType w
  = (if String.eqb (getARDeploymentName pod container (Template (cfg c))) ""
        || String.eqb (getContainerDigest pod (Container.Name container)) ""
     then None
     else Some (errorString ("invalid status: " +:+ status)),
     w).
Proof.
  intros H1 H2. unfold recordContainer.
  destruct (_ || _); [reflexivity|]. unfold alreadyRecorded.
  destruct (String.eqb_spec status StatusDeployed); [contradiction|].
  destruct (String.eqb_spec status StatusDecommissioned); [contradiction|].
  reflexivity.
Qed.

Lemma recordContainer_invalid_status_witness :
  recordContainer Scenario.controller Scenario.webPod Scenario.appContainer
    "paused" EventCreated initial
  = (if String.eqb (getARDeploymentName Scenario.webPod Scenario.appContainer
                      (Template (cfg Scenario.controller))) ""
        || String.eqb (getContainerDigest Scenario.webPod
                         (Container.Name Scenario.appContainer)) ""
     then None
     else Some (errorString ("invalid status: " +:+ "paused")),
     initial).
Proof. apply recordContainer_invalid_status; discriminate. Defined.

(** What [recordContainer] does to the cache. *)
Lemma recordContainer_observed (c : Controller) pod container status et w :
  let key := getCacheKey (getARDeploymentName pod container (Template (cfg c)))
               (getContainerDigest pod (Container.Name container)) in
  let w' := snd (recordContainer c pod container status et w) in
  observedDeployments w' = observedDeployments w
  \/ (status = StatusDeployed
      /\ observedDeployments w' = <[key := true]> (observedDeployments w))
  \/ (status = StatusDecommissioned
      /\ observedDeployments w' = delete key (observedDeployments w)).
Proof.
  cbv zeta. unfold recordContainer.
  destruct (_ || _); [now left|].
  destruct (alreadyRecorded _ _ _); [now left|].
  destruct (Delivery.PostOne _ _ _ _) as [[e|] log].
  - left. now destruct (AsClientError e).
  - unfold updateCache.
    destruct (String.eqb_spec status StatusDeployed) as [->|_];
      [right; left; now split|].
    destruct (String.eqb_spec status StatusDecommissioned) as [->|_];
      [right; right; now split|].
    now left.
Qed.

Lemma Load_lookup w key :
  Load w key = match observedDeployments w !! key with
               | Some _ => true
               | None => false
               end.
Proof. reflexivity. Qed.

Lemma recordContainer_grows (c : Controller) pod container et w key :
  Load w key = true ->
  Load (snd (recordContainer c pod container StatusDeployed et w)) key = true.
Proof.
  intros H. unfold Load in *.
  destruct (recordContainer_observed c pod container StatusDeployed et w)
    as [-> | [[_ ->] | [Habs _]]]; [exact H| |discriminate Habs].
  destruct (decide (getCacheKey
      (getARDeploymentName pod container (Template (cfg c)))
      (getContainerDigest pod (Container.Name container)) = key)) as [->|Hne].
  - now rewrite lookup_insert_eq.
  - now rewrite lookup_insert_ne.
Qed.

Lemma recordContainer_shrinks (c : Controller) pod container et w key :
  Load w key = false ->
  Load (snd (recordContainer c pod container StatusDecommissioned et w)) key
  = false.
Proof.
  intros H. unfold Load in *.
  destruct (recordContainer_observed c pod container StatusDecommissioned et w)
    as [-> | [[Habs _] | [_ ->]]]; [exact H|discriminate Habs|].
  destruct (decide (getCacheKey
      (getARDeploymentName pod container (Template (cfg c)))
      (getContainerDigest pod (Container.Name container)) = key)) as [->|Hne].
  - now rewrite lookup_delete_eq.
  - now rewrite lookup_delete_ne.
Qed.

Lemma recordContainers_grow (c : Controller) pod et key containers :
  forall lastErr w,
    Load w key = true ->
    Load (snd (recordContainers c pod containers StatusDeployed et lastErr w))
         key = true.
Proof.
  induction containers as [|x xs IH]; intros lastErr w H; [exact H|].
  cbn [recordContainers].
  pose proof (recordContainer_grows c pod x et w key H) as Hx.
  destruct (recordContainer c pod x StatusDeployed et w) as [err w1].
  now apply IH.
Qed.

Lemma recordContainers_shrink (c : Controller) pod et key containers :
  forall lastErr w,
    Load w key = false ->
    Load (snd (recordContainers c pod containers StatusDecommissioned et
                 lastErr w)) key = false.
Proof.
  induction containers as [|x xs IH]; intros lastErr w H; [exact H|].
  cbn [recordContainers].
  pose proof (recordContainer_shrinks c pod x et w key H) as Hx.
  destruct (recordContainer c pod x StatusDecommissioned et w) as [err w1].
  now apply IH.
Qed.

Lemma resolvePod_frame (c : Controller) event w :
  observedDeployments (snd (resolvePod c event w)) = observedDeployments w
  /\ deliveries (snd (resolvePod c event w)) = deliveries w.
Proof.
  unfold resolvePod.
  destruct (String.eqb (EventType event) EventDeleted).
  - destruct (DeletedPod event) as [p|]; [|now split].
    destruct (negb _); [|now split]. unfold deploymentExists.
    now destruct (getDeployment _ _ _ _).
  - now destruct (getByKey _ _ _) as [| |[]].
Qed.

(** Processing an event other than a deletion never removes an entry of
    the cache, processing a deletion never adds one. *)
Theorem cache_moves_one_way (c : Controller) (event : PodEvent) (w : World)
    (key : string) :
  (EventType event <> EventDeleted ->
   Load w key = true -> Load (snd (processEvent c event w)) key = true)
  /\ (EventType event = EventDeleted ->
      Load w key = false -> Load (snd (processEvent c event w)) key = false).
Proof.
  pose proof (resolvePod_frame c event w) as [Hobs _].
  unfold processEvent.
  destruct (resolvePod c event w) as [[pod|] w1]; cbn [snd] in *.
  - split; intros Hty H.
    + destruct (String.eqb_spec (EventType event) EventDeleted);
        [contradiction|].
      assert (H1 : Load w1 key = true) by (unfold Load in *; now rewrite Hobs).
      pose proof (recordContainers_grow c pod (EventType event) key
                    (Pod.Containers pod) None w1 H1) as H2.
      destruct (recordContainers c pod (Pod.Containers pod) _ _ None w1)
        as [lastErr w2].
      now apply recordContainers_grow.
    + rewrite Hty. change (String.eqb EventDeleted EventDeleted) with true.
      cbv iota.
      assert (H1 : Load w1 key = false) by (unfold Load in *; now rewrite Hobs).
      pose proof (recordContainers_shrink c pod EventDeleted key
                    (Pod.Containers pod) None w1 H1) as H2.
      destruct (recordContainers c pod (Pod.Containers pod) _ _ None w1)
        as [lastErr w2].
      now apply recordContainers_shrink.
  - unfold Load. rewrite Hobs. now split.
Qed.

(** ** The records [processEvent] posts *)

Lemma PostOne_sent (env : Transport.Env) (c : Client)
    (record : DeploymentRecord) (log : list Event) :
  exists sent,
    posts (snd (PostOne env c (Some record) log)) = posts log ++ sent
    /\ Forall (fun p => body (fst p) = record) sent.
Proof.
  unfold PostOne. destruct (limiterWait env log).
  - exists []. cbn. now rewrite app_nil_r.
  - destruct (attemptLoop env c record (recordURL c)
                (Z.to_nat (add64 (retries c) 1)) 0 None
                (EvLimiterWait None :: log)) as [err log'] eqn:Hloop.
    destruct (attemptLoop_bound _ _ _ _ _ _ _ _ _ _ Hloop)
      as (sent & Hposts & _ & Hall).
    exists sent. split; [exact Hposts|].
    eapply List.Forall_impl; [|exact Hall]. now intros p [H _].
Qed.

Lemma posted_setDeliveries w log :
  posted (setDeliveries w log) = map (fun p => body (fst p)) (posts log).
Proof. reflexivity. Qed.

Lemma posted_updateCache w key status :
  posted (snd (updateCache w key status)) = posted w.
Proof.
  unfold updateCache.
  destruct (String.eqb status StatusDeployed); [reflexivity|].
  now destruct (String.eqb status StatusDecommissioned).
Qed.

Lemma buildRecord_recordOf (c : Controller) pod container status :
  status = StatusDeployed \/ status = StatusDecommissioned ->
  String.eqb (getARDeploymentName pod container (Template (cfg c))) ""
  || String.eqb (getContainerDigest pod (Container.Name container)) ""
  = false ->
  recordOf c pod status container
    (buildRecord c container
       (getContainerDigest pod (Container.Name container)) status
       (getARDeploymentName pod container (Template (cfg c)))).
Proof.
  intros Hst Hid. apply orb_false_elim in Hid as [Hdn Hd].
  apply String.eqb_neq in Hdn, Hd.
  unfold recordOf, buildRecord.
  destruct (Image.ExtractName (Container.Image container)) as [n v].
  unfold NewDeploymentRecord. cbn.
  repeat split; auto.
  now destruct Hst as [-> | ->].
Qed.

Lemma recordContainer_posted (c : Controller) pod container status et w :
  exists sent,
    posted (snd (recordContainer c pod container status et w))
    = posted w ++ sent
    /\ Forall (recordOf c pod status container) sent.
Proof.
  unfold recordContainer.
  destruct (_ || _) eqn:Hid; [exists []; now rewrite app_nil_r|].
  destruct (alreadyRecorded _ _ _) eqn:Hrec;
    [exists []; now rewrite app_nil_r|].
  apply alreadyRecorded_valid in Hrec.
  pose proof (buildRecord_recordOf c pod container status Hrec Hid) as Hof.
  set (record := buildRecord c container _ status _) in *.
  destruct (PostOne_sent (remote c) (apiClient c) record (deliveries w))
    as (sent & Hposts & Hall).
  destruct (Delivery.PostOne _ _ _ _) as [err log]. cbn [snd] in Hposts.
  exists (map (fun p => body (fst p)) sent). split.
  - assert (Hp : posted (setDeliveries w log)
                 = posted w ++ map (fun p => body (fst p)) sent).
    { rewrite posted_setDeliveries, Hposts, map_app. reflexivity. }
    destruct err as [e|].
    + now destruct (AsClientError e).
    + now rewrite posted_updateCache.
  - apply List.Forall_map. eapply List.Forall_impl; [|exact Hall].
    intros p Hp. cbn in Hp. now rewrite Hp.
Qed.

Lemma recordContainers_posted (c : Controller) pod status et containers :
  forall lastErr w,
  exists sent,
    posted (snd (recordContainers c pod containers status et lastErr w))
    = posted w ++ sent
    /\ Forall (fun r => exists container,
                 In container containers
                 /\ recordOf c pod status container r) sent.
Proof.
  induction containers as [|x xs IH]; intros lastErr w.
  - exists []. now rewrite app_nil_r.
  - cbn [recordContainers].
    destruct (recordContainer_posted c pod x status et w)
      as (s1 & H1 & Hall1).
    destruct (recordContainer c pod x status et w) as [err w1].
    cbn [snd] in H1.
    destruct (IH (match err with Some e => Some e | None => lastErr end) w1)
      as (s2 & H2 & Hall2).
    exists (s1 ++ s2). split.
    + now rewrite H2, H1, app_assoc.
    + apply List.Forall_app. split.
      * eapply List.Forall_impl; [|exact Hall1]. intros r Hr. exists x.
        split; [now left|exact Hr].
      * eapply List.Forall_impl; [|exact Hall2]. intros r (y & Hy & Hr).
        exists y. split; [now right|exact Hr].
Qed.

Lemma posted_resolvePod (c : Controller) event w :
  posted (snd (resolvePod c event w)) = posted w.
Proof.
  unfold posted. now rewrite (proj2 (resolvePod_frame c event w)).
Qed.

(** Every record posted while an event is processed is the record of a
    container (regular or init) of the event's pod: image name and tag
    from the container's image, digest from its status, the deployment
    name from the template, both non-empty, status [deployed] for a
    creation and [decommissioned] for a deletion, and the environment
    and cluster of the configuration. *)
Theorem processEvent_posts_container_records (c : Controller)
    (event : PodEvent) (w : World) :
  exists sent,
    posted (snd (processEvent c event w)) = posted w ++ sent
    /\ Forall (fun r => exists pod container,
                 fst (resolvePod c event w) = Some pod
                 /\ In container (Pod.Containers pod ++ Pod.InitContainers pod)
                 /\ recordOf c pod (eventStatus event) container r) sent.
Proof.
  pose proof (posted_resolvePod c event w) as Hres.
  unfold processEvent.
  destruct (resolvePod c event w) as [[pod|] w1]; cbn [fst snd] in *.
  - fold (eventStatus event).
    destruct (recordContainers_posted c pod (eventStatus event)
                (EventType event) (Pod.Containers pod) None w1)
      as (s1 & H1 & Hall1).
    destruct (recordContainers c pod (Pod.Containers pod) _ _ None w1)
      as [lastErr w2]. cbn [snd] in H1.
    destruct (recordContainers_posted c pod (eventStatus event)
                (EventType event) (Pod.InitContainers pod) lastErr w2)
      as (s2 & H2 & Hall2).
    exists (s1 ++ s2). split.
    + now rewrite H2, H1, Hres, app_assoc.
    + apply List.Forall_app. split.
      * eapply List.Forall_impl; [|exact Hall1]. intros r (x & Hx & Hr).
        exists pod, x. split; [reflexivity|]. split; [|exact Hr].
        apply in_or_app. now left.
      * eapply List.Forall_impl; [|exact Hall2]. intros r (x & Hx & Hr).
        exists pod, x. split; [reflexivity|]. split; [|exact Hr].
        apply in_or_app. now right.
  - exists []. now rewrite app_nil_r.
Qed.

(** ** Sequences of events and the worker loop *)

Lemma resolvePod_consistent (c : Controller) event w :
  cacheMatchesDeliveries w ->
  cacheMatchesDeliveries (snd (resolvePod c event w)).
Proof.
  destruct (resolvePod_frame c event w) as [Hobs Hdel].
  unfold cacheMatchesDeliveries, Load. now rewrite Hobs, Hdel.
Qed.

Lemma recordContainers_consistent (c : Controller) pod status et containers :
  forall lastErr w,
    cacheMatchesDeliveries w ->
    cacheMatchesDeliveries
      (snd (recordContainers c pod containers status et lastErr w)).
Proof.
  induction containers as [|x xs IH]; intros lastErr w H; [exact H|].
  cbn [recordContainers].
  pose proof (perform_consistent c
    {| callPod := pod; callContainer := x; callStatus := status;
       callEventType := et |} w H) as Hx.
  unfold perform in Hx. cbn [callPod callContainer callStatus callEventType]
    in Hx.
  destruct (recordContainer c pod x status et w) as [err w1].
  now apply IH.
Qed.

Lemma processEvent_consistent (c : Controller) event w :
  cacheMatchesDeliveries w ->
  cacheMatchesDeliveries (snd (processEvent c event w)).
Proof.
  intros H. apply (resolvePod_consistent c event) in H.
  unfold processEvent.
  destruct (resolvePod c event w) as [[pod|] w1]; [|exact H].
  cbn [snd] in *.
  pose proof (recordContainers_consistent c pod
    (if String.eqb (EventType event) EventDeleted
     then StatusDecommissioned else StatusDeployed)
    (EventType event) (Pod.Containers pod) None w1 H) as H1.
  destruct (recordContainers c pod (Pod.Containers pod) _ _ None w1)
    as [lastErr w2].
  now apply recordContainers_consistent.
Qed.

Lemma handle_consistent (c : Controller) events : forall w,
  cacheMatchesDeliveries w -> cacheMatchesDeliveries (handle c events w).
Proof.
  induction events as [|e rest IH]; intros w H; [exact H|].
  cbn [handle]. apply IH. now apply processEvent_consistent.
Qed.

Lemma initial_consistent : cacheMatchesDeliveries initial.
Proof.
  intros key. unfold Load. cbn. rewrite lookup_empty. split; discriminate.
Qed.

(** After any sequence of work items, processed from the start of the
    controller, the cache holds exactly the identities whose last
    successful delivery reported [deployed]. *)
Theorem event_sequences_keep_cache_consistent (c : Controller)
    (events : list PodEvent) (key : string) :
  Load (handle c events initial) key = true <->
  lastStatus key (delivered (deliveries (handle c events initial)))
  = Some StatusDeployed.
Proof. apply (handle_consistent c events initial initial_consistent). Qed.

(** Events that find no pod are dropped: a deletion without a captured
    pod changes nothing; a creation whose key the informer's cache does
    not resolve to a pod (lookup error, no entry, an object of another
    type) only makes that lookup; [processEvent] returns nil either
    way. *)
Theorem processEvent_without_pod (c : Controller) (event : PodEvent)
    (w : World) :
  (EventType event = EventDeleted -> DeletedPod event = None ->
   processEvent c event w = (None, w))
  /\ (EventType event <> EventDeleted ->
      (forall p, getByKey (cluster c) (clusterCalls w) (Key event)
                 <> GetByKeyFound (ObjPod p)) ->
      processEvent c event w
      = (None,
         logCall w (CallGetByKey (Key event)
                      (getByKey (cluster c) (clusterCalls w) (Key event))))).
Proof.
  unfold processEvent, resolvePod. split.
  - intros -> ->. reflexivity.
  - intros Hty Hno.
    destruct (String.eqb_spec (EventType event) EventDeleted);
      [contradiction|].
    destruct (getByKey _ _ _) as [| |[p| |]]; try reflexivity.
    now destruct (Hno p).
Qed.

(** ** The worker *)





(** ** [PostOne] under arbitrary collaborators *)

Section AnyCollaborators.
Variables (env : Transport.Env) (c : Client) (record : DeploymentRecord).

Lemma credential_mono (log log' : list Event) (req : Request) :
  (forall e, In e log -> In e log') ->
  credential c log req -> credential c log' req.
Proof.
  unfold credential. intros Hsub. destruct (transport c); [|auto].
  intros (tok & H1 & H2). exists tok. auto.
Qed.

Lemma backoff_extends attempt log err log' :
  backoff env attempt log = (err, log') -> forall e, In e log -> In e log'.
Proof.
  unfold backoff. destruct (attempt >? 0); intros [= <- <-] e H; auto.
  now right.
Qed.

Lemma authorize_extends log a log' :
  authorize env c log = (a, log') -> forall e, In e log -> In e log'.
Proof.
  unfold authorize. destruct (transport c); intros [= <- <-] e H; auto.
  now right.
Qed.

Lemma authorize_credential log auth log' :
  authorize env c log = (inr auth, log') ->
  (forall e, In e log -> In e log')
  /\ forall url resp,
       credential c (EvPost {| url := url; authorization := auth;
                               body := record |} resp :: log')
                  {| url := url; authorization := auth; body := record |}.
Proof.
  unfold authorize, credential. destruct (transport c) as [t|].
  - destruct (getToken env log) as [e|tok]; intros [= <- <-].
    split; [intros e H; now right|]. intros url resp. exists tok.
    split; [reflexivity|]. right. now left.
  - intros [= <- <-]. split; [auto|]. intros url resp. cbn.
    now destruct (String.eqb (apiToken c) "").
Qed.

Lemma authorize_error log e log' :
  authorize env c log = (inl e, log') -> AsClientError e = false.
Proof.
  unfold authorize. destruct (transport c) as [t|]; [|discriminate].
  destruct (getToken env log); now intros [= <- <-].
Qed.

Lemma backoff_error attempt log e log' :
  backoff env attempt log = (Some e, log') -> AsClientError e = false.
Proof.
  unfold backoff. destruct (attempt >? 0); [|discriminate].
  destruct (ctxDone env log); now intros [= <- <-].
Qed.

Lemma attemptLoop_credential url n : forall attempt lastErr log err log',
  attemptLoop env c record url n attempt lastErr log = (err, log') ->
  (forall e, In e log -> In e log')
  /\ exists sent,
       posts log' = posts log ++ sent
       /\ Forall (fun p => credential c log' (fst p)) sent.
Proof.
  induction n as [|n IH]; intros attempt lastErr log err log' H;
    cbn [attemptLoop] in H.
  - injection H as <- <-. split; [auto|]. exists []. now rewrite app_nil_r.
  - destruct (backoff env attempt log) as [[e|] log1] eqn:Hb.
    + injection H as <- <-. split; [now apply (backoff_extends _ _ _ _ Hb)|].
      exists []. rewrite app_nil_r. split; [|constructor].
      now apply (backoff_log _ _ _ _ _ Hb).
    + pose proof (backoff_extends _ _ _ _ Hb) as Hsub1.
      apply backoff_log in Hb as [Hp1 _].
      destruct (newRequestErr env url).
      { injection H as <- <-. split; [exact Hsub1|]. exists [].
        rewrite app_nil_r. split; [exact Hp1|constructor]. }
      destruct (authorize env c log1) as [[e|auth] log2] eqn:Ha.
      { injection H as <- <-.
        pose proof (authorize_extends _ _ _ Ha) as Hsub2.
        apply (authorize_log env c) in Ha as [Hp2 _].
        split; [auto|]. exists []. rewrite app_nil_r.
        split; [congruence|constructor]. }
      destruct (authorize_credential _ _ _ Ha) as [Hsub2 Hcred].
      apply (authorize_log env c) in Ha as [Hp2 _].
      set (req := {| url := url; authorization := auth; body := record |})
        in *.
      set (resp := httpDo env log2 req) in *.
      destruct (classify resp).
      * injection H as <- <-. split; [intros e He; right; auto|].
        exists [(req, resp)]. cbn [posts]. split; [congruence|].
        constructor; [apply Hcred|constructor].
      * apply IH in H as (Hsub3 & sent & Hp3 & Hall).
        split; [intros e He; apply Hsub3; right; auto|].
        exists ((req, resp) :: sent). split.
        -- rewrite Hp3. cbn [posts]. rewrite Hp2, Hp1, <- app_assoc.
           reflexivity.
        -- constructor; [|exact Hall]. cbn [fst].
           eapply credential_mono; [exact Hsub3|apply Hcred].
Qed.

End AnyCollaborators.

(** The [Authorization] header of every request of a call of [PostOne]:
    with a GitHub App transport it is [Bearer] and a token the transport
    handed out during the call or before (the API token is not used);
    without one it is [Bearer] and the API token, or absent when the API
    token is empty. *)
Theorem PostOne_authorization (env : Transport.Env) (c : Client)
    (record : DeploymentRecord) (log : list Event) :
  exists sent,
    posts (snd (PostOne env c (Some record) log)) = posts log ++ sent
    /\ Forall (fun p => credential c (snd (PostOne env c (Some record) log))
                                   (fst p)) sent.
Proof.
  unfold PostOne. destruct (limiterWait env log).
  - exists []. cbn. split; [now rewrite app_nil_r|constructor].
  - destruct (attemptLoop env c record (recordURL c)
                (Z.to_nat (add64 (retries c) 1)) 0 None
                (EvLimiterWait None :: log)) as [err log'] eqn:Hloop.
    apply attemptLoop_credential in Hloop as (_ & sent & Hp & Hall).
    now exists sent.
Qed.

Section Verdict.
Variables (env : Transport.Env) (c : Client) (record : DeploymentRecord).

Lemma attemptLoop_ending url n : forall attempt lastErr log err log',
  (forall e0, lastErr = Some e0 -> AsClientError e0 = false) ->
  attemptLoop env c record url n attempt lastErr log = (err, log') ->
  exists sent, posts log' = posts log ++ sent /\ ending sent err.
Proof.
  induction n as [|n IH]; intros attempt lastErr log err log' Hlast H;
    cbn [attemptLoop] in H.
  - injection H as <- <-. exists []. rewrite app_nil_r. split; [reflexivity|].
    left. split; [reflexivity|]. eexists. split; [reflexivity|].
    destruct lastErr as [e0|]; [cbn; now apply Hlast|reflexivity].
  - destruct (backoff env attempt log) as [[e|] log1] eqn:Hb.
    + injection H as <- <-. exists []. rewrite app_nil_r.
      split; [now apply (backoff_log _ _ _ _ _ Hb)|].
      left. split; [reflexivity|]. exists e. split; [reflexivity|].
      now apply (backoff_error env _ _ _ _ Hb).
    + apply backoff_log in Hb as [Hp1 _].
      destruct (newRequestErr env url).
      { injection H as <- <-. exists []. rewrite app_nil_r.
        split; [exact Hp1|]. left. split; [reflexivity|].
        eexists. split; reflexivity. }
      destruct (authorize env c log1) as [[e|auth] log2] eqn:Ha.
      { injection H as <- <-.
        pose proof (authorize_error env c _ _ _ Ha) as He.
        apply (authorize_log env c) in Ha as [Hp2 _].
        exists []. rewrite app_nil_r. split; [congruence|].
        left. split; [reflexivity|]. now exists e. }
      apply (authorize_log env c) in Ha as [Hp2 _].
      set (req := {| url := url; authorization := auth; body := record |})
        in *.
      set (resp := httpDo env log2 req) in *.
      pose proof (classify_classOf resp) as Hclass.
      destruct (classOf resp) eqn:Hc.
      * destruct Hclass as [Hcl _]. rewrite Hcl in H. injection H as <- <-.
        exists [(req, resp)]. cbn [posts]. split; [congruence|].
        right. exists [], req, resp. repeat split; auto. now rewrite Hc.
      * destruct Hclass as (_ & code & Hresp & Hcl). rewrite Hcl in H.
        injection H as <- <-.
        exists [(req, resp)]. cbn [posts]. split; [congruence|].
        right. exists [], req, resp. repeat split; auto. rewrite Hc.
        now exists code.
      * destruct Hclass as [Hcl _]. rewrite Hcl in H.
        apply IH in H as (sent & Hp3 & Hend).
        2:{ intros e0 [= <-]. now apply (classify_continue resp). }
        exists ((req, resp) :: sent). split.
        { rewrite Hp3. cbn [posts]. rewrite Hp2, Hp1, <- app_assoc.
          reflexivity. }
        right. destruct Hend as [[-> Herr] | (earlier & r & a & -> & Hall & Hv)].
        -- exists [], req, resp. repeat split; auto. now rewrite Hc.
        -- exists ((req, resp) :: earlier), r, a. repeat split; auto.
Qed.

End Verdict.

(** How a call of [PostOne] ends, whatever its collaborators do and
    whatever the retry count: either no request was sent and the error is
    not a client error; or every answer but the last called for a retry
    and the last decides: nil on a 2xx, a [ClientError] on a 4xx other
    than 429, and an error that is not a client error otherwise. *)
Theorem PostOne_stops_at_first_verdict (env : Transport.Env) (c : Client)
    (record : DeploymentRecord) (log : list Event) :
  exists sent,
    posts (snd (PostOne env c (Some record) log)) = posts log ++ sent
    /\ ((sent = []
         /\ exists e, fst (PostOne env c (Some record) log) = Some e
                      /\ AsClientError e = false)
        \/ exists earlier req resp,
             sent = earlier ++ [(req, resp)]
             /\ Forall (fun p => classOf (snd p) = SoftFail) earlier
             /\ match classOf resp with
                | Success => fst (PostOne env c (Some record) log) = None
                | Permanent =>
                    exists code,
                      resp = Response code
                      /\ fst (PostOne env c (Some record) log)
                         = Some (ClientError (statusError code))
                | SoftFail =>
                    exists e,
                      fst (PostOne env c (Some record) log) = Some e
                      /\ AsClientError e = false
                end).
Proof.
  unfold PostOne. destruct (limiterWait env log).
  - exists []. cbn [fst snd posts]. split; [now rewrite app_nil_r|].
    left. split; [reflexivity|]. eexists. split; reflexivity.
  - destruct (attemptLoop env c record (recordURL c)
                (Z.to_nat (add64 (retries c) 1)) 0 None
                (EvLimiterWait None :: log)) as [err log'] eqn:Hloop.
    apply attemptLoop_ending in Hloop as (sent & Hp & Hend); [|discriminate].
    exists sent. split; [exact Hp|exact Hend].
Qed.

(** ** The client [New] builds *)

Lemma builtin_keeps (opt : ClientOption) (c c' : Client) :
  builtin opt -> opt c = Some c' ->
  baseURL c' = baseURL c /\ org c' = org c /\ rateLimiter c' = rateLimiter c.
Proof.
  intros [seconds|n|token|[t|]]; cbn; intros [= <-]; auto.
Qed.

Lemma applyOptions_keeps (opts : list ClientOption) :
  Forall builtin opts -> forall c c',
  applyOptions opts c = Some c' ->
  baseURL c' = baseURL c /\ org c' = org c /\ rateLimiter c' = rateLimiter c.
Proof.
  induction 1 as [|opt opts Hopt _ IH]; intros c c'; cbn [applyOptions].
  - now intros [= <-].
  - destruct (opt c) as [c1|] eqn:H1; [|discriminate]. intros H.
    destruct (builtin_keeps _ _ _ Hopt H1) as (<- & <- & <-). now apply IH.
Qed.

(** A client built by [NewClient] with options of the package keeps the
    organization it was given, which matches the pattern, the base URL
    (with [https://] in front when it has no scheme) and the default rate
    limiter; a base URL starting with [http://] passed the local test. *)
Theorem NewClient_builtin_options (url organization : string)
    (opts : list ClientOption) (c : Client) :
  Forall builtin opts ->
  NewClient url organization opts = Ok c ->
  org c = organization
  /\ validOrgPattern_MatchString (org c) = true
  /\ baseURL c = (if HasPrefix url "https://" || HasPrefix url "http://"
                  then url else "https://" +:+ url)
  /\ (HasPrefix url "http://" = true -> isLocal url = true)
  /\ rateLimiter c = {| limit := 20; burst := 50 |}.
Proof.
  intros Hopts. unfold NewClient.
  destruct (HasPrefix url "http://" && negb (isLocal url)) eqn:Hsecure;
    [discriminate|].
  destruct (validOrgPattern_MatchString organization) eqn:Horg;
    [|discriminate]. cbn [negb].
  destruct (applyOptions opts _) as [c'|] eqn:Happly; [|discriminate].
  intros [= <-].
  destruct (applyOptions_keeps opts Hopts _ _ Happly) as (Hurl & Ho & Hrl).
  cbn [baseURL org rateLimiter] in *. rewrite Ho, Hurl, Hrl.
  repeat apply conj; auto.
  - destruct (HasPrefix url "https://"), (HasPrefix url "http://");
      reflexivity.
  - intros Hhttp. rewrite Hhttp in Hsecure.
    now destruct (isLocal url).
Qed.

Lemma NewClient_builtin_options_witness :
  org Scenario.client37 = "my-org"
  /\ validOrgPattern_MatchString (org Scenario.client37) = true
  /\ baseURL Scenario.client37
     = (if HasPrefix "api.github.com" "https://"
           || HasPrefix "api.github.com" "http://"
        then "api.github.com" else "https://" +:+ "api.github.com")
  /\ (HasPrefix "api.github.com" "http://" = true ->
      isLocal "api.github.com" = true)
  /\ rateLimiter Scenario.client37 = {| limit := 20; burst := 50 |}.
Proof.
  apply (NewClient_builtin_options "api.github.com" "my-org"
           [WithRetries 37]).
  - repeat constructor.
  - reflexivity.
Defined.

(** The client [New] builds from the configuration: it carries the API
    token as configured and the GitHub App transport exactly when all
    three App values are set, with the default retries and timeout; an
    error of [NewClient] is wrapped as [failed to create API client]; and
    it panics exactly when the three App values are set but cannot be
    loaded while URL and organization are fine. *)
Theorem newAPIClient_credentials
    (BaseURL Organization APIToken GHAppID GHInstallID GHAppPrivateKey : string)
    (loaded : option DeploymentRecord.Transport) :
  let app := negb (String.eqb GHAppID "") && negb (String.eqb GHInstallID "")
             && negb (String.eqb GHAppPrivateKey "") in
  match newAPIClient BaseURL Organization APIToken GHAppID GHInstallID
                     GHAppPrivateKey loaded with
  | Ok c =>
      apiToken c = APIToken
      /\ transport c = (if app then loaded else None)
      /\ (app = true -> exists t, loaded = Some t)
      /\ retries c = 3 /\ httpTimeout c = 5 * Second
      /\ org c = Organization
  | Err e =>
      exists cause,
        e = wrapError "failed to create API client" cause
        /\ NewClient BaseURL Organization [] = Err cause
  | Panic =>
      app = true /\ loaded = None
      /\ exists c, NewClient BaseURL Organization [] = Ok c
  end.
Proof.
  cbv zeta. unfold newAPIClient, clientOpts, NewClient.
  destruct (HasPrefix BaseURL "http://" && negb (isLocal BaseURL));
    [eexists; split; reflexivity|].
  destruct (validOrgPattern_MatchString Organization);
    [|eexists; split; reflexivity]. cbn [negb].
  destruct (negb (String.eqb GHAppID "") && negb (String.eqb GHInstallID "")
            && negb (String.eqb GHAppPrivateKey "")).
  - destruct loaded as [t|].
    + destruct (String.eqb_spec APIToken "") as [->|_]; cbn;
        repeat apply conj; auto; now exists t.
    + destruct (String.eqb_spec APIToken "") as [->|_]; cbn;
        (split; [reflexivity|]; split; [reflexivity|]; eexists; reflexivity).
  - destruct (String.eqb_spec APIToken "") as [->|_]; cbn;
      repeat apply conj; auto; discriminate.
Qed.

(** ** The cache key *)

Lemma append_inj_l (p a b : string) : p +:+ a = p +:+ b -> a = b.
Proof.
  induction p as [|x p IH]; [auto|]. rewrite !append_cons.
  intros [= H]. auto.
Qed.

(** [getCacheKey] keeps container identities apart as long as the
    deployment names, or the digests, are free of [|]: equal keys then
    mean equal names and equal digests. *)
Theorem getCacheKey_injective (dn dn' digest digest' : string) :
  (hasChar "|" dn = false /\ hasChar "|" dn' = false)
  \/ (hasChar "|" digest = false /\ hasChar "|" digest' = false) ->
  getCacheKey dn digest = getCacheKey dn' digest' ->
  dn = dn' /\ digest = digest'.
Proof.
  unfold getCacheKey.
  change (dn +:+ "||" +:+ digest) with (dn +:+ String "|" ("|" +:+ digest)).
  change (dn' +:+ "||" +:+ digest')
    with (dn' +:+ String "|" ("|" +:+ digest')).
  intros [[H H'] | [H H']] Heq.
  - assert (dn = dn') as <-.
    { rewrite <- (takeUntil_stop "|" dn ("|" +:+ digest) H),
              <- (takeUntil_stop "|" dn' ("|" +:+ digest') H').
      now rewrite Heq. }
    apply append_inj_l in Heq. injection Heq as Heq. now split.
  - assert (Hlen : len (dn +:+ "|") = len (dn' +:+ "|")).
    { rewrite <- (LastIndex_last "|" (dn +:+ "|") digest H),
              <- (LastIndex_last "|" (dn' +:+ "|") digest' H').
      rewrite !app_char_assoc. change ("|" +:+ digest) with (String "|" digest)
        in Heq. change ("|" +:+ digest') with (String "|" digest') in Heq.
      now rewrite Heq. }
    rewrite !len_app in Hlen. unfold len in Hlen.
    destruct (append_split dn (String "|" ("|" +:+ digest)) dn'
                (String "|" ("|" +:+ digest')) Heq) as (m & Hm & Hrest);
      [lia|].
    destruct m as [|x m].
    + rewrite Hm in Heq |- *.
      assert (dn +:+ "" = dn) as Hnil.
      { clear. induction dn as [|a s IH]; [reflexivity|].
        now rewrite append_cons, IH. }
      rewrite Hnil in *. apply append_inj_l in Heq. injection Heq as Heq.
      now split.
    + rewrite Hm, length_app_string in Hlen. cbn [String.length] in Hlen. lia.
Qed.

Lemma getCacheKey_injective_witness :
  "prod/web/app" = "prod/web/app" /\ "sha256:aaaa" = "sha256:aaaa".
Proof.
  apply getCacheKey_injective; [left; split; reflexivity|reflexivity].
Defined.

(** ** The informer factory *)

Section Exclude.
Variable TrimSpace : string -> string.

Lemma part_inj (a b : string) : part a = part b -> a = b.
Proof. apply append_inj_l. Qed.

Lemma excludeLoop_spec (pieces : list string) :
  forall (seen : gmap string bool) (acc : list string),
    (forall ns, default false (seen !! ns) = true <-> In (part ns) acc) ->
    NoDup acc ->
    NoDup (excludeLoop TrimSpace pieces seen acc)
    /\ forall p,
         In p (excludeLoop TrimSpace pieces seen acc) <->
         In p acc
         \/ exists piece, In piece pieces /\ TrimSpace piece <> ""
                          /\ p = part (TrimSpace piece).
Proof.
  induction pieces as [|piece rest IH]; intros seen acc Hseen Hnd.
  - cbn [excludeLoop]. split; [exact Hnd|]. intros p. split; [auto|].
    intros [H | (x & [] & _)]. exact H.
  - cbn [excludeLoop]. set (ns := TrimSpace piece).
    destruct (String.eqb_spec ns "") as [Hempty|Hne]; cbn [negb andb].
    + destruct (IH seen acc Hseen Hnd) as [Hnd' Hin]. split; [exact Hnd'|].
      intros p. rewrite Hin. split.
      * intros [H | (x & Hx & Hx' & ->)]; [now left|].
        right. exists x. split; [now right|]. now split.
      * intros [H | (x & [<- | Hx] & Hx' & ->)]; [now left| |].
        -- contradiction.
        -- right. exists x. now split.
    + destruct (default false (seen !! ns)) eqn:Hs; cbn [negb].
      * destruct (IH seen acc Hseen Hnd) as [Hnd' Hin]. split; [exact Hnd'|].
        intros p. rewrite Hin. split.
        -- intros [H | (x & Hx & Hx' & ->)]; [now left|].
           right. exists x. split; [now right|]. now split.
        -- intros [H | (x & [<- | Hx] & Hx' & ->)]; [now left| |].
           ++ left. now apply Hseen.
           ++ right. exists x. now split.
      * assert (Hfresh : ~ In (part ns) acc).
        { intros H. apply Hseen in H. congruence. }
        destruct (IH (<[ns := true]> seen) (acc ++ [part ns])) as [Hnd' Hin].
        { intros ns'. rewrite in_app_iff. cbn [In].
          destruct (decide (ns = ns')) as [<-|Hd].
          - rewrite lookup_insert_eq. cbn. split; auto.
          - rewrite lookup_insert_ne by exact Hd. rewrite Hseen.
            split; [auto|]. intros [H | [H | []]]; [exact H|].
            apply part_inj in H. contradiction. }
        { apply NoDup_app. repeat split; [exact Hnd| |apply NoDup_singleton].
          intros x Hx Hx'. apply list_elem_of_In in Hx.
          apply list_elem_of_In in Hx'. destruct Hx' as [<- | []].
          contradiction. }
        split; [exact Hnd'|]. intros p. rewrite Hin, in_app_iff. cbn [In].
        split.
        -- intros [[H | [<- | []]] | (x & Hx & Hx' & ->)].
           ++ now left.
           ++ right. exists piece. split; [now left|]. now split.
           ++ right. exists x. split; [now right|]. now split.
        -- intros [H | (x & [<- | Hx] & Hx' & ->)].
           ++ left. now left.
           ++ left. right. now left.
           ++ right. exists x. now split.
Qed.

End Exclude.

(** [createInformerFactory]: a namespace to watch takes precedence over
    the namespaces to exclude; the field selector of the exclusion has one
    part [metadata.namespace!=ns] for each distinct non-empty trimmed
    piece of the comma-separated list, and no part twice. *)
Theorem createInformerFactory_selection (TrimSpace : string -> string)
    (namespace excludeNamespaces : string) :
  (namespace <> "" ->
   createInformerFactory TrimSpace namespace excludeNamespaces
   = WithNamespace namespace)
  /\ (namespace = "" -> excludeNamespaces <> "" ->
      createInformerFactory TrimSpace namespace excludeNamespaces
      = WithTweakListOptions
          (Join (fieldSelectorParts TrimSpace excludeNamespaces) ","))
  /\ (namespace = "" -> excludeNamespaces = "" ->
      createInformerFactory TrimSpace namespace excludeNamespaces
      = Unrestricted)
  /\ NoDup (fieldSelectorParts TrimSpace excludeNamespaces)
  /\ (forall p,
        In p (fieldSelectorParts TrimSpace excludeNamespaces) <->
        exists piece,
          In piece (Split excludeNamespaces ",")
          /\ TrimSpace piece <> ""
          /\ p = "metadata.namespace!=" +:+ TrimSpace piece).
Proof.
  unfold createInformerFactory.
  repeat apply conj.
  - intros H. now destruct (String.eqb_spec namespace "").
  - intros -> H. cbn. now destruct (String.eqb_spec excludeNamespaces "").
  - now intros -> ->.
  - apply excludeLoop_spec; [|constructor].
    intros ns. rewrite lookup_empty. cbn. split; [discriminate|intros []].
  - intros p. unfold fieldSelectorParts.
    destruct (excludeLoop_spec TrimSpace (Split excludeNamespaces ",") ∅ [])
      as [_ H].
    + intros ns. rewrite lookup_empty. cbn. split; [discriminate|intros []].
    + constructor.
    + rewrite H. split; [intros [[] | H']; exact H' | now right].
Qed.

(** ** The digest of a container *)

Lemma digestOf_app (l1 l2 : list ContainerStatus.t) (name : string) :
  digestOf (l1 ++ l2) name
  = match digestOf l1 name with
    | Some d => Some d
    | None => digestOf l2 name
    end.
Proof.
  induction l1 as [|s l1 IH]; [reflexivity|]. cbn [app digestOf].
  now destruct (String.eqb (ContainerStatus.Name s) name).
Qed.

(** [getContainerDigest] takes the digest from the first container
    status with the container's name, the statuses of the regular
    containers coming before those of the init containers. *)
Theorem getContainerDigest_first_status (pod : Pod.t) (name : string)
    (before after : list ContainerStatus.t) (status : ContainerStatus.t) :
  Pod.ContainerStatuses pod ++ Pod.InitContainerStatuses pod
  = before ++ status :: after ->
  forallb (fun s => negb (String.eqb (ContainerStatus.Name s) name)) before
  = true ->
  ContainerStatus.Name status = name ->
  getContainerDigest pod name
  = Image.ExtractDigest (ContainerStatus.ImageID status).
Proof.
  intros Hall Hbefore Hname.
  assert (H : digestOf (Pod.ContainerStatuses pod
                        ++ Pod.InitContainerStatuses pod) name
              = Some (Image.ExtractDigest (ContainerStatus.ImageID status))).
  { rewrite Hall, digestOf_app, (digestOf_none _ _ Hbefore).
    cbn [digestOf]. now rewrite Hname, String.eqb_refl. }
  rewrite digestOf_app in H. unfold getContainerDigest.
  destruct (digestOf (Pod.ContainerStatuses pod) name); [congruence|].
  now rewrite H.
Qed.

Lemma getContainerDigest_first_status_witness :
  getContainerDigest Scenario.twoContainerPod "sidecar"
  = Image.ExtractDigest "docker-pullable://envoy@sha256:bbbb".
Proof.
  apply (getContainerDigest_first_status Scenario.twoContainerPod "sidecar"
           [ {| ContainerStatus.Name := "app";
                ContainerStatus.ImageID :=
                  "docker-pullable://nginx@sha256:aaaa" |} ]
           []
           {| ContainerStatus.Name := "sidecar";
              ContainerStatus.ImageID :=
                "docker-pullable://envoy@sha256:bbbb" |});
    reflexivity.
Defined.

(** ** The error [processEvent] returns *)

Lemma recordContainers_app (c : Controller) pod status et xs ys :
  forall lastErr w,
    recordContainers c pod (xs ++ ys) status et lastErr w
    = recordContainers c pod ys status et
        (fst (recordContainers c pod xs status et lastErr w))
        (snd (recordContainers c pod xs status et lastErr w)).
Proof.
  induction xs as [|x xs IH]; intros lastErr w; [reflexivity|].
  cbn [app recordContainers].
  destruct (recordContainer c pod x status et w) as [err w1]. apply IH.
Qed.

Lemma recordContainers_last (c : Controller) pod status et xs :
  forall lastErr w,
    match fst (recordContainers c pod xs status et lastErr w) with
    | Some e =>
        (exists before after,
           containerResults c pod xs status et w = before ++ Some e :: after
           /\ Forall (fun r => r = None) after)
        \/ (lastErr = Some e
            /\ Forall (fun r => r = None)
                      (containerResults c pod xs status et w))
    | None =>
        lastErr = None
        /\ Forall (fun r => r = None) (containerResults c pod xs status et w)
    end.
Proof.
  induction xs as [|x xs IH]; intros lastErr w.
  - cbn. destruct lastErr; [right|]; now split.
  - cbn [recordContainers containerResults].
    destruct (recordContainer c pod x status et w) as [err w1].
    specialize (IH (match err with Some e => Some e | None => lastErr end) w1).
    destruct (fst (recordContainers c pod xs status et _ w1)) as [e|].
    + destruct IH as [(before & after & -> & Hafter) | [Hl Hall]].
      * left. now exists (err :: before), after.
      * destruct err as [e'|].
        -- injection Hl as ->. left. now exists [], (containerResults
             c pod xs status et w1).
        -- right. split; [exact Hl|]. now constructor.
    + destruct IH as [Hl Hall]. destruct err; [discriminate|].
      split; [exact Hl|]. now constructor.
Qed.

(** The error [processEvent] returns is the error of the last container,
    regular containers first and init containers after them, whose
    [recordContainer] returned one; it is nil when none did. *)
Theorem processEvent_returns_last_error (c : Controller) (event : PodEvent)
    (w : World) :
  match resolvePod c event w with
  | (Some pod, w1) =>
      let results :=
        containerResults c pod (Pod.Containers pod ++ Pod.InitContainers pod)
                         (eventStatus event) (EventType event) w1 in
      match fst (processEvent c event w) with
      | Some e =>
          exists before after,
            results = before ++ Some e :: after
            /\ Forall (fun r => r = None) after
      | None => Forall (fun r => r = None) results
      end
  | (None, _) => fst (processEvent c event w) = None
  end.
Proof.
  unfold processEvent.
  destruct (resolvePod c event w) as [[pod|] w1]; [|reflexivity].
  cbv zeta. fold (eventStatus event).
  pose proof (recordContainers_last c pod (eventStatus event)
                (EventType event)
                (Pod.Containers pod ++ Pod.InitContainers pod) None w1) as H.
  rewrite recordContainers_app in H.
  destruct (recordContainers c pod (Pod.Containers pod) _ _ None w1)
    as [lastErr w2]. cbn [fst snd] in H.
  destruct (fst (recordContainers c pod (Pod.InitContainers pod) _ _
                   lastErr w2)) as [e|].
  - destruct H as [H | [H _]]; [exact H|discriminate].
  - now destruct H.
Qed.
